(** * ChartDB: metadata normalizer, layout engine and token holder

    A shallow embedding of
    - [createTablesFromMetadata] and [adjustTablePositions] (the table
      domain module), and
    - [TokenManager] (context/export-image-context/tokenManager.ts),
    with the properties the specification states about them; and of
    - [shouldShowTablesBySchemaFilter] and the filtered table list of the
      side panel,
    - the validation and the toggles of the import dialog, and
    - [transformDiagram], [exportJsonApi] (the export-image provider) and
      [setAuthToken],
    with further properties of the code.

    Conventions of the embedding.
    - A JavaScript [number] that holds a coordinate or an angle is a
      binary64 float ([PrimFloat.float]), with the IEEE operations of the
      kernel.  [Math.cos] and [Math.sin] are implementation-approximated
      in ECMAScript, so the layout engine takes them as parameters.
    - Integral numbers of the metadata (ordinal positions, column
      positions, timestamps) are in [Z].
    - A JavaScript string is a Rocq string that holds the bytes of its
      UTF-8 encoding (generalised to strings with a lone surrogate, each
      encoded as a code point of three bytes): strict equality is
      equality of the bytes, and [trim] strips every white space and line
      terminator of ECMAScript, whatever the number of its bytes.
      [String.prototype.toLowerCase], which follows the case tables of
      Unicode, is a parameter.
    - A JavaScript [Map], and an object used as a dictionary, is an
      association list in insertion order ([JsMap]); a [Set] is a
      duplicate-free list in insertion order.  Where the code reads a
      member of a plain object under a computed key, the members that the
      object inherits from [Object.prototype] are part of the model
      ([Js.objectPrototype]).
    - An optional member of an object is an [option]: [None] when reading
      the member gives [undefined], be it that the key is absent or that
      it is written with the value [undefined] (as [comments] always is).
    - A call that may throw has a completion ([Js.completion]), normal or
      abrupt.
    - Objects that the code mutates through shared references (the table
      objects of the layout engine) live in a store addressed by
      references; see [Layout]. *)

From stdpp Require Import base list strings.
From Stdlib Require Import ZArith String Ascii Bool Floats Uint63 Lia.
From Stdlib Require Import List Sorted Permutation.
Import ListNotations.

Local Open Scope string_scope.
Local Open Scope list_scope.

(** ** JavaScript values and containers *)

Module Js.

(** Truthiness of a string: only the empty string is falsy. *)
Definition truthy (s : string) : bool :=
  match s with
  | EmptyString => false
  | String _ _ => true
  end.

(** Truthiness of [string | undefined | null]. *)
Definition truthyOpt (o : option string) : bool :=
  match o with
  | Some s => truthy s
  | None => false
  end.

(** [v ? v : undefined]. *)
Definition orUndefined (o : option string) : option string :=
  if truthyOpt o then o else None.

(** Truthiness of an optional integral number: [0] and [undefined] are
    falsy. *)
Definition truthyNum (o : option Z) : bool :=
  match o with
  | Some z => negb (z =? 0)%Z
  | None => false
  end.

(** Strict equality on [string | undefined]. *)
Definition optEqb (a b : option string) : bool :=
  match a, b with
  | Some x, Some y => String.eqb x y
  | None, None => true
  | _, _ => false
  end.

(** A value of type [string | undefined] inside a template literal. *)
Definition render (o : option string) : string :=
  match o with
  | Some s => s
  | None => "undefined"
  end.

(** The completion of a call: it returns a value, or throws. *)
Inductive completion (A : Type) :=
| Normal (a : A)
| Abrupt (error : string).
Arguments Normal {A} a.
Arguments Abrupt {A} error.

(** The names of the members that every plain object inherits from
    [Object.prototype]; the value of each is a function or an object,
    hence truthy, and none of them has a member [columns]. *)
Definition objectPrototype : list string :=
  [ "constructor"; "hasOwnProperty"; "isPrototypeOf"; "propertyIsEnumerable";
    "toLocaleString"; "toString"; "valueOf"; "__proto__";
    "__defineGetter__"; "__defineSetter__"; "__lookupGetter__";
    "__lookupSetter__" ].

(** The white space and the line terminators of one byte: U+0009 to
    U+000D and U+0020. *)
Definition isWhiteSpace (c : ascii) : bool :=
  match nat_of_ascii c with
  | 9 | 10 | 11 | 12 | 13 | 32 => true
  | _ => false
  end.

(** The white space of two bytes: U+00A0 (C2 A0). *)
Definition isWhiteSpace2 (c1 c2 : ascii) : bool :=
  (N_of_ascii c1 =? 194)%N && (N_of_ascii c2 =? 160)%N.

(** The white space and the line terminators of three bytes: U+1680
    (E1 9A 80), U+2000 to U+200A (E2 80 80 to E2 80 8A), U+2028, U+2029 and
    U+202F (E2 80 A8, A9 and AF), U+205F (E2 81 9F), U+3000 (E3 80 80) and
    U+FEFF (EF BB BF). *)
Definition isWhiteSpace3 (c1 c2 c3 : ascii) : bool :=
  let n1 := N_of_ascii c1 in
  let n2 := N_of_ascii c2 in
  let n3 := N_of_ascii c3 in
  ((n1 =? 225) && (n2 =? 154) && (n3 =? 128)
   || (n1 =? 226) && (n2 =? 128)
      && ((128 <=? n3) && (n3 <=? 138)
          || (n3 =? 168) || (n3 =? 169) || (n3 =? 175))
   || (n1 =? 226) && (n2 =? 129) && (n3 =? 159)
   || (n1 =? 227) && (n2 =? 128) && (n3 =? 128)
   || (n1 =? 239) && (n2 =? 187) && (n3 =? 191))%N.

(** [String.prototype.trimStart]: the string without the white space and
    the line terminators it starts with. *)
Fixpoint trimStart (s : string) : string :=
  match s with
  | EmptyString => EmptyString
  | String c1 s1 =>
      if isWhiteSpace c1 then trimStart s1
      else
        match s1 with
        | EmptyString => s
        | String c2 s2 =>
            if isWhiteSpace2 c1 c2 then trimStart s2
            else
              match s2 with
              | EmptyString => s
              | String c3 s3 =>
                  if isWhiteSpace3 c1 c2 c3 then trimStart s3 else s
              end
        end
  end.

(** The string consists of white space and line terminators only. *)
Fixpoint blank (s : string) : bool :=
  match s with
  | EmptyString => true
  | String c1 s1 =>
      if isWhiteSpace c1 then blank s1
      else
        match s1 with
        | EmptyString => false
        | String c2 s2 =>
            if isWhiteSpace2 c1 c2 then blank s2
            else
              match s2 with
              | EmptyString => false
              | String c3 s3 =>
                  if isWhiteSpace3 c1 c2 c3 then blank s3 else false
              end
        end
  end.

(** [String.prototype.trimEnd]: the string up to the white space and the
    line terminators it ends with, that is up to the first place from
    which on it is blank. *)
Fixpoint trimEnd (s : string) : string :=
  match s with
  | EmptyString => EmptyString
  | String c s' => if blank s then EmptyString else String c (trimEnd s')
  end.

(** [String.prototype.trim]. *)
Definition trim (s : string) : string := trimEnd (trimStart s).

(** [s.split(' ').join('_')]: every space becomes an underscore. *)
Fixpoint spacesToUnderscores (s : string) : string :=
  match s with
  | EmptyString => EmptyString
  | String c s' =>
      String (if Ascii.eqb c " "%char then "_"%char else c)
             (spacesToUnderscores s')
  end.

(** [Array.prototype.sort] with the comparator [(a, b) => key a - key b]:
    the stable sort by ascending key. *)
Section Sort.
Context {A : Type} (key : A -> Z).

Fixpoint insertSorted (a : A) (l : list A) : list A :=
  match l with
  | [] => [a]
  | b :: l' =>
      if (key a <=? key b)%Z then a :: l else b :: insertSorted a l'
  end.

Definition sortBy (l : list A) : list A := fold_right insertSorted [] l.
End Sort.

End Js.

(** An insertion-ordered dictionary with string keys. *)
Module JsMap.
Section Map.
Context {V : Type}.

Definition t := list (string * V).

Fixpoint get (k : string) (m : t) : option V :=
  match m with
  | [] => None
  | (k', v) :: m' => if String.eqb k' k then Some v else get k m'
  end.

Definition has (k : string) (m : t) : bool :=
  match get k m with
  | Some _ => true
  | None => false
  end.

(** [m.set(k, v)]: an existing key keeps its place. *)
Fixpoint set (k : string) (v : V) (m : t) : t :=
  match m with
  | [] => [(k, v)]
  | (k', v') :: m' =>
      if String.eqb k' k then (k', v) :: m' else (k', v') :: set k v m'
  end.

Definition keys (m : t) : list string := map fst m.
Definition values (m : t) : list V := map snd m.
End Map.
Arguments t : clear implicits.
End JsMap.

(** An insertion-ordered set of strings. *)
Module JsSet.
Definition t := list string.

Definition has (k : string) (s : t) : bool := existsb (String.eqb k) s.

Definition add (k : string) (s : t) : t := if has k s then s else s ++ [k].

Definition size (s : t) : nat := length s.
End JsSet.

(** ** The credential holder (tokenManager.ts) *)

Module TokenManager.

(** The private field [token : string | null]. *)
Record t := { token : option string }.

Inductive outcome (A : Type) :=
| Return (a : A)
| Throw (message : string).
Arguments Return {A} a.
Arguments Throw {A} message.

(** [new TokenManager()]. *)
Definition create : t := {| token := None |}.

Definition setToken (newToken : string) (_ : t) : t :=
  {| token := Some newToken |}.

Definition getToken (tm : t) : outcome string :=
  match token tm with
  | Some s => if negb (Js.truthy s) then Throw "No token set" else Return s
  | None => Throw "No token set"
  end.

Definition clearToken (_ : t) : t := {| token := None |}.

End TokenManager.

(** ** The data model *)

(** Modelled from the spec: the raw introspection records.  The table
    module imports their type declarations; the shapes are those of the
    specification's external interface, a missing [schema] being [None]. *)

Module TableInfo.
Record t := {
  schema : option string;
  table : string;
  comment : option string;
  auditable : bool;
  revisionEnabled : bool
}.
End TableInfo.

Module ColumnPrecision.
Record t := {
  precision : option Z;
  scale : option Z
}.
End ColumnPrecision.

Module ColumnInfo.
Record t := {
  schema : option string;
  table : string;
  name : string;
  ordinal_position : Z;
  type : string;
  nullable : bool;
  character_maximum_length : option string;
  precision : option ColumnPrecision.t;
  default : option string;
  collation : option string;
  comment : option string
}.
End ColumnInfo.

Module IndexInfo.
Record t := {
  schema : option string;
  table : string;
  name : string;
  unique : bool;
  column : string;
  column_position : Z
}.
End IndexInfo.

Module PrimaryKeyInfo.
Record t := {
  schema : option string;
  table : string;
  column : string
}.
End PrimaryKeyInfo.

Module ViewInfo.
Record t := {
  schema : option string;
  view_name : string
}.
End ViewInfo.

Module DBField.
Record dataType := {
  type_id : string;
  type_name : string
}.
Record t := {
  id : string;
  name : string;
  type : dataType;
  primaryKey : bool;
  unique : bool;
  nullable : bool;
  character_maximum_length : option string;
  precision : option Z;
  scale : option Z;
  default : option string;
  collation : option string;
  createdAt : Z;
  comments : option string
}.
End DBField.

Module DBIndex.
Record t := {
  id : string;
  name : string;
  unique : bool;
  fieldIds : list string;
  createdAt : Z
}.
End DBIndex.

Module DBTable.
Record t := {
  id : string;
  name : string;
  schema : option string;
  x : float;
  y : float;
  fields : list DBField.t;
  indexes : list DBIndex.t;
  color : string;
  isView : bool;
  createdAt : Z;
  width : option float;
  comments : option string;
  hidden : option bool;
  auditable : bool;
  revisionEnabled : bool
}.

(** The assignments [table.x = x; table.y = y]. *)
Definition setPosition (px py : float) (tb : t) : t :=
  {| id := id tb; name := name tb; schema := schema tb;
     x := px; y := py;
     fields := fields tb; indexes := indexes tb; color := color tb;
     isView := isView tb; createdAt := createdAt tb; width := width tb;
     comments := comments tb; hidden := hidden tb;
     auditable := auditable tb; revisionEnabled := revisionEnabled tb |}.
End DBTable.

(** Modelled from the spec: the relationship record of the db-relationship
    module (identity, endpoints' table and field identifiers, and the two
    cardinalities). *)
Module DBRelationship.
Inductive cardinality := one | many.
Record t := {
  id : string;
  sourceTableId : string;
  targetTableId : string;
  sourceFieldId : string;
  targetFieldId : string;
  sourceCardinality : cardinality;
  targetCardinality : cardinality
}.
End DBRelationship.

(** ** The metadata normalizer *)

(** The ambient primitives of [createTablesFromMetadata]: the identifier
    generator, the clock, the random source and the colour picker thread a
    state of the outside world. *)
Module Ambient.
Record t := {
  World : Type;
  generateId : World -> string * World;
  dateNow : World -> Z * World;
  mathRandom : World -> float * World;
  randomColor : World -> string * World;
  greyColor : string
}.
End Ambient.

Module Normalizer.

(** The argument object of [createTablesFromMetadata]. *)
Record metadata := {
  tableInfos : list TableInfo.t;
  columns : list ColumnInfo.t;
  indexes : list IndexInfo.t;
  primaryKeys : list PrimaryKeyInfo.t;
  views : list ViewInfo.t
}.

(** An entry of the accumulator of the index aggregation: the first row of
    the group (the spread [...idx]) and the columns pushed so far, each a
    pair of a name and a position. *)
Record aggregatedIndex := {
  row : IndexInfo.t;
  indexColumns : list (string * Z)
}.

(** The template literal [`${idx.schema}_${idx.name}`]. *)
Definition indexKey (idx : IndexInfo.t) : string :=
  Js.render (IndexInfo.schema idx) ++ "_" ++ IndexInfo.name idx.

(** One step of the [reduce] that aggregates the index rows; [acc] holds
    the own members of the accumulator.  Where the accumulator has no own
    member under the key but inherits one, [acc[key]] is that member: it is
    truthy and has no [columns], so that [acc[key].columns.push] throws a
    [TypeError]. *)
Definition aggregateStep (acc : JsMap.t aggregatedIndex) (idx : IndexInfo.t)
  : Js.completion (JsMap.t aggregatedIndex) :=
  let key := indexKey idx in
  let column := (IndexInfo.column idx, IndexInfo.column_position idx) in
  match JsMap.get key acc with
  | None =>
      if existsb (String.eqb key) Js.objectPrototype
      then Js.Abrupt "TypeError"
      else Js.Normal (JsMap.set key {| row := idx; indexColumns := [column] |} acc)
  | Some entry =>
      Js.Normal
        (JsMap.set key
           {| row := row entry;
              indexColumns := indexColumns entry ++ [column] |}
           acc)
  end.

(** The [reduce], from the accumulator [acc] on. *)
Fixpoint aggregateFrom (acc : JsMap.t aggregatedIndex)
    (tableIndexes : list IndexInfo.t)
  : Js.completion (JsMap.t aggregatedIndex) :=
  match tableIndexes with
  | [] => Js.Normal acc
  | idx :: rest =>
      match aggregateStep acc idx with
      | Js.Normal acc' => aggregateFrom acc' rest
      | Js.Abrupt error => Js.Abrupt error
      end
  end.

Definition aggregate (tableIndexes : list IndexInfo.t)
  : Js.completion (JsMap.t aggregatedIndex) :=
  aggregateFrom [] tableIndexes.

(** The [forEach] that fills [uniqueColumns]. *)
Definition collectUnique (cols : list ColumnInfo.t) : JsMap.t ColumnInfo.t :=
  fold_left
    (fun uniqueColumns col =>
       if negb (JsMap.has (ColumnInfo.name col) uniqueColumns)
       then JsMap.set (ColumnInfo.name col) col uniqueColumns
       else uniqueColumns)
    cols [].

Section Build.
Variable amb : Ambient.t.

(** The schema normalisation of the db-schema module, a parameter here. *)
Variable schemaNameToDomainSchemaName : option string -> option string.

Variable md : metadata.

(** Computations that use the ambient primitives. *)
Definition M (A : Type) : Type := Ambient.World amb -> A * Ambient.World amb.

Definition ret {A : Type} (a : A) : M A := fun w => (a, w).

Definition bind {A B : Type} (m : M A) (k : A -> M B) : M B :=
  fun w => let (a, w') := m w in k a w'.

Notation "'let*' x ':=' m 'in' k" :=
  (bind m (fun x => k)) (at level 10, x name, k at level 200).

(** [array.map(f)] for an effectful [f]: left to right. *)
Fixpoint mapM {A B : Type} (f : A -> M B) (l : list A) : M (list B) :=
  match l with
  | [] => ret []
  | a :: l' =>
      let* b := f a in
      let* bs := mapM f l' in
      ret (b :: bs)
  end.

(** Computations that use the ambient primitives and may throw. *)
Definition E (A : Type) : Type :=
  Ambient.World amb -> Js.completion (A * Ambient.World amb).

(** [array.map(f)] for an [f] that may throw: the first throw ends it. *)
Fixpoint mapE {A B : Type} (f : A -> E B) (l : list A) : E (list B) :=
  fun w =>
    match l with
    | [] => Js.Normal ([], w)
    | a :: l' =>
        match f a w with
        | Js.Normal (b, w1) =>
            match mapE f l' w1 with
            | Js.Normal (bs, w2) => Js.Normal (b :: bs, w2)
            | Js.Abrupt error => Js.Abrupt error
            end
        | Js.Abrupt error => Js.Abrupt error
        end
    end.

Section Table.
Variable tableInfo : TableInfo.t.

Definition tableSchema : option string :=
  schemaNameToDomainSchemaName (TableInfo.schema tableInfo).

Definition matchingColumns : list ColumnInfo.t :=
  List.filter
    (fun col =>
       Js.optEqb (schemaNameToDomainSchemaName (ColumnInfo.schema col))
                 tableSchema
       && String.eqb (ColumnInfo.table col) (TableInfo.table tableInfo))
    (columns md).

Definition uniqueColumns : JsMap.t ColumnInfo.t :=
  collectUnique matchingColumns.

Definition sortedColumns : list ColumnInfo.t :=
  Js.sortBy ColumnInfo.ordinal_position (JsMap.values uniqueColumns).

Definition tablePrimaryKeys : list string :=
  map (fun pk => Js.trim (PrimaryKeyInfo.column pk))
    (List.filter
       (fun pk =>
          String.eqb (PrimaryKeyInfo.table pk) (TableInfo.table tableInfo)
          && Js.optEqb
               (schemaNameToDomainSchemaName (PrimaryKeyInfo.schema pk))
               tableSchema)
       (primaryKeys md)).

Definition tableIndexes : list IndexInfo.t :=
  List.filter
    (fun idx =>
       let indexSchema :=
         schemaNameToDomainSchemaName (IndexInfo.schema idx) in
       String.eqb (IndexInfo.table idx) (TableInfo.table tableInfo)
       && Js.optEqb indexSchema tableSchema)
    (indexes md).

(** The [reduce] over the index rows of the table; it may throw. *)
Definition aggregatedIndexes : Js.completion (JsMap.t aggregatedIndex) :=
  aggregate tableIndexes.

(** What follows the [reduce], with its result [aggregated]. *)
Section Aggregated.
Variable aggregated : JsMap.t aggregatedIndex.

(** The [some(...)] that decides a field's [unique] flag. *)
Definition isUniqueColumn (colName : string) : bool :=
  existsb
    (fun idx =>
       IndexInfo.unique (row idx)
       && (length (indexColumns idx) =? 1)%nat
       && match indexColumns idx with
          | c :: _ => String.eqb (fst c) colName
          | [] => false
          end)
    (JsMap.values aggregated).

Definition buildField (col : ColumnInfo.t) : M DBField.t :=
  let* id := Ambient.generateId amb in
  let* now := Ambient.dateNow amb in
  ret {| DBField.id := id;
         DBField.name := ColumnInfo.name col;
         DBField.type :=
           {| DBField.type_id :=
                Js.spacesToUnderscores (ColumnInfo.type col);
              DBField.type_name := ColumnInfo.type col |};
         DBField.primaryKey :=
           existsb (String.eqb (ColumnInfo.name col)) tablePrimaryKeys;
         DBField.unique := isUniqueColumn (ColumnInfo.name col);
         DBField.nullable := ColumnInfo.nullable col;
         DBField.character_maximum_length :=
           match ColumnInfo.character_maximum_length col with
           | Some len =>
               if Js.truthy len && negb (String.eqb len "null")
               then Some len else None
           | None => None
           end;
         DBField.precision :=
           match ColumnInfo.precision col with
           | Some p =>
               if Js.truthyNum (ColumnPrecision.precision p)
               then ColumnPrecision.precision p else None
           | None => None
           end;
         DBField.scale :=
           match ColumnInfo.precision col with
           | Some p =>
               if Js.truthyNum (ColumnPrecision.scale p)
               then ColumnPrecision.scale p else None
           | None => None
           end;
         DBField.default := Js.orUndefined (ColumnInfo.default col);
         DBField.collation := Js.orUndefined (ColumnInfo.collation col);
         DBField.createdAt := now;
         DBField.comments := Js.orUndefined (ColumnInfo.comment col) |}.

(** [fields.find((f) => f.name === c.name)?.id], kept when defined. *)
Definition resolveFieldIds (fields : list DBField.t)
    (cols : list (string * Z)) : list string :=
  flat_map
    (fun c =>
       match find (fun f => String.eqb (DBField.name f) (fst c)) fields with
       | Some f => [DBField.id f]
       | None => []
       end)
    cols.

Definition buildIndex (fields : list DBField.t) (idx : aggregatedIndex)
  : M DBIndex.t :=
  let* id := Ambient.generateId amb in
  let* now := Ambient.dateNow amb in
  ret {| DBIndex.id := id;
         DBIndex.name := IndexInfo.name (row idx);
         DBIndex.unique := IndexInfo.unique (row idx);
         DBIndex.fieldIds :=
           resolveFieldIds fields (Js.sortBy snd (indexColumns idx));
         DBIndex.createdAt := now |}.

Definition tableIsView : bool :=
  existsb
    (fun view =>
       Js.optEqb (schemaNameToDomainSchemaName (ViewInfo.schema view))
                 tableSchema
       && String.eqb (ViewInfo.view_name view) (TableInfo.table tableInfo))
    (views md).

(** The body of the [tableInfos.map] callback after the [reduce]. *)
Definition tableFrom : M DBTable.t :=
  let* fields := mapM buildField sortedColumns in
  let* dbIndexes :=
    mapM (buildIndex fields) (JsMap.values aggregated) in
  let isView := tableIsView in
  let* id := Ambient.generateId amb in
  let* rx := Ambient.mathRandom amb in
  let* ry := Ambient.mathRandom amb in
  let* color :=
    if isView then ret (Ambient.greyColor amb)
    else Ambient.randomColor amb in
  let* now := Ambient.dateNow amb in
  ret {| DBTable.id := id;
         DBTable.name := TableInfo.table tableInfo;
         DBTable.schema := tableSchema;
         DBTable.x := (rx * 1000)%float;
         DBTable.y := (ry * 800)%float;
         DBTable.fields := fields;
         DBTable.indexes := dbIndexes;
         DBTable.color := color;
         DBTable.isView := isView;
         DBTable.createdAt := now;
         DBTable.width := None;
         DBTable.comments := Js.orUndefined (TableInfo.comment tableInfo);
         DBTable.hidden := None;
         DBTable.auditable := TableInfo.auditable tableInfo;
         DBTable.revisionEnabled := TableInfo.revisionEnabled tableInfo |}.

End Aggregated.

(** The body of the [tableInfos.map] callback: what precedes the [reduce]
    is pure, and a throw of the [reduce] ends the call before it draws an
    identifier. *)
Definition buildTable : E DBTable.t :=
  fun w =>
    match aggregatedIndexes with
    | Js.Normal aggregated => Js.Normal (tableFrom aggregated w)
    | Js.Abrupt error => Js.Abrupt error
    end.

End Table.

Definition createTablesFromMetadata : E (list DBTable.t) :=
  mapE buildTable (tableInfos md).

End Build.

(** *** The specification's words, for comparison with the code *)

(** The columns deduplicated by name, the first occurrence kept; [seen] are
    the names met so far. *)
Fixpoint dedupByName (seen : list string) (cols : list ColumnInfo.t)
  : list ColumnInfo.t :=
  match cols with
  | [] => []
  | col :: rest =>
      if existsb (String.eqb (ColumnInfo.name col)) seen
      then dedupByName seen rest
      else col :: dedupByName (ColumnInfo.name col :: seen) rest
  end.

(** [col] is the first column of its name in [cols]. *)
Definition firstOfItsName (col : ColumnInfo.t) (cols : list ColumnInfo.t)
  : Prop :=
  exists before after,
    cols = before ++ col :: after
    /\ ~ In (ColumnInfo.name col) (map ColumnInfo.name before).

(** The members of a field that are read off its column. *)
Definition builtFrom (col : ColumnInfo.t) (f : DBField.t) : Prop :=
  DBField.name f = ColumnInfo.name col
  /\ DBField.type_name (DBField.type f) = ColumnInfo.type col
  /\ DBField.nullable f = ColumnInfo.nullable col.



Definition columnOf (r : IndexInfo.t) : string * Z :=
  (IndexInfo.column r, IndexInfo.column_position r).

(** The rows of [rows] whose aggregation key is that of [r]. *)
Definition keyGroup (r : IndexInfo.t) (rows : list IndexInfo.t)
  : list IndexInfo.t :=
  List.filter (fun r' => String.eqb (indexKey r') (indexKey r)) rows.

(** The aggregated index of a group of rows: headed by the first row, with
    one column for every row. *)
Definition groupEntry (rows : list IndexInfo.t) : option aggregatedIndex :=
  match rows with
  | [] => None
  | r :: rest =>
      Some {| row := r; indexColumns := map columnOf (r :: rest) |}
  end.


(** Some index row of a table of a descriptor has, as its aggregation key
    [`${schema}_${name}`], the name of a member that the accumulator
    inherits. *)
Definition hasInheritedKey (normalise : option string -> option string)
    (md : metadata) : Prop :=
  exists ti r,
    In ti (tableInfos md)
    /\ In r (indexes md)
    /\ IndexInfo.table r = TableInfo.table ti
    /\ normalise (IndexInfo.schema r) = normalise (TableInfo.schema ti)
    /\ In (Js.render (IndexInfo.schema r) ++ "_" ++ IndexInfo.name r)%string
          Js.objectPrototype.


(** Modelled from the spec: [schemaNameToDomainSchemaName] of the db-schema
    module maps the absent and the empty schema name to the one absent
    schema and keeps every other name. *)
Definition specSchemaName (schema : option string) : option string :=
  Js.orUndefined schema.

(** A deterministic world for examples: identifiers are handed out from a
    list, the clock and the random source are constant. *)
Definition scriptedWorld : Ambient.t :=
  {| Ambient.World := list string;
     Ambient.generateId :=
       fun w => match w with
                | [] => ("", [])
                | i :: w' => (i, w')
                end;
     Ambient.dateNow := fun w => (0%Z, w);
     Ambient.mathRandom := fun w => (0.5%float, w);
     Ambient.randomColor := fun w => ("#4dee8a", w);
     Ambient.greyColor := "#b0b0b0" |}.

(** *** Sample metadata: one table [t] of the schema [public] *)

Definition sampleTable (comment : option string) : TableInfo.t :=
  {| TableInfo.schema := Some "public"; TableInfo.table := "t";
     TableInfo.comment := comment;
     TableInfo.auditable := true; TableInfo.revisionEnabled := false |}.

Definition sampleColumn (name : string) (ordinal : Z) : ColumnInfo.t :=
  {| ColumnInfo.schema := Some "public"; ColumnInfo.table := "t";
     ColumnInfo.name := name; ColumnInfo.ordinal_position := ordinal;
     ColumnInfo.type := "integer"; ColumnInfo.nullable := false;
     ColumnInfo.character_maximum_length := None;
     ColumnInfo.precision := None; ColumnInfo.default := None;
     ColumnInfo.collation := None; ColumnInfo.comment := None |}.

Definition sampleIndex (name : string) (unique : bool) (column : string)
    (position : Z) : IndexInfo.t :=
  {| IndexInfo.schema := Some "public"; IndexInfo.table := "t";
     IndexInfo.name := name; IndexInfo.unique := unique;
     IndexInfo.column := column; IndexInfo.column_position := position |}.

Definition samplePrimaryKey (column : string) : PrimaryKeyInfo.t :=
  {| PrimaryKeyInfo.schema := Some "public"; PrimaryKeyInfo.table := "t";
     PrimaryKeyInfo.column := column |}.

Definition sampleMetadata (comment : option string)
    (cols : list ColumnInfo.t) (idxs : list IndexInfo.t)
    (pks : list PrimaryKeyInfo.t) : metadata :=
  {| tableInfos := [sampleTable comment]; columns := cols; indexes := idxs;
     primaryKeys := pks; views := [] |}.

(** The no-break space U+00A0 and the ideographic space U+3000. *)
Definition nbsp : string :=
  String (ascii_of_nat 194) (String (ascii_of_nat 160) "").

Definition ideographicSpace : string :=
  String (ascii_of_nat 227)
    (String (ascii_of_nat 128) (String (ascii_of_nat 128) "")).


(** The tables built from sample metadata in the scripted world; none
    when the call throws. *)
Definition sampleRun (md : metadata) : list DBTable.t :=
  match
    createTablesFromMetadata scriptedWorld specSchemaName md
      ["id1"; "id2"; "id3"; "id4"; "id5"; "id6"; "id7"; "id8"]
  with
  | Js.Normal (tables, _) => tables
  | Js.Abrupt _ => []
  end.


(** The names and the two flags of the fields of the first table built. *)
Definition sampleFields (md : metadata) : list (string * bool * bool) :=
  match sampleRun md with
  | [] => []
  | tb :: _ =>
      map (fun f => (DBField.name f, DBField.primaryKey f, DBField.unique f))
        (DBTable.fields tb)
  end.

End Normalizer.

(** ** The layout engine *)

Module Layout.

Local Open Scope float_scope.

(** *** The object store

    Table and relationship objects are held by reference: an array of the
    program is a list of references into the store, and an assignment to a
    member of an object updates the store at the object's reference. *)

Abbreviation ref := nat.

Record store := {
  tableObjects : list DBTable.t;
  relationshipObjects : list DBRelationship.t
}.

Definition voidTable : DBTable.t :=
  {| DBTable.id := ""; DBTable.name := ""; DBTable.schema := None;
     DBTable.x := 0; DBTable.y := 0;
     DBTable.fields := []; DBTable.indexes := []; DBTable.color := "";
     DBTable.isView := false; DBTable.createdAt := 0%Z;
     DBTable.width := None; DBTable.comments := None;
     DBTable.hidden := None;
     DBTable.auditable := false; DBTable.revisionEnabled := false |}.

Definition voidRelationship : DBRelationship.t :=
  {| DBRelationship.id := "";
     DBRelationship.sourceTableId := "";
     DBRelationship.targetTableId := "";
     DBRelationship.sourceFieldId := "";
     DBRelationship.targetFieldId := "";
     DBRelationship.sourceCardinality := DBRelationship.one;
     DBRelationship.targetCardinality := DBRelationship.one |}.

#[global] Instance table_inhabited : Inhabited DBTable.t := populate voidTable.

#[global] Instance relationship_inhabited : Inhabited DBRelationship.t :=
  populate voidRelationship.

(** Modelled from the spec: [deepCopy] of the utils module, on an array of
    tables.  Every element is copied into a fresh object, equal to the
    original member by member; the result is the array of the fresh
    objects. *)
Definition deepCopyTables (arr : list ref) (s : store) : list ref * store :=
  (seq (length (tableObjects s)) (length arr),
   {| tableObjects :=
        tableObjects s ++ map (fun a => tableObjects s !!! a) arr;
      relationshipObjects := relationshipObjects s |}).

(** Modelled from the spec: [deepCopy] on an array of relationships. *)
Definition deepCopyRelationships (arr : list ref) (s : store)
  : list ref * store :=
  (seq (length (relationshipObjects s)) (length arr),
   {| tableObjects := tableObjects s;
      relationshipObjects :=
        relationshipObjects s
        ++ map (fun a => relationshipObjects s !!! a) arr |}).

(** *** Geometry *)

Definition tableWidth : float := 200.
Definition tableHeight : float := 300.
Definition gapX : float := 100.
Definition gapY : float := 100.
Definition startX : float := 100.
Definition startY : float := 100.

(** [Math.PI]. *)
Definition PI : float := 0x1.921fb54442d18p+1.

(** [Math.max] on two numbers that are not NaN. *)
Definition max (a b : float) : float := if a <? b then b else a.

(** A non-negative integer as a number. *)
Definition numberOfNat (n : nat) : float :=
  of_uint63 (Uint63.of_Z (Z.of_nat n)).

Definition maxIterations : nat := 1000.

Record position := { px : float; py : float }.

(** *** The state of the closures

    [placements] is auxiliary: it logs, for every table that
    [positionTable] places, the base point it was called with, the value of
    [iterations] when the spiral search returned, and the point chosen. *)

Record placement := {
  placedTable : string;
  baseX : float;
  baseY : float;
  iterations : nat;
  chosen : position
}.

Record state := {
  objects : list DBTable.t;
  positionedTables : JsSet.t;
  tablePositions : JsMap.t position;
  placements : list placement
}.

(** A [forEach] whose callback may run out of fuel. *)
Fixpoint forEachM {A S : Type} (f : S -> A -> option S) (l : list A) (s : S)
  : option S :=
  match l with
  | [] => Some s
  | a :: l' =>
      match f s a with
      | Some s' => forEachM f l' s'
      | None => None
      end
  end.

(** One turn of the [forEach] that fills the map of table connections. *)
Definition connect (tableConnections : JsMap.t JsSet.t)
    (rel : DBRelationship.t) : JsMap.t JsSet.t :=
  let source := DBRelationship.sourceTableId rel in
  let target := DBRelationship.targetTableId rel in
  let m1 :=
    if negb (JsMap.has source tableConnections)
    then JsMap.set source [] tableConnections else tableConnections in
  let m2 := if negb (JsMap.has target m1) then JsMap.set target [] m1 else m1 in
  let m3 :=
    JsMap.set source (JsSet.add target (default [] (JsMap.get source m2))) m2 in
  JsMap.set target (JsSet.add source (default [] (JsMap.get target m3))) m3.

Definition connections (filteredRelationships : list DBRelationship.t)
  : JsMap.t JsSet.t :=
  fold_left connect filteredRelationships [].

(** [tableConnections.get(id)?.size || 0]. *)
Definition connectionCount (tableConnections : JsMap.t JsSet.t)
    (id : string) : nat :=
  match JsMap.get id tableConnections with
  | Some s => JsSet.size s
  | None => 0
  end.

Section Engine.

(** [Math.cos] and [Math.sin]. *)
Variables cos sin : float -> float.

(** The deep copy [tables] and the connection map, fixed while tables are
    placed. *)
Variable tables : list ref.
Variable tableConnections : JsMap.t JsSet.t.

Definition isOverlapping (tablePositions : JsMap.t position)
    (x y : float) (currentTableId : string) : bool :=
  existsb
    (fun entry =>
       let '(tableId, pos) := entry in
       if String.eqb tableId currentTableId then false
       else (abs (x - px pos) <? tableWidth + gapX)
            && (abs (y - py pos) <? tableHeight + gapY))
    tablePositions.

Definition spiralStep : float := max tableWidth tableHeight / 2.

(** The [while] loop of [findNonOverlappingPosition], [remaining] being
    [maxIterations - iterations]; the result is the final value of
    [iterations] and the point returned. *)
Fixpoint spiral (tablePositions : JsMap.t position)
    (baseX baseY : float) (tableId : string)
    (remaining iterations : nat) (angle radius : float) : nat * position :=
  match remaining with
  | O =>
      (iterations,
       {| px := baseX + radius * cos angle;
          py := baseY + radius * sin angle |})
  | S remaining' =>
      let x := baseX + radius * cos angle in
      let y := baseY + radius * sin angle in
      if negb (isOverlapping tablePositions x y tableId)
      then (iterations, {| px := x; py := y |})
      else
        let angle' := angle + PI / 4 in
        if 2 * PI <=? angle'
        then spiral tablePositions baseX baseY tableId
               remaining' (S iterations) 0 (radius + spiralStep)
        else spiral tablePositions baseX baseY tableId
               remaining' (S iterations) angle' radius
  end.

Definition findNonOverlappingPosition (tablePositions : JsMap.t position)
    (baseX baseY : float) (tableId : string) : position :=
  snd (spiral tablePositions baseX baseY tableId maxIterations 0 0 0).

(** [tables.find((t) => t.id === id)]. *)
Definition findTable (objects : list DBTable.t) (id : string) : option ref :=
  find (fun t => String.eqb (DBTable.id (objects !!! t)) id) tables.

(** The four updates of [positionTable] that record the point [found] for
    a table not yet placed, and the entry of the log. *)
Definition recordPosition (table : ref) (baseX baseY : float)
    (found : position) (st : state) : state :=
  let tableId := DBTable.id (objects st !!! table) in
  let x := px found in
  let y := py found in
  {| objects :=
       <[table := DBTable.setPosition x y (objects st !!! table)]>
         (objects st);
     positionedTables := JsSet.add tableId (positionedTables st);
     tablePositions :=
       JsMap.set tableId {| px := x; py := y |} (tablePositions st);
     placements :=
       placements st
       ++ [{| placedTable := tableId; baseX := baseX; baseY := baseY;
              iterations :=
                fst (spiral (tablePositions st) baseX baseY tableId
                       maxIterations 0 0 0);
              chosen := {| px := x; py := y |} |}] |}.

(** The callback of [connectedTables.forEach], around the point [(x, y)];
    [recur] is the recursive call of [positionTable], and the accumulator
    holds the state and the variable [angle]. *)
Definition placeConnected
    (recur : ref -> float -> float -> state -> option state)
    (x y angleStep : float) (acc : state * float)
    (connectedTableId : string) : option (state * float) :=
  let '(st, angle) := acc in
  if negb (JsSet.has connectedTableId (positionedTables st))
  then
    match findTable (objects st) connectedTableId with
    | Some connectedTable =>
        let newX := x + cos angle * (tableWidth + gapX * 2) in
        let newY := y + sin angle * (tableHeight + gapY * 2) in
        match recur connectedTable newX newY st with
        | Some st' => Some (st', angle + angleStep)
        | None => None
        end
    | None => Some acc
    end
  else Some acc.

(** [positionTable]; the recursion is bounded by [fuel], and [None] means
    that the fuel did not suffice. *)
Fixpoint positionTable (fuel : nat) (table : ref) (baseX baseY : float)
    (st : state) : option state :=
  match fuel with
  | O => None
  | S fuel' =>
      let tableId := DBTable.id (objects st !!! table) in
      if JsSet.has tableId (positionedTables st) then Some st
      else
        let found :=
          findNonOverlappingPosition (tablePositions st) baseX baseY tableId in
        let x := px found in
        let y := py found in
        let st1 := recordPosition table baseX baseY found st in
        let connectedTables :=
          default [] (JsMap.get tableId tableConnections) in
        let angleStep :=
          2 * PI / numberOfNat (JsSet.size connectedTables) in
        option_map fst
          (forEachM (placeConnected (positionTable fuel') x y angleStep)
             connectedTables (st1, 0))
  end.

(** The grid cell of the table at [index] of the sorted tables. *)
Definition seedX (index : nat) : float :=
  let col := numberOfNat (index mod 6) in
  startX + col * (tableWidth + gapX * 2).

Definition seedY (index : nat) : float :=
  let row := numberOfNat (index / 6) in
  startY + row * (tableHeight + gapY * 2).

(** [sortedTables.forEach((table, index) => ...)], from [index] on. *)
Fixpoint seedTables (fuel : nat) (index : nat) (sortedTables : list ref)
    (st : state) : option state :=
  match sortedTables with
  | [] => Some st
  | table :: rest =>
      let tableId := DBTable.id (objects st !!! table) in
      let next :=
        if negb (JsSet.has tableId (positionedTables st))
        then positionTable fuel table (seedX index) (seedY index) st
        else Some st in
      match next with
      | Some st' => seedTables fuel (S index) rest st'
      | None => None
      end
  end.

(** The final [tables.forEach] that applies the positions. *)
Definition applyPositions (tablePositions : JsMap.t position)
    (objects : list DBTable.t) : list DBTable.t :=
  fold_left
    (fun objs table =>
       match JsMap.get (DBTable.id (objs !!! table)) tablePositions with
       | Some position =>
           <[table := DBTable.setPosition (px position) (py position)
                        (objs !!! table)]> objs
       | None => objs
       end)
    tables objects.

End Engine.

Section Adjust.
Variables cos sin : float -> float.

(** The relationships between tables of the input set. *)
Definition filterRelationships (objs : list DBTable.t) (tables : list ref)
    (relationships : list DBRelationship.t) : list DBRelationship.t :=
  List.filter
    (fun rel =>
       existsb
         (fun t =>
            String.eqb (DBTable.id (objs !!! t))
                       (DBRelationship.sourceTableId rel))
         tables
       && existsb
            (fun t =>
               String.eqb (DBTable.id (objs !!! t))
                          (DBRelationship.targetTableId rel))
            tables)
    relationships.

(** [[...tables].sort(...)]: most connections first. *)
Definition sortTables (objs : list DBTable.t)
    (tableConnections : JsMap.t JsSet.t) (tables : list ref) : list ref :=
  Js.sortBy
    (fun t =>
       (- Z.of_nat (connectionCount tableConnections
                      (DBTable.id (objs !!! t))))%Z)
    tables.

(** What [adjustTablePositions] computes before it places a table: the deep
    copies [tables] and [relationships] (in the store [workStore]), the
    map of table connections, and the sorted tables. *)
Record preparation := {
  tables : list ref;
  workStore : store;
  tableConnections : JsMap.t JsSet.t;
  sortedTables : list ref
}.

Definition prepare (inputTables inputRelationships : list ref) (s : store)
  : preparation :=
  let '(tables, s1) := deepCopyTables inputTables s in
  let '(relationships, s2) := deepCopyRelationships inputRelationships s1 in
  let objs := tableObjects s2 in
  let filteredRelationships :=
    filterRelationships objs tables
      (map (fun r => relationshipObjects s2 !!! r) relationships) in
  let tableConnections := connections filteredRelationships in
  {| tables := tables; workStore := s2;
     tableConnections := tableConnections;
     sortedTables := sortTables objs tableConnections tables |}.

(** Nothing is placed at first. *)
Definition initialState (p : preparation) : state :=
  {| objects := tableObjects (workStore p); positionedTables := [];
     tablePositions := []; placements := [] |}.

(** The state after the loop over the sorted tables.  The recursion of
    [positionTable] gets as much fuel as there are tables, and one more. *)
Definition place (inputTables inputRelationships : list ref) (s : store)
  : option state :=
  let p := prepare inputTables inputRelationships s in
  seedTables cos sin (tables p) (tableConnections p)
    (S (length (tables p))) 0 (sortedTables p) (initialState p).

Definition adjustTablePositions (inputTables inputRelationships : list ref)
    (s : store) : option (list ref * store) :=
  let p := prepare inputTables inputRelationships s in
  match place inputTables inputRelationships s with
  | Some st =>
      Some (tables p,
            {| tableObjects :=
                 applyPositions (tables p) (tablePositions st)
                   (objects st);
               relationshipObjects := relationshipObjects (workStore p) |})
  | None => None
  end.

End Adjust.

(** *** Notions used by the properties *)

(** The entry of [tablePositions] that a placement makes. *)
Definition entryOf (p : placement) : string * position :=
  (placedTable p, chosen p).

(** The spiral search ran into its cap when it placed the table [id]. *)
Definition capExhausted (log : list placement) (id : string) : bool :=
  existsb
    (fun p =>
       String.eqb (placedTable p) id && (maxIterations <=? iterations p)%nat)
    log.

(** The overlap test of [isOverlapping], on two tables. *)
Definition overlap (a b : DBTable.t) : bool :=
  (abs (DBTable.x a - DBTable.x b) <? tableWidth + gapX)
  && (abs (DBTable.y a - DBTable.y b) <? tableHeight + gapY).

(** One turn of the spiral: the angle and the radius of the next point. *)
Definition advance (polar : float * float) : float * float :=
  let '(angle, radius) := polar in
  let angle' := angle + PI / 4 in
  if 2 * PI <=? angle' then (0, radius + max tableWidth tableHeight / 2)
  else (angle', radius).

(** The angle and the radius of the [n]-th point of the spiral. *)
Fixpoint spiralPolar (n : nat) : float * float :=
  match n with
  | O => (0, 0)
  | S n' => advance (spiralPolar n')
  end.

(** The point at an angle and a radius around a base point. *)
Definition pointAt (cos sin : float -> float) (baseX baseY : float)
    (polar : float * float) : position :=
  {| px := baseX + snd polar * cos (fst polar);
     py := baseY + snd polar * sin (fst polar) |}.

(** Sample values of [Math.cos] and [Math.sin] at the eight angles that the
    spiral visits, as a binary64 libm returns them; the examples use no
    other angle. *)
Definition angles : list (float * (float * float)) :=
  [ (0, (1, 0));
    (0x1.921fb54442d18p-1, (0x1.6a09e667f3bcdp-1, 0x1.6a09e667f3bccp-1));
    (0x1.921fb54442d18p+0, (0x1.1a62633145c07p-54, 1));
    (0x1.2d97c7f3321d2p+1, (-0x1.6a09e667f3bccp-1, 0x1.6a09e667f3bcdp-1));
    (0x1.921fb54442d18p+1, (-1, 0x1.1a62633145c07p-53));
    (0x1.f6a7a2955385ep+1, (-0x1.6a09e667f3bcep-1, -0x1.6a09e667f3bccp-1));
    (0x1.2d97c7f3321d2p+2, (-0x1.a79394c9e8a0ap-53, -1));
    (0x1.5fdbbe9bba775p+2, (0x1.6a09e667f3bcbp-1, -0x1.6a09e667f3bcep-1)) ].

Definition tabulated (a : float) : float * float :=
  match find (fun e => fst e =? a) angles with
  | Some e => snd e
  | None => (nan, nan)
  end.

Definition sampleCos (a : float) : float := fst (tabulated a).
Definition sampleSin (a : float) : float := snd (tabulated a).

(** *** Sample stores *)

Definition sampleTable (id : string) : DBTable.t :=
  {| DBTable.id := id; DBTable.name := id; DBTable.schema := None;
     DBTable.x := 7; DBTable.y := 9;
     DBTable.fields := []; DBTable.indexes := []; DBTable.color := "#b0b0b0";
     DBTable.isView := false; DBTable.createdAt := 0%Z;
     DBTable.width := None; DBTable.comments := None;
     DBTable.hidden := None;
     DBTable.auditable := false; DBTable.revisionEnabled := false |}.

Definition sampleRelationship (source target : string) : DBRelationship.t :=
  {| DBRelationship.id := (source ++ target)%string;
     DBRelationship.sourceTableId := source;
     DBRelationship.targetTableId := target;
     DBRelationship.sourceFieldId := "";
     DBRelationship.targetFieldId := "";
     DBRelationship.sourceCardinality := DBRelationship.one;
     DBRelationship.targetCardinality := DBRelationship.many |}.

(** The hub [a] with the leaves [b] and [c], and the isolated table [d];
    the caller's array of tables is [[0; 1; 2; 3]], that of relationships
    [[0; 1]]. *)
Definition sampleStore : store :=
  {| tableObjects :=
       [sampleTable "b"; sampleTable "a"; sampleTable "c"; sampleTable "d"];
     relationshipObjects :=
       [sampleRelationship "a" "b"; sampleRelationship "a" "c"] |}.

(** Two tables and no relationship. *)
Definition isolatedStore : store :=
  {| tableObjects := [sampleTable "a"; sampleTable "b"];
     relationshipObjects := [] |}.

(** A position map that holds a table at every point that the spiral
    around the origin tests, under identifiers of two characters. *)
Definition crowdId (n : nat) : string :=
  String (ascii_of_nat (n / 128)) (String (ascii_of_nat (n mod 128)) "").

Definition crowd : JsMap.t position :=
  map (fun n => (crowdId n, pointAt sampleCos sampleSin 0 0 (spiralPolar n)))
      (seq 0 maxIterations).

End Layout.

(** ** Notions of the proofs *)

Module Notions.

(** The order of the keys of a sort. *)
Definition keyLe {A : Type} (key : A -> Z) (a b : A) : Prop :=
  (key a <= key b)%Z.

(** One step of the aggregation of the index rows when no inherited member
    is met: a row joins the entry of its key, or opens one. *)
Definition accumulateStep (acc : JsMap.t Normalizer.aggregatedIndex)
    (idx : IndexInfo.t) : JsMap.t Normalizer.aggregatedIndex :=
  let key := Normalizer.indexKey idx in
  let column := (IndexInfo.column idx, IndexInfo.column_position idx) in
  match JsMap.get key acc with
  | None =>
      JsMap.set key
        {| Normalizer.row := idx; Normalizer.indexColumns := [column] |} acc
  | Some entry =>
      JsMap.set key
        {| Normalizer.row := Normalizer.row entry;
           Normalizer.indexColumns :=
             Normalizer.indexColumns entry ++ [column] |}
        acc
  end.

Definition accumulated (rows : list IndexInfo.t)
  : JsMap.t Normalizer.aggregatedIndex :=
  fold_left accumulateStep rows [].

(** The key of the row is the name of an inherited member. *)
Definition inheritedKey (idx : IndexInfo.t) : bool :=
  existsb (String.eqb (Normalizer.indexKey idx)) Js.objectPrototype.

(** What a table owes to its descriptor, whatever the world. *)
Definition builtTable (amb : Ambient.t)
    (normalise : option string -> option string) (md : Normalizer.metadata)
    (ti : TableInfo.t) (tb : DBTable.t) : Prop :=
  let aggregated := accumulated (Normalizer.tableIndexes normalise md ti) in
  DBTable.name tb = TableInfo.table ti
  /\ DBTable.schema tb = normalise (TableInfo.schema ti)
  /\ DBTable.comments tb = Js.orUndefined (TableInfo.comment ti)
  /\ DBTable.auditable tb = TableInfo.auditable ti
  /\ DBTable.revisionEnabled tb = TableInfo.revisionEnabled ti
  /\ Forall2
       (fun col f =>
          exists w,
            f = fst (Normalizer.buildField amb normalise md ti aggregated
                       col w))
       (Normalizer.sortedColumns normalise md ti) (DBTable.fields tb)
  /\ Forall2
       (fun e ix =>
          exists w,
            ix = fst (Normalizer.buildIndex amb (DBTable.fields tb) e w))
       (JsMap.values aggregated) (DBTable.indexes tb)
  /\ (exists w,
        tb = fst (Normalizer.tableFrom amb normalise md ti aggregated w)).

(** The point is taken by another table than [tableId]. *)
Definition taken (tablePositions : JsMap.t Layout.position)
    (tableId : string) (p : Layout.position) : bool :=
  Layout.isOverlapping tablePositions (Layout.px p) (Layout.py p) tableId.

(** A table without its position. *)
Definition eraseXY (tb : DBTable.t) : DBTable.t :=
  DBTable.setPosition 0 0 tb.

(** A table with the position that the map holds for its identifier. *)
Definition withPosition (tablePositions : JsMap.t Layout.position)
    (tb : DBTable.t) : DBTable.t :=
  match JsMap.get (DBTable.id tb) tablePositions with
  | Some pos => DBTable.setPosition (Layout.px pos) (Layout.py pos) tb
  | None => tb
  end.

Section Engine.
Variables cos sin : float -> float.
Variable tables : list Layout.ref.

(** Every entry of the log was computed by the spiral search from the
    positions recorded before it. *)
Definition consistent (log : list Layout.placement) : Prop :=
  forall before p after,
    log = before ++ p :: after ->
    let found :=
      Layout.spiral cos sin (map Layout.entryOf before)
        (Layout.baseX p) (Layout.baseY p) (Layout.placedTable p)
        Layout.maxIterations 0 0%float 0%float in
    Layout.iterations p = fst found /\ Layout.chosen p = snd found.

(** The position map and the placed set are the log, read in order, and no
    table is logged twice. *)
Definition logged (st : Layout.state) : Prop :=
  Layout.tablePositions st = map Layout.entryOf (Layout.placements st)
  /\ Layout.positionedTables st
     = map Layout.placedTable (Layout.placements st)
  /\ NoDup (map Layout.placedTable (Layout.placements st))
  /\ consistent (Layout.placements st).

(** What a run of [positionTable] may change. *)
Definition extends (st st' : Layout.state) : Prop :=
  map eraseXY (Layout.objects st') = map eraseXY (Layout.objects st)
  /\ (forall a, ~ In a tables ->
                Layout.objects st' !! a = Layout.objects st !! a)
  /\ (exists more,
        Layout.placements st' = Layout.placements st ++ more)
  /\ (forall id, In id (Layout.positionedTables st) ->
                 In id (Layout.positionedTables st'))
  /\ (logged st -> logged st').

(** The tables whose identifier is not placed yet. *)
Definition unplaced (st : Layout.state) : nat :=
  length
    (List.filter
       (fun t =>
          negb (JsSet.has (DBTable.id (Layout.objects st !!! t))
                  (Layout.positionedTables st)))
       tables).

End Engine.

End Notions.

(** ** More of JavaScript's strings *)

Module JsText.

(** The UTF-16 code units of a string, read off its bytes: a code point
    of one, two or three bytes is one code unit, and a code point of four
    bytes is a pair of surrogates. *)
Fixpoint codeUnits (s : string) : list N :=
  match s with
  | EmptyString => []
  | String b1 s1 =>
      let n1 := N_of_ascii b1 in
      if (n1 <? 128)%N then n1 :: codeUnits s1
      else
        match s1 with
        | EmptyString => [n1]
        | String b2 s2 =>
            let n2 := N_of_ascii b2 in
            if (n1 <? 224)%N
            then (n1 mod 32 * 64 + n2 mod 64)%N :: codeUnits s2
            else
              match s2 with
              | EmptyString => [n1; n2]
              | String b3 s3 =>
                  let n3 := N_of_ascii b3 in
                  if (n1 <? 240)%N
                  then (n1 mod 16 * 4096 + n2 mod 64 * 64 + n3 mod 64)%N
                       :: codeUnits s3
                  else
                    match s3 with
                    | EmptyString => [n1; n2; n3]
                    | String b4 s4 =>
                        let n4 := N_of_ascii b4 in
                        let above :=
                          (n1 mod 8 * 262144 + n2 mod 64 * 4096
                           + n3 mod 64 * 64 + n4 mod 64 - 65536)%N in
                        (55296 + above / 1024)%N
                        :: (56320 + above mod 1024)%N :: codeUnits s4
                    end
              end
        end
  end.

(** The code units [search] stand at the start of [units]. *)
Fixpoint startsWith (units search : list N) {struct search} : bool :=
  match search, units with
  | [], _ => true
  | _ :: _, [] => false
  | a :: search', b :: units' => (a =? b)%N && startsWith units' search'
  end.

(** The code units [search] occur in [units]. *)
Fixpoint occursIn (units search : list N) : bool :=
  startsWith units search
  || match units with
     | [] => false
     | _ :: units' => occursIn units' search
     end.

(** [s.includes(search)]: the code units of [search] occur in those of
    [s]. *)
Definition includes (s search : string) : bool :=
  occursIn (codeUnits s) (codeUnits search).

(** The string consists of white space and line terminators only. *)
Definition blank (s : string) : bool := Js.blank s.

(** The bytes of the UTF-8 encoding of a code point below U+10000. *)
Definition utf8 (cp : N) : string :=
  if (cp <? 128)%N then String (ascii_of_N cp) ""
  else if (cp <? 2048)%N
  then String (ascii_of_N (192 + cp / 64))
         (String (ascii_of_N (128 + cp mod 64)) "")
  else String (ascii_of_N (224 + cp / 4096))
         (String (ascii_of_N (128 + cp / 64 mod 64))
            (String (ascii_of_N (128 + cp mod 64)) "")).

(** The white space and the line terminators of ECMAScript: TAB, LF, VT,
    FF, CR, SP, NBSP, U+1680, U+2000 to U+200A, LS, PS, U+202F, U+205F,
    U+3000 and ZWNBSP. *)
Definition whiteSpaceCodePoints : list N :=
  [ 9; 10; 11; 12; 13; 32; 160; 5760;
    8192; 8193; 8194; 8195; 8196; 8197; 8198; 8199; 8200; 8201; 8202;
    8232; 8233; 8239; 8287; 12288; 65279 ]%N.

Definition whiteSpace : list string := map utf8 whiteSpaceCodePoints.

(** The strings one after the other. *)
Definition joined (parts : list string) : string :=
  fold_right String.append "" parts.

End JsText.

(** ** The schema filter and the list of tables of the side panel *)

Module TablesSection.

Section Filter.

(** [schemaNameToSchemaId] of the db-schema module, a parameter here. *)
Variable schemaNameToSchemaId : string -> string.

(** [String.prototype.toLowerCase], the lower case of Unicode, a parameter
    here. *)
Variable toLowerCase : string -> string.

(** [shouldShowTablesBySchemaFilter] of the table module; an absent
    [filteredSchemas] is [None], and an array is truthy even when empty. *)
Definition shouldShowTablesBySchemaFilter (table : DBTable.t)
    (filteredSchemas : option (list string)) : bool :=
  match filteredSchemas with
  | None => true
  | Some schemas =>
      negb (Js.truthyOpt (DBTable.schema table))
      || existsb
           (String.eqb (schemaNameToSchemaId (Js.render (DBTable.schema table))))
           schemas
  end.

(** The callback [filterTableName] of the tables section. *)
Definition filterTableName (filterText : string) (table : DBTable.t) : bool :=
  negb (Js.truthy (Js.trim filterText))
  || JsText.includes (toLowerCase (DBTable.name table))
       (toLowerCase filterText).

(** The callback [filterSchema]. *)
Definition filterSchema (filteredSchemas : option (list string))
    (table : DBTable.t) : bool :=
  shouldShowTablesBySchemaFilter table filteredSchemas.

(** The memoised [filteredTables]. *)
Definition filteredTables (tables : list DBTable.t) (filterText : string)
    (filteredSchemas : option (list string)) : list DBTable.t :=
  List.filter (filterTableName filterText)
    (List.filter (filterSchema filteredSchemas) tables).

End Filter.

End TablesSection.

(** ** The import dialog *)

Module ImportDatabase.

Definition errorScriptOutputMessage : string :=
  "Invalid JSON. Please correct it or contact us at chartdb.io@gmail.com for help.".

Section Dialog.

(** [JSON.parse], which throws on a text that is no JSON ([None]), and
    [isDatabaseMetadata] of the metadata types, parameters here. *)
Variable Json : Type.
Variable parse : string -> option Json.
Variable isDatabaseMetadata : Json -> bool.

(** The effect that follows a change of [scriptResult]: the error message
    it sets. *)
Definition validate (scriptResult : string) : string :=
  if (String.length (Js.trim scriptResult) =? 0)%nat then ""
  else
    match parse scriptResult with
    | Some parsedResult =>
        if isDatabaseMetadata parsedResult then ""
        else errorScriptOutputMessage
    | None => errorScriptOutputMessage
    end.

(** [handleImport]: whether it calls [onImport]. *)
Definition handleImport (errorMessage scriptResult : string) : bool :=
  (String.length errorMessage =? 0)%nat
  && negb (String.length (Js.trim scriptResult) =? 0)%nat.

(** The [disabled] attribute of the import button. *)
Definition importDisabled (errorMessage scriptResult : string) : bool :=
  (String.length (Js.trim scriptResult) =? 0)%nat
  || (0 <? String.length errorMessage)%nat.

End Dialog.

(** The value of the toggle group of the database editions, for the state
    [databaseEdition]. *)
Definition editionValue (databaseEdition : option string) : string :=
  if negb (Js.truthyOpt databaseEdition) then "regular"
  else Js.render databaseEdition.

(** The state that [onValueChange] of that toggle group sets. *)
Definition editionOfValue (value : string) : option string :=
  if String.eqb value "regular" then None else Some value.

(** The value of the tabs of the database clients, for the state
    [databaseClient]. *)
Definition clientValue (databaseClient : option string) : string :=
  if negb (Js.truthyOpt databaseClient) then "dbclient"
  else Js.render databaseClient.

(** The state that [onValueChange] of the tabs sets. *)
Definition clientOfValue (value : string) : option string :=
  if String.eqb value "dbclient" then None else Some value.

(** The language of the code snippet. *)
Definition snippetLanguage (databaseClient : option string) : string :=
  if Js.truthyOpt databaseClient then "bash" else "sql".

End ImportDatabase.

(** ** The export of a diagram (the export-image provider) *)

Module ExportImage.

(** The argument [diagram] of [transformDiagram], as far as it is read. *)
Record diagram := {
  tables : list DBTable.t;
  relationships : list DBRelationship.t
}.

(** The object literal [typeMapping], in the order of its keys. *)
Definition typeMapping : JsMap.t string :=
  [ ("bigint", "INT"); ("binary", "STRING"); ("blob", "STRING");
    ("boolean", "BOOLEAN"); ("char", "STRING"); ("date", "DATE");
    ("datetime", "DATE"); ("decimal", "FLOAT"); ("double", "FLOAT");
    ("enum", "STRING"); ("float", "FLOAT"); ("int", "INT");
    ("json", "STRING"); ("numeric", "FLOAT"); ("real", "FLOAT");
    ("set", "STRING"); ("smallint", "INT"); ("text", "TEXT");
    ("time", "DATE"); ("timestamp", "DATE"); ("uuid", "STRING");
    ("varbinary", "STRING"); ("varchar", "STRING") ].

(** The names that the object literal inherits from [Object.prototype];
    the value of each is a function or an object, hence truthy. *)
Definition objectPrototype : list string := Js.objectPrototype.

(** The value of the member [type] of an exported column: a string of the
    mapping, or the inherited member of that name. *)
Inductive exportedType :=
| TypeName (name : string)
| Inherited (property : string).

(** [typeMapping[name] || 'STRING']. *)
Definition mappedType (name : string) : exportedType :=
  match JsMap.get name typeMapping with
  | Some mapped => if Js.truthy mapped then TypeName mapped else TypeName "STRING"
  | None =>
      if existsb (String.eqb name) objectPrototype then Inherited name
      else TypeName "STRING"
  end.

Record column := {
  columnName : string;
  type : exportedType;
  required : bool;
  primaryKey : bool
}.

Record foreignKey := {
  relationshipType : string;
  referenced_table : string;
  referenced_column : string;
  referencing_column : string
}.

Record entity := {
  tableName : string;
  name : string;
  auditable : bool;
  revisionEnabled : bool;
  columns : list column;
  foreignKeys : list foreignKey
}.

(** [v || ''] for [v : string | undefined]. *)
Definition orEmpty (o : option string) : string :=
  if Js.truthyOpt o then Js.render o else "".

Definition exportColumn (field : DBField.t) : column :=
  {| columnName := DBField.name field;
     type := mappedType (DBField.type_name (DBField.type field));
     required := negb (DBField.nullable field);
     primaryKey := DBField.primaryKey field |}.

(** The chain of conditionals that names the type of a relationship; the
    two cardinalities being ['one'] or ['many'], one of the four branches is
    taken. *)
Definition typeOfRelationship (rel : DBRelationship.t) : string :=
  match DBRelationship.sourceCardinality rel,
        DBRelationship.targetCardinality rel with
  | DBRelationship.many, DBRelationship.one => "one-to-many"
  | DBRelationship.one, DBRelationship.many => "many-to-one"
  | DBRelationship.one, DBRelationship.one => "one-to-one"
  | DBRelationship.many, DBRelationship.many => "many-to-many"
  end.

(** [fields.find((f) => f.id === id)?.name]. *)
Definition fieldName (fields : list DBField.t) (id : string) : option string :=
  option_map DBField.name
    (find (fun f => String.eqb (DBField.id f) id) fields).

(** [diagram.tables.find((t) => t.id === id)]. *)
Definition tableOfId (d : diagram) (id : string) : option DBTable.t :=
  find (fun t => String.eqb (DBTable.id t) id) (tables d).

Definition exportForeignKey (d : diagram) (table : DBTable.t)
    (rel : DBRelationship.t) : foreignKey :=
  {| relationshipType := typeOfRelationship rel;
     referenced_table :=
       orEmpty
         (option_map DBTable.name
            (tableOfId d (DBRelationship.sourceTableId rel)));
     referenced_column :=
       orEmpty
         (match tableOfId d (DBRelationship.sourceTableId rel) with
          | Some t =>
              fieldName (DBTable.fields t) (DBRelationship.sourceFieldId rel)
          | None => None
          end);
     referencing_column :=
       orEmpty
         (fieldName (DBTable.fields table)
            (DBRelationship.targetFieldId rel)) |}.

(** The relationships that the entity of [table] exports. *)
Definition incoming (d : diagram) (table : DBTable.t)
  : list DBRelationship.t :=
  List.filter
    (fun rel =>
       String.eqb (DBRelationship.targetTableId rel) (DBTable.id table))
    (relationships d).

Definition exportTable (d : diagram) (table : DBTable.t) : entity :=
  {| tableName := DBTable.name table;
     name := DBTable.name table;
     auditable := DBTable.auditable table;
     revisionEnabled := DBTable.revisionEnabled table;
     columns := map exportColumn (DBTable.fields table);
     foreignKeys := map (exportForeignKey d table) (incoming d table) |}.

Definition transformDiagram (d : diagram) : list entity :=
  map (exportTable d) (tables d).

(** *** A sample diagram: [orders] refers to [users] *)

Definition sampleField (id name typeName : string) (primaryKey : bool)
  : DBField.t :=
  {| DBField.id := id; DBField.name := name;
     DBField.type :=
       {| DBField.type_id := typeName; DBField.type_name := typeName |};
     DBField.primaryKey := primaryKey; DBField.unique := primaryKey;
     DBField.nullable := negb primaryKey;
     DBField.character_maximum_length := None;
     DBField.precision := None; DBField.scale := None;
     DBField.default := None; DBField.collation := None;
     DBField.createdAt := 0%Z; DBField.comments := None |}.

Definition sampleTable (id name : string) (fields : list DBField.t)
  : DBTable.t :=
  {| DBTable.id := id; DBTable.name := name; DBTable.schema := None;
     DBTable.x := 0; DBTable.y := 0;
     DBTable.fields := fields; DBTable.indexes := [];
     DBTable.color := "#b0b0b0"; DBTable.isView := false;
     DBTable.createdAt := 0%Z; DBTable.width := None;
     DBTable.comments := None; DBTable.hidden := None;
     DBTable.auditable := true; DBTable.revisionEnabled := false |}.

Definition sampleDiagram : diagram :=
  {| tables :=
       [ sampleTable "t1" "users"
           [sampleField "f1" "id" "bigint" true;
            sampleField "f2" "name" "varchar" false];
         sampleTable "t2" "orders"
           [sampleField "f3" "id" "bigint" true;
            sampleField "f4" "user_id" "bigint" false;
            sampleField "f5" "placed" "timestamp with time zone" false] ];
     relationships :=
       [ {| DBRelationship.id := "r1";
            DBRelationship.sourceTableId := "t1";
            DBRelationship.targetTableId := "t2";
            DBRelationship.sourceFieldId := "f1";
            DBRelationship.targetFieldId := "f4";
            DBRelationship.sourceCardinality := DBRelationship.one;
            DBRelationship.targetCardinality := DBRelationship.many |};
         {| DBRelationship.id := "r2";
            DBRelationship.sourceTableId := "t2";
            DBRelationship.targetTableId := "t9";
            DBRelationship.sourceFieldId := "f3";
            DBRelationship.targetFieldId := "f0";
            DBRelationship.sourceCardinality := DBRelationship.many;
            DBRelationship.targetCardinality := DBRelationship.one |} ] |}.

(** *** The upload

    What [exportJsonApi] does to the outside is a trace of events. *)

Record request := {
  url : string;
  method : string;
  headers : list (string * string);
  body : string
}.

Section Api.

(** The values of [JSON], [JSON.stringify(., null, 2)] on the transformed
    diagram, and the network: [fetch] rejects ([Throw]) or resolves to a
    response, whose [json()] rejects or resolves in turn. *)
Variable Json : Type.
Variable stringify : list entity -> string.

Record response := {
  ok : bool;
  json : TokenManager.outcome Json
}.

Variable fetch : request -> TokenManager.outcome response.

Inductive event :=
| Fetch (req : request)
| ConsoleLog (label : string) (data : Json)
| ConsoleError (label : string) (error : string).

Definition bulkRequest (token jsonData : string) : request :=
  {| url := "http://124.109.36.79:8080/api/v1/entity/bulk";
     method := "POST";
     headers :=
       [ ("Content-Type", "application/json");
         ("Authorization", ("Bearer " ++ token)%string) ];
     body := jsonData |}.

(** [exportJsonApi], on the token holder [tm]. *)
Definition exportJsonApi (tm : TokenManager.t) (currentDiagram : diagram)
  : list event :=
  let transformedDiagram := transformDiagram currentDiagram in
  let jsonData := stringify transformedDiagram in
  match TokenManager.getToken tm with
  | TokenManager.Throw error => [ConsoleError "Error:" error]
  | TokenManager.Return token =>
      let req := bulkRequest token jsonData in
      Fetch req
      :: match fetch req with
         | TokenManager.Throw error => [ConsoleError "Error:" error]
         | TokenManager.Return resp =>
             if negb (ok resp)
             then [ConsoleError "Error:" "Network response was not ok"]
             else
               match json resp with
               | TokenManager.Throw error => [ConsoleError "Error:" error]
               | TokenManager.Return responseData =>
                   [ConsoleLog "Success:" responseData]
               end
         end
  end.

(** The requests of a trace. *)
Definition requests (trace : list event) : list request :=
  flat_map
    (fun e => match e with
              | Fetch req => [req]
              | _ => []
              end)
    trace.

End Api.

(** [setAuthToken] of the package's entry point. *)
Definition setAuthToken (token : string) (tm : TokenManager.t)
  : TokenManager.t :=
  TokenManager.setToken token tm.

End ExportImage.

(** ** Notions of the further properties of the layout *)

Module Graph.

(** The connected tables of [id], as [positionTable] reads them:
    [tableConnections.get(id) || new Set()]. *)
Definition neighbours (tableConnections : JsMap.t JsSet.t) (id : string)
  : JsSet.t :=
  default [] (JsMap.get id tableConnections).

(** The relationship joins the tables [a] and [b], in either direction. *)
Definition joins (rel : DBRelationship.t) (a b : string) : Prop :=
  (DBRelationship.sourceTableId rel = a /\ DBRelationship.targetTableId rel = b)
  \/ (DBRelationship.sourceTableId rel = b
      /\ DBRelationship.targetTableId rel = a).

(** The identifiers of the tables of an array. *)
Definition idsOf (objs : list DBTable.t) (tables : list Layout.ref)
  : list string :=
  map (fun t => DBTable.id (objs !!! t)) tables.

(** The number of connections of a table of the deep copy. *)
Definition degree (p : Layout.preparation) (t : Layout.ref) : nat :=
  Layout.connectionCount (Layout.tableConnections p)
    (DBTable.id (Layout.tableObjects (Layout.workStore p) !!! t)).

End Graph.

(** ** Notions of the independence of the layout from the input positions *)

Module Simulation.

(** Two states of the closures that differ in the coordinates of the table
    objects at most. *)
Definition sim (st1 st2 : Layout.state) : Prop :=
  map Notions.eraseXY (Layout.objects st1)
  = map Notions.eraseXY (Layout.objects st2)
  /\ Layout.positionedTables st1 = Layout.positionedTables st2
  /\ Layout.tablePositions st1 = Layout.tablePositions st2
  /\ Layout.placements st1 = Layout.placements st2.

(** Both runs fail, or both end in similar states. *)
Definition simOpt {A : Type} (R : A -> A -> Prop) (o1 o2 : option A) : Prop :=
  match o1, o2 with
  | Some a1, Some a2 => R a1 a2
  | None, None => True
  | _, _ => False
  end.

(** The sample store with other coordinates. *)
Definition movedStore : Layout.store :=
  {| Layout.tableObjects :=
       map (DBTable.setPosition 640 (-480))
         (Layout.tableObjects Layout.sampleStore);
     Layout.relationshipObjects :=
       Layout.relationshipObjects Layout.sampleStore |}.

End Simulation.

(** ** Notions of the clusters of the layout *)

Module Cluster.

(** The variable [angle] of [positionTable] after [k] connected tables were
    placed around a table. *)
Definition angleAfter (angleStep : float) (k : nat) : float :=
  Nat.iter k (fun angle => (angle + angleStep)%float) 0%float.

(** The constant [angleStep] of the call of [positionTable] for [id]. *)
Definition angleStepOf (tableConnections : JsMap.t JsSet.t) (id : string)
  : float :=
  (2 * Layout.PI
   / Layout.numberOfNat (JsSet.size (Graph.neighbours tableConnections id)))%float.

Section Around.
Variables cos sin : float -> float.
Variable tableConnections : JsMap.t JsSet.t.

(** The search for the table of [pl] started on the ellipse around the
    point chosen for [q], a table it is connected with. *)
Definition around (q pl : Layout.placement) : Prop :=
  In (Layout.placedTable pl)
     (Graph.neighbours tableConnections (Layout.placedTable q))
  /\ exists k,
       k < JsSet.size (Graph.neighbours tableConnections (Layout.placedTable q))
       /\ Layout.baseX pl
          = (Layout.px (Layout.chosen q)
             + cos (angleAfter
                      (angleStepOf tableConnections (Layout.placedTable q)) k)
               * (Layout.tableWidth + Layout.gapX * 2))%float
       /\ Layout.baseY pl
          = (Layout.py (Layout.chosen q)
             + sin (angleAfter
                      (angleStepOf tableConnections (Layout.placedTable q)) k)
               * (Layout.tableHeight + Layout.gapY * 2))%float.

(** Every placement of [rest] is [seeded], or started around an earlier
    one, of [first] or of [rest]. *)
Definition origin (seeded : Layout.placement -> Prop)
    (first rest : list Layout.placement) : Prop :=
  forall before pl after,
    rest = before ++ pl :: after ->
    seeded pl \/ exists q, In q (first ++ before) /\ around q pl.

Definition clustered (first rest : list Layout.placement) : Prop :=
  origin (fun _ => False) first rest.

(** The placement is that of the table at some index [i] of the sorted
    tables, from the grid cell of the index, counted from [index]. *)
Definition seededAt (index : nat) (sortedTables : list Layout.ref)
    (objects : list DBTable.t) (pl : Layout.placement) : Prop :=
  exists i t,
    sortedTables !! i = Some t
    /\ Layout.placedTable pl = DBTable.id (objects !!! t)
    /\ Layout.baseX pl = Layout.seedX (index + i)
    /\ Layout.baseY pl = Layout.seedY (index + i).

(** What a run of [positionTable] logs: nothing for a placed table, and
    else the table, from the base point of the call, followed by tables
    that each started around an earlier one of the run. *)
Definition runOf (table : Layout.ref) (baseX baseY : float)
    (st st' : Layout.state) : Prop :=
  (st' = st
   /\ JsSet.has (DBTable.id (Layout.objects st !!! table))
        (Layout.positionedTables st) = true)
  \/ (JsSet.has (DBTable.id (Layout.objects st !!! table))
        (Layout.positionedTables st) = false
      /\ exists pl rest,
           Layout.placements st' = Layout.placements st ++ pl :: rest
           /\ Layout.placedTable pl = DBTable.id (Layout.objects st !!! table)
           /\ Layout.baseX pl = baseX
           /\ Layout.baseY pl = baseY
           /\ clustered [pl] rest).

End Around.

End Cluster.

(** * Properties *)

Import Notions.

(** ** The stable sort *)

Section SortFacts.
Context {A : Type} (key : A -> Z).

Local Abbreviation keyLe := (Notions.keyLe key).

Lemma insertSorted_perm (a : A) (l : list A) :
  Permutation (Js.insertSorted key a l) (a :: l).
Proof.
  induction l as [|b l IH]; simpl.
  - reflexivity.
  - destruct (key a <=? key b)%Z.
    + reflexivity.
    + rewrite IH. apply perm_swap.
Qed.

Lemma sortBy_perm (l : list A) : Permutation (Js.sortBy key l) l.
Proof.
  induction l as [|a l IH]; simpl.
  - constructor.
  - rewrite insertSorted_perm. now constructor.
Qed.

Lemma sortBy_In (l : list A) (a : A) : In a (Js.sortBy key l) <-> In a l.
Proof.
  split; apply Permutation_in; [|symmetry]; apply sortBy_perm.
Qed.

Lemma sortBy_length (l : list A) : length (Js.sortBy key l) = length l.
Proof. apply Permutation_length, sortBy_perm. Qed.

Lemma insertSorted_sorted (a : A) (l : list A) :
  StronglySorted keyLe l -> StronglySorted keyLe (Js.insertSorted key a l).
Proof.
  induction 1 as [|b l Hs IH Hb]; simpl.
  - repeat constructor.
  - destruct (key a <=? key b)%Z eqn:E.
    + apply Z.leb_le in E.
      constructor; [now constructor|].
      constructor; [exact E|].
      rewrite Forall_forall in Hb |- *.
      intros c Hc. specialize (Hb c Hc). unfold Notions.keyLe in *. lia.
    + apply Z.leb_gt in E.
      constructor; [exact IH|].
      rewrite Forall_forall. intros c Hc.
      apply (Permutation_in _ (insertSorted_perm a l)) in Hc.
      destruct Hc as [<-|Hc].
      * unfold Notions.keyLe. lia.
      * rewrite Forall_forall in Hb. now apply Hb.
Qed.

Lemma sortBy_sorted (l : list A) : StronglySorted keyLe (Js.sortBy key l).
Proof.
  induction l as [|a l IH]; simpl.
  - constructor.
  - now apply insertSorted_sorted.
Qed.

(** Stability: elements of equal key keep their relative order. *)
Lemma insertSorted_stable (k : Z) (a : A) (l : list A) :
  List.filter (fun c => (key c =? k)%Z) (Js.insertSorted key a l)
  = List.filter (fun c => (key c =? k)%Z) (a :: l).
Proof.
  induction l as [|b l IH]; simpl; [reflexivity|].
  destruct (key a <=? key b)%Z eqn:E; simpl; [reflexivity|].
  apply Z.leb_gt in E.
  simpl in IH. rewrite IH.
  destruct (key a =? k)%Z eqn:Ea, (key b =? k)%Z eqn:Eb; try reflexivity.
  apply Z.eqb_eq in Ea, Eb. lia.
Qed.

Lemma sortBy_stable (k : Z) (l : list A) :
  List.filter (fun c => (key c =? k)%Z) (Js.sortBy key l)
  = List.filter (fun c => (key c =? k)%Z) l.
Proof.
  induction l as [|a l IH]; simpl; [reflexivity|].
  rewrite insertSorted_stable. simpl. now rewrite IH.
Qed.

End SortFacts.

(** ** Dictionaries *)

Section MapFacts.
Context {V : Type}.
Implicit Types (m : JsMap.t V) (k : string) (v : V).

Lemma has_keys k m : JsMap.has k m = existsb (String.eqb k) (JsMap.keys m).
Proof.
  unfold JsMap.has.
  induction m as [|[k' v'] m IH]; simpl; [reflexivity|].
  rewrite (String.eqb_sym k k').
  now destruct (String.eqb k' k).
Qed.

Lemma get_None_keys k m : JsMap.get k m = None <-> ~ In k (JsMap.keys m).
Proof.
  induction m as [|[k' v'] m IH]; simpl.
  - tauto.
  - destruct (String.eqb_spec k' k) as [->|Hne].
    + split; [discriminate|]. tauto.
    + rewrite IH. tauto.
Qed.

Lemma get_Some_In k v m : JsMap.get k m = Some v -> In (k, v) m.
Proof.
  induction m as [|[k' v'] m IH]; simpl; [discriminate|].
  destruct (String.eqb_spec k' k) as [->|Hne].
  - intros [= ->]. now left.
  - intros H. right. now apply IH.
Qed.

Lemma set_fresh k v m : JsMap.get k m = None -> JsMap.set k v m = m ++ [(k, v)].
Proof.
  induction m as [|[k' v'] m IH]; simpl; [reflexivity|].
  destruct (String.eqb k' k); [discriminate|].
  intros H. now rewrite IH.
Qed.

Lemma keys_set k v m :
  JsMap.keys (JsMap.set k v m)
  = if JsMap.has k m then JsMap.keys m else JsMap.keys m ++ [k].
Proof.
  unfold JsMap.has.
  induction m as [|[k' v'] m IH]; simpl; [reflexivity|].
  destruct (String.eqb k' k) eqn:E; simpl; [reflexivity|].
  rewrite IH. now destruct (JsMap.get k m).
Qed.

Lemma get_set k k' v m :
  JsMap.get k' (JsMap.set k v m)
  = if String.eqb k k' then Some v else JsMap.get k' m.
Proof.
  induction m as [|[k0 v0] m IH]; simpl.
  - reflexivity.
  - destruct (String.eqb_spec k0 k) as [->|Hne]; simpl.
    + now destruct (String.eqb k k').
    + rewrite IH.
      destruct (String.eqb_spec k0 k') as [->|Hne'];
        destruct (String.eqb_spec k k') as [->|Hne'']; congruence.
Qed.

End MapFacts.

(** ** The credential holder *)

Lemma getToken_before_set :
  TokenManager.getToken TokenManager.create
  = TokenManager.Throw "No token set".
Proof. reflexivity. Qed.

Lemma getToken_after_clear (tm : TokenManager.t) :
  TokenManager.getToken (TokenManager.clearToken tm)
  = TokenManager.Throw "No token set".
Proof. reflexivity. Qed.

Lemma getToken_after_set (t : string) (tm : TokenManager.t) :
  TokenManager.getToken (TokenManager.setToken t tm)
  = if Js.truthy t then TokenManager.Return t
    else TokenManager.Throw "No token set".
Proof. unfold TokenManager.getToken; simpl. now destruct t. Qed.

(** ** Effectful maps *)

Section MapM.
Variable amb : Ambient.t.
Context {A B : Type} (f : A -> Normalizer.M amb B).

Lemma mapM_Forall2 (P : A -> B -> Prop) :
  (forall a w, P a (fst (f a w))) ->
  forall l w, Forall2 P l (fst (Normalizer.mapM amb f l w)).
Proof.
  intros HP l. induction l as [|a l IH]; intros w; simpl.
  - constructor.
  - unfold Normalizer.bind, Normalizer.ret.
    specialize (HP a w). destruct (f a w) as [b w1]. simpl in HP.
    specialize (IH w1).
    destruct (Normalizer.mapM amb f l w1) as [bs w2]. simpl in *.
    now constructor.
Qed.

Lemma mapM_length l w : length (fst (Normalizer.mapM amb f l w)) = length l.
Proof.
  symmetry. eapply Forall2_length.
  apply (mapM_Forall2 (fun _ _ => True)). trivial.
Qed.

End MapM.

Section MapE.
Variable amb : Ambient.t.
Context {A B : Type} (f : A -> Normalizer.E amb B).

(** A map that may throw returns when every call does, and else throws
    with an element on which the call throws. *)
Lemma mapE_Forall2 (P : A -> B -> Prop) (Q : A -> Prop) :
  (forall a w,
     match f a w with
     | Js.Normal (b, _) => P a b
     | Js.Abrupt _ => Q a
     end) ->
  forall l w,
    match Normalizer.mapE amb f l w with
    | Js.Normal (bs, _) => Forall2 P l bs
    | Js.Abrupt _ => exists a, In a l /\ Q a
    end.
Proof.
  intros HP l. induction l as [|a l IH]; intros w; cbn [Normalizer.mapE].
  - constructor.
  - specialize (HP a w). destruct (f a w) as [[b w1]|e].
    + specialize (IH w1).
      destruct (Normalizer.mapE amb f l w1) as [[bs w2]|e].
      * constructor; assumption.
      * destruct IH as (a' & Hin & Hq). exists a'. split; [right|]; assumption.
    + exists a. split; [left; reflexivity | exact HP].
Qed.

End MapE.

(** ** Deduplication of the columns *)

Lemma dedupByName_seen (seen seen' : list string) cols :
  (forall n, In n seen <-> In n seen') ->
  Normalizer.dedupByName seen cols = Normalizer.dedupByName seen' cols.
Proof.
  revert seen seen'.
  induction cols as [|c cols IH]; intros seen seen' H; simpl; [reflexivity|].
  assert (E : existsb (String.eqb (ColumnInfo.name c)) seen
              = existsb (String.eqb (ColumnInfo.name c)) seen').
  { apply eq_true_iff_eq. rewrite !existsb_exists.
    split; intros (n & Hn & He); exists n; split; auto; now apply H. }
  rewrite E. destruct (existsb _ seen').
  - now apply IH.
  - f_equal. apply IH. intros n; simpl. now rewrite H.
Qed.

Lemma existsb_eqb_In (n : string) (l : list string) :
  existsb (String.eqb n) l = true <-> In n l.
Proof.
  rewrite existsb_exists. split.
  - intros (m & Hm & He). apply String.eqb_eq in He. now subst.
  - intros H. exists n. split; [exact H|apply String.eqb_refl].
Qed.

Lemma existsb_eqb_notIn (n : string) (l : list string) :
  existsb (String.eqb n) l = false <-> ~ In n l.
Proof.
  rewrite <- existsb_eqb_In. now destruct (existsb _ l).
Qed.

Lemma collectUnique_fold (cols : list ColumnInfo.t)
    (m : JsMap.t ColumnInfo.t) :
  JsMap.values
    (fold_left
       (fun uniqueColumns col =>
          if negb (JsMap.has (ColumnInfo.name col) uniqueColumns)
          then JsMap.set (ColumnInfo.name col) col uniqueColumns
          else uniqueColumns)
       cols m)
  = JsMap.values m ++ Normalizer.dedupByName (JsMap.keys m) cols.
Proof.
  revert m. induction cols as [|c cols IH]; intros m; simpl.
  - now rewrite app_nil_r.
  - rewrite IH. rewrite has_keys.
    destruct (existsb (String.eqb (ColumnInfo.name c)) (JsMap.keys m)) eqn:E;
      simpl; [reflexivity|].
    assert (G : JsMap.get (ColumnInfo.name c) m = None).
    { apply get_None_keys. now apply existsb_eqb_notIn. }
    rewrite (set_fresh _ _ _ G).
    unfold JsMap.values, JsMap.keys. rewrite !map_app. simpl.
    rewrite <- app_assoc. simpl. do 2 f_equal.
    apply dedupByName_seen. intros n. rewrite in_app_iff. simpl. tauto.
Qed.

Lemma collectUnique_dedup (cols : list ColumnInfo.t) :
  JsMap.values (Normalizer.collectUnique cols)
  = Normalizer.dedupByName [] cols.
Proof. unfold Normalizer.collectUnique. now rewrite collectUnique_fold. Qed.

Lemma dedupByName_In seen cols c :
  In c (Normalizer.dedupByName seen cols) <->
  exists before after,
    cols = before ++ c :: after
    /\ ~ In (ColumnInfo.name c) seen
    /\ ~ In (ColumnInfo.name c) (map ColumnInfo.name before).
Proof.
  revert seen. induction cols as [|d cols IH]; intros seen; simpl.
  - split; [tauto|]. intros (b & a & H & _). now destruct b.
  - destruct (existsb (String.eqb (ColumnInfo.name d)) seen) eqn:E.
    + apply existsb_eqb_In in E. rewrite IH. split.
      * intros (b & a & -> & H1 & H2). exists (d :: b), a.
        repeat split; auto. simpl. intros [Hd|Hb]; [|tauto].
        apply H1. now rewrite <- Hd.
      * intros (b & a & H & H1 & H2). destruct b as [|d' b]; simpl in H.
        -- injection H as -> _. tauto.
        -- injection H as -> ->. exists b, a. repeat split; auto.
           intros Hb. apply H2. simpl. now right.
    + apply existsb_eqb_notIn in E. simpl. rewrite IH. split.
      * intros [->|(b & a & -> & H1 & H2)].
        -- exists [], cols. repeat split; auto.
        -- exists (d :: b), a. repeat split.
           ++ intros Hs. apply H1. now right.
           ++ simpl. intros [Hd|Hb]; [|tauto]. apply H1. now left.
      * intros (b & a & H & H1 & H2). destruct b as [|d' b]; simpl in H.
        -- injection H as -> _. now left.
        -- injection H as -> ->. right. exists b, a. repeat split.
           ++ simpl. intros [Hd|Hs]; [|tauto]. apply H2. simpl. now left.
           ++ intros Hb. apply H2. simpl. now right.
Qed.

Lemma dedupByName_first cols c :
  In c (Normalizer.dedupByName [] cols) <-> Normalizer.firstOfItsName c cols.
Proof.
  rewrite dedupByName_In. unfold Normalizer.firstOfItsName.
  split; intros (b & a & H); exists b, a; simpl in *; tauto.
Qed.


(** ** Aggregation of the index rows *)

Lemma accumulated_snoc rows r :
  accumulated (rows ++ [r]) = accumulateStep (accumulated rows) r.
Proof. unfold accumulated. now rewrite fold_left_app. Qed.

(** The entry under a key collects the rows of that key, in raw order. *)
Lemma accumulated_get rows k :
  JsMap.get k (accumulated rows)
  = Normalizer.groupEntry
      (List.filter (fun r => String.eqb (Normalizer.indexKey r) k) rows).
Proof.
  induction rows as [|r rows IH] using rev_ind; [reflexivity|].
  rewrite accumulated_snoc, filter_app. simpl.
  unfold accumulateStep.
  pose proof (IH' := IH).
  set (acc := accumulated rows) in *.
  destruct (String.eqb_spec (Normalizer.indexKey r) k) as [Hk|Hk].
  - subst k. rewrite IH.
    destruct (List.filter _ rows) as [|r0 rest] eqn:F; simpl;
      rewrite get_set, String.eqb_refl; [reflexivity|].
    simpl. unfold Normalizer.columnOf at 3. now rewrite map_app.
  - rewrite app_nil_r.
    destruct (JsMap.get (Normalizer.indexKey r) acc);
      rewrite get_set;
      destruct (String.eqb_spec (Normalizer.indexKey r) k);
      try contradiction; exact IH.
Qed.

Lemma set_NoDup {V : Type} k (v : V) (m : JsMap.t V) :
  NoDup (JsMap.keys m) -> NoDup (JsMap.keys (JsMap.set k v m)).
Proof.
  intros H. rewrite keys_set, has_keys.
  destruct (existsb (String.eqb k) (JsMap.keys m)) eqn:E; [exact H|].
  apply existsb_eqb_notIn in E.
  apply NoDup_app; repeat split; auto.
  - repeat constructor. simpl. tauto.
  - intros x Hx [<-|[]]. contradiction.
Qed.

Lemma accumulated_NoDup rows : NoDup (JsMap.keys (accumulated rows)).
Proof.
  induction rows as [|r rows IH] using rev_ind; [constructor|].
  rewrite accumulated_snoc. unfold accumulateStep.
  destruct (JsMap.get _ _); now apply set_NoDup.
Qed.

Lemma In_get {V : Type} k (v : V) (m : JsMap.t V) :
  NoDup (JsMap.keys m) -> In (k, v) m <-> JsMap.get k m = Some v.
Proof.
  intros Hnd. split; [|apply get_Some_In].
  induction m as [|[k' v'] m IH]; simpl; [tauto|].
  simpl in Hnd. apply NoDup_cons_iff in Hnd as [Hk Hnd].
  intros [[= -> ->]|H].
  - now rewrite String.eqb_refl.
  - destruct (String.eqb_spec k' k) as [->|Hne]; [|now apply IH].
    exfalso. apply Hk. apply (in_map fst) in H. exact H.
Qed.

Lemma In_values {V : Type} (v : V) (m : JsMap.t V) :
  In v (JsMap.values m) <-> exists k, In (k, v) m.
Proof.
  unfold JsMap.values. rewrite in_map_iff. split.
  - intros ([k v'] & <- & H). now exists k.
  - intros (k & H). now exists (k, v).
Qed.

(** The entries of the aggregation are the groups of rows of equal key,
    each headed by its first row. *)
Lemma accumulated_entries rows e :
  In e (JsMap.values (accumulated rows)) <->
  exists r,
    In r rows
    /\ Normalizer.groupEntry (Normalizer.keyGroup r rows) = Some e.
Proof.
  rewrite In_values. split.
  - intros (k & H).
    apply In_get in H; [|apply accumulated_NoDup].
    rewrite accumulated_get in H.
    destruct (List.filter _ rows) as [|r0 rest] eqn:F; [discriminate|].
    assert (Hr0 : In r0 (List.filter
                     (fun r => String.eqb (Normalizer.indexKey r) k) rows)).
    { rewrite F. now left. }
    apply filter_In in Hr0 as [Hin Hk]. apply String.eqb_eq in Hk.
    exists r0. split; [exact Hin|].
    unfold Normalizer.keyGroup. rewrite Hk, F. exact H.
  - intros (r & Hin & H). exists (Normalizer.indexKey r).
    apply In_get; [apply accumulated_NoDup|].
    rewrite accumulated_get. exact H.
Qed.

(** No key of the accumulator is the name of an inherited member. *)
Lemma accumulateStep_keys acc r k :
  In k (JsMap.keys (accumulateStep acc r)) ->
  In k (JsMap.keys acc) \/ k = Normalizer.indexKey r.
Proof.
  unfold accumulateStep. intros H.
  assert (G : forall v, In k (JsMap.keys (JsMap.set (Normalizer.indexKey r)
                                             v acc)) ->
                        In k (JsMap.keys acc) \/ k = Normalizer.indexKey r).
  { intros v Hv. rewrite keys_set in Hv.
    destruct (JsMap.has _ acc); [auto|].
    apply in_app_iff in Hv as [Hv | [<- | []]]; auto. }
  destruct (JsMap.get _ acc); eapply G; exact H.
Qed.

(** The [reduce] throws when it meets a row whose key is the name of an
    inherited member, and else returns the accumulator of the rows. *)
Lemma aggregateFrom_outcome rows :
  forall acc,
    (forall k, In k (JsMap.keys acc) -> ~ In k Js.objectPrototype) ->
    Normalizer.aggregateFrom acc rows
    = if existsb inheritedKey rows then Js.Abrupt "TypeError"
      else Js.Normal (fold_left accumulateStep rows acc).
Proof.
  induction rows as [|r rows IH]; intros acc Hacc; [reflexivity|].
  cbn [Normalizer.aggregateFrom existsb fold_left].
  assert (Hstep : Normalizer.aggregateStep acc r
                  = if inheritedKey r then Js.Abrupt "TypeError"
                    else Js.Normal (accumulateStep acc r)).
  { unfold Normalizer.aggregateStep, accumulateStep, inheritedKey.
    destruct (JsMap.get (Normalizer.indexKey r) acc) as [entry|] eqn:G.
    - destruct (existsb _ Js.objectPrototype) eqn:E; [|reflexivity].
      exfalso. apply existsb_eqb_In in E.
      apply (Hacc (Normalizer.indexKey r)); [|exact E].
      apply get_Some_In in G. apply (in_map fst) in G. exact G.
    - destruct (existsb _ Js.objectPrototype); reflexivity. }
  rewrite Hstep. destruct (inheritedKey r) eqn:E; [reflexivity|].
  cbn [orb]. apply IH. intros k Hk.
  apply accumulateStep_keys in Hk as [Hk | ->]; [apply Hacc; exact Hk|].
  apply existsb_eqb_notIn. exact E.
Qed.

Lemma aggregate_outcome rows :
  Normalizer.aggregate rows
  = if existsb inheritedKey rows then Js.Abrupt "TypeError"
    else Js.Normal (accumulated rows).
Proof. apply aggregateFrom_outcome. intros k []. Qed.

(** ** Keys and (schema, index name) pairs *)


Lemma optEqb_eq a b : Js.optEqb a b = true <-> a = b.
Proof.
  destruct a as [a|], b as [b|]; simpl; try rewrite String.eqb_eq;
    split; congruence.
Qed.



(** ** The tables built by the normalizer *)

Lemma Forall2_in_r {A B : Type} (R : A -> B -> Prop) l1 l2 b :
  Forall2 R l1 l2 -> In b l2 -> exists a, In a l1 /\ R a b.
Proof.
  induction 1 as [|a0 b0 l1 l2 HR _ IH]; simpl; [tauto|].
  intros [<-|Hb].
  - exists a0. auto.
  - destruct (IH Hb) as (a & Ha & HRa). exists a. auto.
Qed.

Lemma Forall2_in_l {A B : Type} (R : A -> B -> Prop) l1 l2 a :
  Forall2 R l1 l2 -> In a l1 -> exists b, In b l2 /\ R a b.
Proof.
  induction 1 as [|a0 b0 l1 l2 HR _ IH]; simpl; [tauto|].
  intros [<-|Ha].
  - exists b0. auto.
  - destruct (IH Ha) as (b & Hb & HRb). exists b. auto.
Qed.

Section NormalizerFacts.
Variable amb : Ambient.t.
Variable normalise : option string -> option string.
Variable md : Normalizer.metadata.

Local Abbreviation buildField := (Normalizer.buildField amb normalise md).
Local Abbreviation buildIndex := (Normalizer.buildIndex amb).
Local Abbreviation tableFrom := (Normalizer.tableFrom amb normalise md).
Local Abbreviation buildTable := (Normalizer.buildTable amb normalise md).
Local Abbreviation builtTable := (Notions.builtTable amb normalise md).
Local Abbreviation tableIndexes := (Normalizer.tableIndexes normalise md).

Lemma tableFrom_built ti w :
  builtTable ti (fst (tableFrom ti (accumulated (tableIndexes ti)) w)).
Proof.
  unfold Notions.builtTable. cbv zeta.
  set (aggregated := accumulated (tableIndexes ti)).
  assert (Hlast : exists w',
             fst (tableFrom ti aggregated w)
             = fst (tableFrom ti aggregated w')) by (exists w; reflexivity).
  revert Hlast.
  unfold Normalizer.tableFrom, Normalizer.bind, Normalizer.ret.
  pose proof (mapM_Forall2 amb (buildField ti aggregated)
                (fun col f => exists w, f = fst (buildField ti aggregated col w))
                (fun a w => ex_intro _ w eq_refl)
                (Normalizer.sortedColumns normalise md ti) w) as Hf.
  destruct (Normalizer.mapM amb (buildField ti aggregated) _ w)
    as [fields w1].
  simpl in Hf.
  pose proof (mapM_Forall2 amb (buildIndex fields)
                (fun e ix => exists w, ix = fst (buildIndex fields e w))
                (fun a w => ex_intro _ w eq_refl)
                (JsMap.values aggregated) w1) as Hi.
  destruct (Normalizer.mapM amb (buildIndex fields) _ w1) as [dbIndexes w2].
  simpl in Hi.
  destruct (Ambient.generateId amb w2) as [id w3].
  destruct (Ambient.mathRandom amb w3) as [rx w4].
  destruct (Ambient.mathRandom amb w4) as [ry w5].
  destruct (Normalizer.tableIsView normalise md ti).
  - destruct (Ambient.dateNow amb w5) as [now w6]. simpl.
    intros Hlast. repeat split; assumption.
  - destruct (Ambient.randomColor amb w5) as [color w6].
    destruct (Ambient.dateNow amb w6) as [now w7]. simpl.
    intros Hlast. repeat split; assumption.
Qed.

Lemma buildTable_outcome ti w :
  buildTable ti w
  = if existsb inheritedKey (tableIndexes ti) then Js.Abrupt "TypeError"
    else Js.Normal (tableFrom ti (accumulated (tableIndexes ti)) w).
Proof.
  unfold Normalizer.buildTable, Normalizer.aggregatedIndexes.
  rewrite aggregate_outcome.
  destruct (existsb inheritedKey (tableIndexes ti)); reflexivity.
Qed.

Lemma tableIndexes_In ti r :
  In r (tableIndexes ti) <->
  In r (Normalizer.indexes md)
  /\ IndexInfo.table r = TableInfo.table ti
  /\ normalise (IndexInfo.schema r) = normalise (TableInfo.schema ti).
Proof.
  unfold Normalizer.tableIndexes, Normalizer.tableSchema.
  now rewrite filter_In, andb_true_iff, optEqb_eq, String.eqb_eq.
Qed.

Lemma hasInheritedKey_iff :
  Normalizer.hasInheritedKey normalise md <->
  exists ti,
    In ti (Normalizer.tableInfos md)
    /\ existsb inheritedKey (tableIndexes ti) = true.
Proof.
  unfold Normalizer.hasInheritedKey. split.
  - intros (ti & r & Hti & Hr & Ht & Hs & Hk). exists ti. split; [exact Hti|].
    apply existsb_exists. exists r. split.
    + apply tableIndexes_In. auto.
    + apply existsb_eqb_In. exact Hk.
  - intros (ti & Hti & H). apply existsb_exists in H as (r & Hr & Hk).
    apply tableIndexes_In in Hr as (Hr & Ht & Hs).
    apply existsb_eqb_In in Hk. exists ti, r. auto.
Qed.

(** The call returns one built table for every descriptor when no index
    row has an inherited key, and throws when one has. *)
Lemma tables_built w :
  match Normalizer.createTablesFromMetadata amb normalise md w with
  | Js.Normal (tables, _) =>
      Forall2 builtTable (Normalizer.tableInfos md) tables
      /\ ~ Normalizer.hasInheritedKey normalise md
  | Js.Abrupt _ => Normalizer.hasInheritedKey normalise md
  end.
Proof.
  pose proof (mapE_Forall2 amb buildTable
                (fun ti tb =>
                   builtTable ti tb
                   /\ existsb inheritedKey (tableIndexes ti) = false)
                (fun ti => existsb inheritedKey (tableIndexes ti) = true))
    as H.
  specialize (H (fun ti w' =>
                   ltac:(rewrite buildTable_outcome;
                         destruct (existsb inheritedKey (tableIndexes ti))
                           eqn:E;
                         [reflexivity
                         | destruct (tableFrom ti _ w') as [tb w''] eqn:Et;
                           split; [|reflexivity];
                           pose proof (tableFrom_built ti w') as Hb;
                           rewrite Et in Hb; exact Hb]))
                (Normalizer.tableInfos md) w).
  unfold Normalizer.createTablesFromMetadata.
  destruct (Normalizer.mapE amb buildTable (Normalizer.tableInfos md) w)
    as [[tables w']|e].
  - split.
    + eapply Forall2_impl; [|exact H]. intros ti tb [Hb _]. exact Hb.
    + intros Hk. apply hasInheritedKey_iff in Hk as (ti & Hti & Hk).
      destruct (Forall2_in_l _ _ _ _ H Hti) as (tb & _ & _ & Hn).
      congruence.
  - apply hasInheritedKey_iff. exact H.
Qed.

Lemma buildField_members ti aggregated col w :
  let f := fst (buildField ti aggregated col w) in
  Normalizer.builtFrom col f
  /\ DBField.primaryKey f
     = existsb (String.eqb (ColumnInfo.name col))
         (Normalizer.tablePrimaryKeys normalise md ti)
  /\ DBField.unique f
     = Normalizer.isUniqueColumn aggregated (ColumnInfo.name col).
Proof.
  unfold Normalizer.buildField, Normalizer.bind, Normalizer.ret,
    Normalizer.builtFrom.
  destruct (Ambient.generateId amb w) as [id w1].
  destruct (Ambient.dateNow amb w1) as [now w2]. simpl. tauto.
Qed.


Lemma tablePrimaryKeys_In ti n :
  In n (Normalizer.tablePrimaryKeys normalise md ti) <->
  exists pk,
    In pk (Normalizer.primaryKeys md)
    /\ PrimaryKeyInfo.table pk = TableInfo.table ti
    /\ normalise (PrimaryKeyInfo.schema pk) = normalise (TableInfo.schema ti)
    /\ Js.trim (PrimaryKeyInfo.column pk) = n.
Proof.
  unfold Normalizer.tablePrimaryKeys, Normalizer.tableSchema.
  rewrite in_map_iff. split.
  - intros (pk & <- & H).
    apply filter_In in H as [Hin H].
    apply andb_true_iff in H as [Ht Hs].
    apply String.eqb_eq in Ht. apply optEqb_eq in Hs. now exists pk.
  - intros (pk & Hin & Ht & Hs & <-). exists pk. split; [reflexivity|].
    apply filter_In. split; [exact Hin|].
    apply andb_true_iff. now rewrite String.eqb_eq, optEqb_eq.
Qed.

End NormalizerFacts.

(** The [unique] flag in terms of the rows that were aggregated. *)
Lemma isUniqueColumn_rows rows n :
  Normalizer.isUniqueColumn (accumulated rows) n = true <->
  exists r,
    In r rows
    /\ Normalizer.keyGroup r rows = [r]
    /\ IndexInfo.unique r = true
    /\ IndexInfo.column r = n.
Proof.
  unfold Normalizer.isUniqueColumn.
  rewrite existsb_exists. split.
  - intros (e & He & H).
    apply accumulated_entries in He as (r & Hr & Hg).
    apply andb_true_iff in H as [H Hn].
    apply andb_true_iff in H as [Hu Hl].
    destruct (Normalizer.keyGroup r rows) as [|r0 rest] eqn:G;
      [discriminate|].
    injection Hg as <-. simpl in *.
    destruct rest; [|discriminate].
    apply String.eqb_eq in Hn.
    assert (Hr0 : In r0 (Normalizer.keyGroup r rows)) by (rewrite G; now left).
    apply filter_In in Hr0 as [Hin Hk]. apply String.eqb_eq in Hk.
    exists r0. repeat split; auto.
    unfold Normalizer.keyGroup in *. now rewrite Hk.
  - intros (r & Hr & Hg & Hu & Hn).
    exists {| Normalizer.row := r;
              Normalizer.indexColumns := [Normalizer.columnOf r] |}.
    split.
    + apply accumulated_entries. exists r. split; [exact Hr|].
      now rewrite Hg.
    + simpl. now rewrite Hu, Hn, String.eqb_refl.
Qed.

(** ** The claims on the metadata normalizer *)

Lemma filter_filter_and {A : Type} (f g : A -> bool) (l : list A) :
  List.filter g (List.filter f l) = List.filter (fun a => f a && g a) l.
Proof.
  induction l as [|a l IH]; simpl; [reflexivity|].
  destruct (f a); simpl; [destruct (g a)|]; now rewrite IH.
Qed.

(** The index rows of a table that share the key of [r]. *)
Lemma keyGroup_rows normalise md ti r :
  Normalizer.keyGroup r (Normalizer.tableIndexes normalise md ti)
  = List.filter
      (fun r' =>
         String.eqb (IndexInfo.table r') (TableInfo.table ti)
         && Js.optEqb (normalise (IndexInfo.schema r'))
              (normalise (TableInfo.schema ti))
         && String.eqb
              (Js.render (IndexInfo.schema r') ++ "_" ++ IndexInfo.name r')
              (Js.render (IndexInfo.schema r) ++ "_" ++ IndexInfo.name r))
      (Normalizer.indexes md).
Proof.
  unfold Normalizer.keyGroup, Normalizer.tableIndexes.
  rewrite filter_filter_and. reflexivity.
Qed.




(** C5: a field's [unique] flag is set exactly when the index rows hold a
    row [r], flagged unique and naming the field as its column, such that
    the index rows of the field's table (the rows with the table name and
    the normalised schema of the descriptor) that have the key
    [`${schema}_${name}`] of [r] are [r] alone, so that the index it
    aggregates to has exactly this one column.  In particular a unique
    index over (x,y) leaves [x] and [y] not unique, and a unique index
    over (z) alone makes [z] unique. *)
Theorem unique_iff_single_column_unique_index :
  (forall amb normalise md w,
     match Normalizer.createTablesFromMetadata amb normalise md w with
     | Js.Normal (tables, _) =>
         Forall2
           (fun ti tb =>
              Forall
                (fun f =>
                   DBField.unique f = true <->
                   exists r,
                     IndexInfo.unique r = true
                     /\ IndexInfo.column r = DBField.name f
                     /\ List.filter
                          (fun r' =>
                             String.eqb (IndexInfo.table r')
                               (TableInfo.table ti)
                             && Js.optEqb (normalise (IndexInfo.schema r'))
                                  (normalise (TableInfo.schema ti))
                             && String.eqb
                                  (Js.render (IndexInfo.schema r') ++ "_"
                                   ++ IndexInfo.name r')
                                  (Js.render (IndexInfo.schema r) ++ "_"
                                   ++ IndexInfo.name r))
                          (Normalizer.indexes md)
                        = [r])
                (DBTable.fields tb))
           (Normalizer.tableInfos md) tables
     | Js.Abrupt _ => Normalizer.hasInheritedKey normalise md
     end)
  /\ map (fun f => (fst (fst f), snd f))
       (Normalizer.sampleFields
          (Normalizer.sampleMetadata None
             [Normalizer.sampleColumn "x" 1; Normalizer.sampleColumn "y" 2;
              Normalizer.sampleColumn "z" 3]
             [Normalizer.sampleIndex "xy_key" true "x" 1;
              Normalizer.sampleIndex "xy_key" true "y" 2;
              Normalizer.sampleIndex "z_key" true "z" 1]
             []))
     = [("x", false); ("y", false); ("z", true)].
Proof.
  split; [|reflexivity].
  intros amb normalise md w.
  pose proof (tables_built amb normalise md w) as H.
  destruct (Normalizer.createTablesFromMetadata amb normalise md w)
    as [[tables w']|e]; [|exact H].
  destruct H as [H _].
  eapply Forall2_impl; [|exact H].
  intros ti tb (_ & _ & _ & _ & _ & Hf & _).
  apply Forall_forall. intros f Hin.
  destruct (Forall2_in_r _ _ _ _ Hf Hin) as (col & _ & w'' & ->).
  destruct (buildField_members amb normalise md ti
              (accumulated (Normalizer.tableIndexes normalise md ti)) col w'')
    as ((Hn & _) & _ & Hu).
  rewrite Hu, Hn, isUniqueColumn_rows. split.
  - intros (r & _ & Hg & Hur & Hc). exists r.
    rewrite <- keyGroup_rows. auto.
  - intros (r & Hur & Hc & Hg). exists r.
    rewrite <- keyGroup_rows in Hg.
    assert (Hr : In r (Normalizer.keyGroup r
                         (Normalizer.tableIndexes normalise md ti)))
      by (rewrite Hg; left; reflexivity).
    apply filter_In in Hr as [Hr _]. auto.
Qed.

(** C7, as stated, fails: a column named [" id"], with a primary-key
    descriptor for the column ["id"] of the same table, gives a field whose
    trimmed name is among the trimmed primary-key columns and whose
    [primaryKey] flag is not set. *)
Lemma untrimmed_field_name_is_no_primary_key :
  ~ (forall amb normalise md w,
       match Normalizer.createTablesFromMetadata amb normalise md w with
       | Js.Normal (tables, _) =>
           Forall2
             (fun ti tb =>
                Forall
                  (fun f =>
                     DBField.primaryKey f = true <->
                     exists pk,
                       In pk (Normalizer.primaryKeys md)
                       /\ PrimaryKeyInfo.table pk = TableInfo.table ti
                       /\ normalise (PrimaryKeyInfo.schema pk)
                          = normalise (TableInfo.schema ti)
                       /\ Js.trim (PrimaryKeyInfo.column pk)
                          = Js.trim (DBField.name f))
                  (DBTable.fields tb))
             (Normalizer.tableInfos md) tables
       | Js.Abrupt _ => True
       end).
Proof.
  intros H.
  specialize (H Normalizer.scriptedWorld Normalizer.specSchemaName
                (Normalizer.sampleMetadata None
                   [Normalizer.sampleColumn " id" 1] []
                   [Normalizer.samplePrimaryKey "id"])
                ["id1"; "id2"]).
  match type of H with
  | match ?run with _ => _ end =>
      let v := eval vm_compute in run in
      change run with v in H
  end.
  cbv beta iota in H.
  inversion H as [|ti tb l l' Hf _]; subst.
  inversion Hf as [|f fs [_ Hpk] _]; subst.
  assert (Hfalse : false = true); [|discriminate Hfalse].
  apply Hpk. exists (Normalizer.samplePrimaryKey "id").
  repeat split. now left.
Qed.

(** C7, amended: a field's [primaryKey] flag is set exactly when the
    field's name, as it stands, equals the trimmed column of some
    primary-key descriptor of the same (normalised schema, table); white
    space around the column of the primary-key descriptor (all that
    [String.prototype.trim] strips) is ignored, white space in the
    field's name is not.  So a primary-key column [id] between an
    ideographic space and a no-break space marks the field [id], and no
    primary-key column marks the field whose name ends in a no-break
    space. *)
Theorem primaryKey_iff_name_among_trimmed_columns :
  (forall amb normalise md w,
  match Normalizer.createTablesFromMetadata amb normalise md w with
  | Js.Normal (tables, _) =>
      Forall2
        (fun ti tb =>
           Forall
             (fun f =>
                DBField.primaryKey f = true <->
                exists pk,
                  In pk (Normalizer.primaryKeys md)
                  /\ PrimaryKeyInfo.table pk = TableInfo.table ti
                  /\ normalise (PrimaryKeyInfo.schema pk)
                     = normalise (TableInfo.schema ti)
                  /\ Js.trim (PrimaryKeyInfo.column pk) = DBField.name f)
             (DBTable.fields tb))
        (Normalizer.tableInfos md) tables
  | Js.Abrupt _ => Normalizer.hasInheritedKey normalise md
  end)
  /\ map (fun f => (fst (fst f), snd (fst f)))
       (Normalizer.sampleFields
          (Normalizer.sampleMetadata None
             [Normalizer.sampleColumn "id" 1;
              Normalizer.sampleColumn (" n" ++ Normalizer.nbsp) 2]
             []
             [Normalizer.samplePrimaryKey
                (Normalizer.ideographicSpace ++ "id" ++ Normalizer.nbsp);
              Normalizer.samplePrimaryKey " n"]))
     = [("id", true); ((" n" ++ Normalizer.nbsp)%string, false)].
Proof.
  split; [|reflexivity]. intros amb normalise md w.
  pose proof (tables_built amb normalise md w) as H.
  destruct (Normalizer.createTablesFromMetadata amb normalise md w)
    as [[tables w']|e]; [|exact H].
  destruct H as [H _].
  eapply Forall2_impl; [|exact H].
  intros ti tb (_ & _ & _ & _ & _ & Hf & _).
  apply Forall_forall. intros f Hin.
  destruct (Forall2_in_r _ _ _ _ Hf Hin) as (col & _ & w'' & ->).
  destruct (buildField_members amb normalise md ti
              (accumulated (Normalizer.tableIndexes normalise md ti)) col w'')
    as ((Hn & _) & Hp & _).
  rewrite Hp, Hn, existsb_eqb_In. apply tablePrimaryKeys_In.
Qed.

Lemma buildIndex_members amb fields e w :
  let ix := fst (Normalizer.buildIndex amb fields e w) in
  DBIndex.name ix = IndexInfo.name (Normalizer.row e)
  /\ DBIndex.unique ix = IndexInfo.unique (Normalizer.row e)
  /\ DBIndex.fieldIds ix
     = Normalizer.resolveFieldIds fields
         (Js.sortBy snd (Normalizer.indexColumns e)).
Proof.
  unfold Normalizer.buildIndex, Normalizer.bind, Normalizer.ret.
  destruct (Ambient.generateId amb w) as [id w1].
  destruct (Ambient.dateNow amb w1) as [now w2]. simpl. tauto.
Qed.












(** ** The claim on the credential holder *)




(** ** Binary64 arithmetic *)

Lemma binary_round_abs (prec emax : Z) (m : positive) (e : Z) :
  SFabs (binary_round prec emax true m e)
  = SFabs (binary_round prec emax false m e).
Proof.
  unfold binary_round.
  destruct (shl_align m e _) as [mz ez].
  unfold binary_round_aux.
  destruct (shr_fexp prec emax (Z.pos mz) ez loc_Exact) as [mrs e'].
  destruct (shr_fexp prec emax _ e' loc_Exact) as [mrs' e''].
  destruct (shr_m mrs') as [|p|p]; try reflexivity.
  now destruct (e'' <=? emax - prec)%Z.
Qed.

Lemma binary_normalize_opp_abs (prec emax m e : Z) :
  SFabs (binary_normalize prec emax (- m) e false)
  = SFabs (binary_normalize prec emax m e false).
Proof.
  destruct m as [|p|p]; simpl; try reflexivity.
  - apply binary_round_abs.
  - symmetry. apply binary_round_abs.
Qed.

Lemma SFsub_abs_sym (prec emax : Z) (x y : spec_float) :
  SFabs (SFsub prec emax x y) = SFabs (SFsub prec emax y x).
Proof.
  destruct x as [sx|sx| |sx mx ex], y as [sy|sy| |sy my ey];
    try reflexivity;
    try (destruct sx, sy; reflexivity).
  simpl. rewrite (Z.min_comm ey ex).
  set (a := cond_Zopp sx _). set (b := cond_Zopp sy _).
  replace (b - a)%Z with (- (a - b))%Z by lia.
  symmetry. apply binary_normalize_opp_abs.
Qed.

(** The distance [Math.abs(a - b)] is symmetric. *)
Lemma abs_sub_sym (a b : float) : abs (a - b) = abs (b - a).
Proof.
  apply Prim2SF_inj.
  rewrite !FloatAxioms.abs_spec, !FloatAxioms.sub_spec. apply SFsub_abs_sym.
Qed.

(** ** The spiral search *)

Section SpiralFacts.
Variables cos sin : float -> float.
Variable tablePositions : JsMap.t Layout.position.
Variables baseX baseY : float.
Variable tableId : string.

Local Abbreviation spiral :=
  (Layout.spiral cos sin tablePositions baseX baseY tableId).
Local Abbreviation pointAt := (Layout.pointAt cos sin baseX baseY).
Local Abbreviation taken := (Notions.taken tablePositions tableId).

Lemma iter_advance (k : nat) (polar : float * float) :
  Nat.iter k Layout.advance (Layout.advance polar)
  = Nat.iter (S k) Layout.advance polar.
Proof.
  induction k as [|k IH]; simpl; [reflexivity|]. now rewrite IH.
Qed.

Lemma spiralPolar_iter (n : nat) :
  Layout.spiralPolar n = Nat.iter n Layout.advance (0%float, 0%float).
Proof.
  induction n as [|n IH]; simpl; [reflexivity|]. now rewrite IH.
Qed.

Lemma spiral_O (iterations : nat) (angle radius : float) :
  spiral 0 iterations angle radius = (iterations, pointAt (angle, radius)).
Proof. reflexivity. Qed.

Lemma spiral_S (remaining iterations : nat) (angle radius : float) :
  spiral (S remaining) iterations angle radius
  = if taken (pointAt (angle, radius))
    then spiral remaining (S iterations)
           (fst (Layout.advance (angle, radius)))
           (snd (Layout.advance (angle, radius)))
    else (iterations, pointAt (angle, radius)).
Proof.
  unfold Notions.taken, Layout.pointAt, Layout.advance, Layout.spiralStep.
  cbn [Layout.spiral Layout.px Layout.py fst snd].
  destruct (Layout.isOverlapping _ _ _ _); [|reflexivity].
  cbn [negb].
  now destruct (2 * Layout.PI <=? angle + Layout.PI / 4)%float.
Qed.

(** The loop stops at the first free point of the spiral, or after
    [remaining] turns at the point that follows the points it tested. *)
Lemma spiral_result (remaining iterations : nat) (polar : float * float) :
  let res := spiral remaining iterations (fst polar) (snd polar) in
  let tested := fst res - iterations in
  iterations <= fst res <= iterations + remaining
  /\ snd res = pointAt (Nat.iter tested Layout.advance polar)
  /\ (fst res < iterations + remaining -> taken (snd res) = false)
  /\ (forall j,
        j < tested ->
        taken (pointAt (Nat.iter j Layout.advance polar)) = true).
Proof.
  revert iterations polar.
  induction remaining as [|rem IH]; intros it [angle radius];
    cbn [fst snd].
  - rewrite spiral_O. cbn [fst snd]. rewrite Nat.sub_diag.
    repeat split; try lia.
  - rewrite spiral_S.
    destruct (taken (pointAt (angle, radius))) eqn:Hov.
    + specialize (IH (S it) (Layout.advance (angle, radius))).
      cbv zeta in IH.
      set (res := spiral rem (S it) _ _) in *.
      destruct IH as (Hb & Hp & Hfree & Hall).
      assert (E : fst res - it = S (fst res - S it)) by lia.
      repeat split; try lia.
      * rewrite E, Hp. now rewrite iter_advance.
      * intros H. apply Hfree. lia.
      * intros j Hj. destruct j as [|j]; [exact Hov|].
        rewrite <- iter_advance. apply Hall. lia.
    + cbn [fst snd]. rewrite Nat.sub_diag.
      repeat split; try lia. intros _. exact Hov.
Qed.

Lemma spiralPolar_at_cap :
  Layout.spiralPolar Layout.maxIterations = (0%float, 18750%float).
Proof. vm_compute. reflexivity. Qed.

Lemma spiralPolar_before_cap :
  Layout.spiralPolar (Layout.maxIterations - 1)
  = (0x1.5fdbbe9bba775p+2%float, 18600%float).
Proof. vm_compute. reflexivity. Qed.

(** [findNonOverlappingPosition], with the final value of [iterations]. *)
Lemma search_result :
  let res := spiral Layout.maxIterations 0 0%float 0%float in
  fst res <= Layout.maxIterations
  /\ snd res = pointAt (Layout.spiralPolar (fst res))
  /\ (fst res < Layout.maxIterations -> taken (snd res) = false)
  /\ (forall j,
        j < fst res -> taken (pointAt (Layout.spiralPolar j)) = true).
Proof.
  destruct (spiral_result Layout.maxIterations 0 (0%float, 0%float))
    as (Hb & Hp & Hfree & Hall).
  cbn [fst snd] in *. rewrite Nat.sub_0_r in *.
  repeat split; try lia.
  - now rewrite spiralPolar_iter.
  - exact Hfree.
  - intros j Hj. rewrite spiralPolar_iter. now apply Hall.
Qed.

End SpiralFacts.

(** ** Objects and their positions *)

Lemma eraseXY_setPosition x y tb :
  eraseXY (DBTable.setPosition x y tb) = eraseXY tb.
Proof. reflexivity. Qed.

Lemma eraseXY_id tb : DBTable.id (eraseXY tb) = DBTable.id tb.
Proof. reflexivity. Qed.

Lemma erase_write (objs : list DBTable.t) (a : Layout.ref) x y :
  map eraseXY (<[a := DBTable.setPosition x y (objs !!! a)]> objs)
  = map eraseXY objs.
Proof.
  revert a. induction objs as [|tb objs IH]; intros [|a]; simpl;
    try reflexivity.
  f_equal. apply IH.
Qed.

Lemma erase_lookup (objs objs' : list DBTable.t) (a : Layout.ref) :
  map eraseXY objs' = map eraseXY objs ->
  eraseXY (objs' !!! a) = eraseXY (objs !!! a).
Proof.
  revert objs a. induction objs' as [|tb' objs' IH];
    intros [|tb objs] a H; simpl in H; try discriminate; [reflexivity|].
  pose proof (f_equal (hd (eraseXY tb)) H) as Ht.
  pose proof (f_equal (@tl _) H) as Hl. simpl in Ht, Hl.
  destruct a as [|a]; simpl; [exact Ht|].
  now apply IH.
Qed.

Lemma erase_id (objs objs' : list DBTable.t) (a : Layout.ref) :
  map eraseXY objs' = map eraseXY objs ->
  DBTable.id (objs' !!! a) = DBTable.id (objs !!! a).
Proof.
  intros H. rewrite <- (eraseXY_id (objs' !!! a)), (erase_lookup _ _ a H).
  reflexivity.
Qed.

Lemma has_In (k : string) (s : JsSet.t) : JsSet.has k s = true <-> In k s.
Proof. apply existsb_eqb_In. Qed.

Lemma has_notIn (k : string) (s : JsSet.t) :
  JsSet.has k s = false <-> ~ In k s.
Proof. apply existsb_eqb_notIn. Qed.

(** ** The placement of one table and of its neighbours *)

Section EngineFacts.
Variables cos sin : float -> float.
Variable tables : list Layout.ref.
Variable tableConnections : JsMap.t JsSet.t.

Local Abbreviation positionTable :=
  (Layout.positionTable cos sin tables tableConnections).
Local Abbreviation search := (Layout.spiral cos sin).
Local Abbreviation consistent := (Notions.consistent cos sin).
Local Abbreviation logged := (Notions.logged cos sin).
Local Abbreviation extends := (Notions.extends cos sin tables).
Local Abbreviation unplaced := (Notions.unplaced tables).

Lemma extends_refl st : extends st st.
Proof.
  split; [reflexivity|]. split; [reflexivity|].
  split; [exists []; now rewrite app_nil_r|]. split; auto.
Qed.

Lemma extends_trans st1 st2 st3 :
  extends st1 st2 -> extends st2 st3 -> extends st1 st3.
Proof.
  intros (E1 & F1 & (m1 & L1) & P1 & I1) (E2 & F2 & (m2 & L2) & P2 & I2).
  split; [congruence|].
  split; [intros a Ha; now rewrite F2, F1|].
  split; [exists (m1 ++ m2); now rewrite L2, L1, app_assoc|].
  split; auto.
Qed.

Lemma consistent_snoc log p :
  consistent log ->
  (let found :=
     search (map Layout.entryOf log) (Layout.baseX p) (Layout.baseY p)
       (Layout.placedTable p) Layout.maxIterations 0 0%float 0%float in
   Layout.iterations p = fst found /\ Layout.chosen p = snd found) ->
  consistent (log ++ [p]).
Proof.
  intros Hc Hp before q after E.
  destruct after as [|q' after'] using rev_ind.
  - apply app_inj_tail in E as [-> ->]. exact Hp.
  - clear IHafter'. rewrite app_comm_cons, app_assoc in E.
    apply app_inj_tail in E as [E _].
    exact (Hc before q after' E).
Qed.

Lemma recordPosition_extends table baseX baseY st :
  In table tables ->
  JsSet.has (DBTable.id (Layout.objects st !!! table))
    (Layout.positionedTables st) = false ->
  extends st
    (Layout.recordPosition cos sin table baseX baseY
       (Layout.findNonOverlappingPosition cos sin (Layout.tablePositions st)
          baseX baseY (DBTable.id (Layout.objects st !!! table)))
       st).
Proof.
  intros Hin Hnew. unfold Layout.recordPosition.
  set (tableId := DBTable.id (Layout.objects st !!! table)) in *.
  set (found := Layout.findNonOverlappingPosition _ _ _ _ _ _).
  split; [|split; [|split; [|split]]];
    cbn [Layout.objects Layout.placements
           Layout.positionedTables Layout.tablePositions].
  { apply erase_write. }
  { intros a Ha. apply list_lookup_insert_ne. intros ->. contradiction. }
  { eexists. reflexivity. }
  { intros id Hid. unfold JsSet.add. rewrite Hnew.
    apply in_or_app. now left. }
  intros H. pose proof H as H0.
  split; [|split; [|split]];
    cbn [Layout.objects Layout.placements
           Layout.positionedTables Layout.tablePositions].
  - destruct H as (Hpos & _). rewrite Hpos.
    assert (G : JsMap.get tableId (map Layout.entryOf (Layout.placements st))
                = None).
    { apply get_None_keys. unfold JsMap.keys. rewrite map_map.
      destruct H0 as (_ & Hset & _).
      change (~ In tableId (map Layout.placedTable (Layout.placements st))).
      rewrite <- Hset. now apply has_notIn. }
    rewrite (set_fresh _ _ _ G), map_app. reflexivity.
  - destruct H as (_ & Hset & _). unfold JsSet.add. rewrite Hnew, Hset.
    now rewrite map_app.
  - destruct H as (_ & Hset & Hnd & _). rewrite map_app.
    apply NoDup_app; repeat split; auto.
    + repeat constructor. simpl. tauto.
    + intros x Hx [<-|[]]. cbn [Layout.placedTable] in Hx.
      apply has_notIn in Hnew. apply Hnew. now rewrite Hset.
  - destruct H as (Hpos & _ & _ & Hc).
    apply consistent_snoc; [exact Hc|].
    cbn [Layout.baseX Layout.baseY Layout.placedTable Layout.iterations
           Layout.chosen]. rewrite <- Hpos. split; [reflexivity|].
    unfold found, Layout.findNonOverlappingPosition.
    now destruct (snd _).
Qed.

Lemma positionTable_S fuel table baseX baseY st :
  positionTable (S fuel) table baseX baseY st
  = let tableId := DBTable.id (Layout.objects st !!! table) in
    if JsSet.has tableId (Layout.positionedTables st) then Some st
    else
      let found :=
        Layout.findNonOverlappingPosition cos sin (Layout.tablePositions st)
          baseX baseY tableId in
      option_map fst
        (Layout.forEachM
           (Layout.placeConnected cos sin tables (positionTable fuel)
              (Layout.px found) (Layout.py found)
              (2 * Layout.PI
               / Layout.numberOfNat
                   (JsSet.size
                      (default [] (JsMap.get tableId tableConnections)))))
           (default [] (JsMap.get tableId tableConnections))
           (Layout.recordPosition cos sin table baseX baseY found st,
            0%float)).
Proof. reflexivity. Qed.

Lemma findTable_In objs id table :
  Layout.findTable tables objs id = Some table -> In table tables.
Proof. intros H. now apply find_some in H. Qed.

(** The neighbours are placed by runs of [recur] on tables of [tables]. *)
Lemma placeConnected_extends
    (recur : Layout.ref -> float -> float -> Layout.state
             -> option Layout.state)
    x y angleStep :
  (forall table bx by_ st st',
     In table tables -> recur table bx by_ st = Some st' -> extends st st') ->
  forall connected acc acc',
    Layout.forEachM (Layout.placeConnected cos sin tables recur x y angleStep)
      connected acc = Some acc' ->
    extends (fst acc) (fst acc').
Proof.
  intros Hrec connected.
  induction connected as [|cid connected IH]; intros acc acc' H; simpl in H.
  - injection H as <-. apply extends_refl.
  - destruct (Layout.placeConnected cos sin tables recur x y angleStep acc cid)
      as [acc1|] eqn:E; [|discriminate].
    apply extends_trans with (fst acc1); [|now apply IH].
    unfold Layout.placeConnected in E. destruct acc as [st angle].
    destruct (negb (JsSet.has cid (Layout.positionedTables st)));
      [|injection E as <-; apply extends_refl].
    destruct (Layout.findTable tables (Layout.objects st) cid)
      as [ct|] eqn:F; [|injection E as <-; apply extends_refl].
    destruct (recur ct _ _ st) as [st''|] eqn:R; [|discriminate].
    injection E as <-. simpl.
    eapply Hrec; [|exact R]. now apply findTable_In in F.
Qed.

Lemma positionTable_extends fuel :
  forall table baseX baseY st st',
    In table tables ->
    positionTable fuel table baseX baseY st = Some st' ->
    extends st st'
    /\ In (DBTable.id (Layout.objects st !!! table))
         (Layout.positionedTables st').
Proof.
  induction fuel as [|fuel IH]; intros table baseX baseY st st' Hin H;
    [discriminate|].
  rewrite positionTable_S in H. cbv zeta in H.
  set (tableId := DBTable.id (Layout.objects st !!! table)) in *.
  destruct (JsSet.has tableId (Layout.positionedTables st)) eqn:Hhas.
  - injection H as <-. split; [apply extends_refl|now apply has_In].
  - destruct (Layout.forEachM _ _ _) as [acc'|] eqn:F; [|discriminate].
    injection H as <-.
    apply placeConnected_extends in F;
      [|intros t bx by_ s s' Ht Hs; now apply (IH t bx by_ s s')].
    pose proof (recordPosition_extends table baseX baseY st Hin Hhas) as R.
    fold tableId in R. simpl in F.
    split; [now apply extends_trans with (2 := F)|].
    destruct F as (_ & _ & _ & Hmono & _). apply Hmono.
    unfold Layout.recordPosition. cbn [Layout.positionedTables].
    fold tableId. unfold JsSet.add. rewrite Hhas.
    apply in_or_app. right. now left.
Qed.

(** *** Enough fuel *)

Lemma filter_length_mono {A : Type} (f g : A -> bool) (l : list A) :
  (forall a, In a l -> f a = true -> g a = true) ->
  length (List.filter f l) <= length (List.filter g l).
Proof.
  induction l as [|a l IH]; intros H; simpl; [lia|].
  assert (IH' := IH (fun b Hb => H b (or_intror Hb))).
  destruct (f a) eqn:Fa.
  - rewrite (H a (or_introl eq_refl) Fa). simpl. lia.
  - destruct (g a); simpl; lia.
Qed.

Lemma filter_length_strict {A : Type} (f g : A -> bool) (l : list A) (a : A) :
  (forall b, In b l -> f b = true -> g b = true) ->
  In a l -> f a = false -> g a = true ->
  length (List.filter f l) < length (List.filter g l).
Proof.
  induction l as [|b l IH]; intros H Hin Fa Ga; simpl; [contradiction|].
  assert (Hle := filter_length_mono f g l (fun c Hc => H c (or_intror Hc))).
  destruct Hin as [->|Hin].
  - rewrite Fa, Ga. simpl. lia.
  - assert (IH' := IH (fun c Hc => H c (or_intror Hc)) Hin Fa Ga).
    destruct (f b) eqn:Fb.
    + rewrite (H b (or_introl eq_refl) Fb). simpl. lia.
    + destruct (g b); simpl; lia.
Qed.

Lemma unplaced_extends st st' : extends st st' -> unplaced st' <= unplaced st.
Proof.
  intros (He & _ & _ & Hmono & _). apply filter_length_mono.
  intros t _. rewrite !negb_true_iff, !has_notIn, (erase_id _ _ t He).
  intros Hn Hp. apply Hn. now apply Hmono.
Qed.

Lemma unplaced_record table baseX baseY found st :
  In table tables ->
  JsSet.has (DBTable.id (Layout.objects st !!! table))
    (Layout.positionedTables st) = false ->
  unplaced (Layout.recordPosition cos sin table baseX baseY found st)
  < unplaced st.
Proof.
  intros Hin Hnew. apply filter_length_strict with table; auto.
  - intros t _. unfold Layout.recordPosition.
    cbn [Layout.objects Layout.positionedTables].
    rewrite !negb_true_iff, !has_notIn.
    rewrite (erase_id _ _ t (erase_write _ _ _ _)).
    intros Hn Hp. apply Hn. unfold JsSet.add. rewrite Hnew.
    apply in_or_app. now left.
  - unfold Layout.recordPosition.
    cbn [Layout.objects Layout.positionedTables].
    rewrite negb_false_iff, has_In.
    rewrite (erase_id _ _ table (erase_write _ _ _ _)).
    unfold JsSet.add. rewrite Hnew. apply in_or_app. right. now left.
  - now rewrite Hnew.
Qed.

Lemma placeConnected_total fuel x y angleStep :
  (forall table bx by_ st,
     In table tables -> unplaced st < fuel ->
     exists st', positionTable fuel table bx by_ st = Some st') ->
  forall connected acc,
    unplaced (fst acc) < fuel ->
    exists acc',
      Layout.forEachM
        (Layout.placeConnected cos sin tables (positionTable fuel)
           x y angleStep)
        connected acc = Some acc'.
Proof.
  intros Hrec connected.
  induction connected as [|cid connected IH]; intros acc Hlt;
    cbn [Layout.forEachM]; [eauto|].
  assert (Hstep :
            exists acc1,
              Layout.placeConnected cos sin tables (positionTable fuel)
                x y angleStep acc cid = Some acc1
              /\ unplaced (fst acc1) < fuel).
  { unfold Layout.placeConnected. destruct acc as [st angle].
    cbn [fst] in Hlt.
    destruct (negb (JsSet.has cid (Layout.positionedTables st))); [|eauto].
    destruct (Layout.findTable tables (Layout.objects st) cid)
      as [ct|] eqn:F; [|eauto].
    apply findTable_In in F. cbv zeta.
    edestruct (Hrec ct) as [st' R]; [exact F|exact Hlt|].
    rewrite R. eexists. split; [reflexivity|]. cbn [fst].
    apply positionTable_extends in R as [R _]; [|exact F].
    apply unplaced_extends in R. lia. }
  destruct Hstep as (acc1 & -> & Hlt1). now apply IH.
Qed.

Lemma positionTable_total fuel :
  forall table baseX baseY st,
    In table tables -> unplaced st < fuel ->
    exists st', positionTable fuel table baseX baseY st = Some st'.
Proof.
  induction fuel as [|fuel IH]; intros table baseX baseY st Hin Hlt; [lia|].
  rewrite positionTable_S. cbv zeta.
  set (tableId := DBTable.id (Layout.objects st !!! table)).
  destruct (JsSet.has tableId (Layout.positionedTables st)) eqn:Hhas;
    [eauto|].
  set (found := Layout.findNonOverlappingPosition _ _ _ _ _ _).
  pose proof (unplaced_record table baseX baseY found st Hin Hhas) as Hrec.
  destruct (placeConnected_total fuel (Layout.px found) (Layout.py found)
              (2 * Layout.PI
               / Layout.numberOfNat
                   (JsSet.size
                      (default [] (JsMap.get tableId tableConnections))))%float
              IH (default [] (JsMap.get tableId tableConnections))
              (Layout.recordPosition cos sin table baseX baseY found st,
               0%float))
    as [acc' F]; [simpl; lia|].
  rewrite F. simpl. eauto.
Qed.

End EngineFacts.

(** ** The loop over the sorted tables *)

Section SeedFacts.
Variables cos sin : float -> float.
Variable tables : list Layout.ref.
Variable tableConnections : JsMap.t JsSet.t.

Local Abbreviation positionTable :=
  (Layout.positionTable cos sin tables tableConnections).
Local Abbreviation seedTables :=
  (Layout.seedTables cos sin tables tableConnections).
Local Abbreviation extends := (Notions.extends cos sin tables).

(** A table that is not placed yet is logged first, with the base point
    that [positionTable] was called with. *)
Lemma positionTable_logs fuel table baseX baseY st st' :
  In table tables ->
  JsSet.has (DBTable.id (Layout.objects st !!! table))
    (Layout.positionedTables st) = false ->
  positionTable fuel table baseX baseY st = Some st' ->
  exists pl rest,
    Layout.placements st' = Layout.placements st ++ pl :: rest
    /\ Layout.placedTable pl = DBTable.id (Layout.objects st !!! table)
    /\ Layout.baseX pl = baseX
    /\ Layout.baseY pl = baseY.
Proof.
  intros Hin Hnew H. destruct fuel as [|fuel]; [discriminate|].
  rewrite positionTable_S in H. cbv zeta in H. rewrite Hnew in H.
  destruct (Layout.forEachM _ _ _) as [acc'|] eqn:F; [|discriminate].
  injection H as <-.
  apply placeConnected_extends in F;
    [|intros t bx by_ s s' Ht Hs;
      now apply (positionTable_extends cos sin tables tableConnections
                   fuel t bx by_ s s')].
  destruct F as (_ & _ & (more & Hlog) & _).
  cbn [fst Layout.recordPosition Layout.placements] in Hlog.
  rewrite <- app_assoc in Hlog. simpl in Hlog.
  eexists. exists more. split; [exact Hlog|]. now cbn.
Qed.

Lemma seedTables_cons fuel index table rest st :
  seedTables fuel index (table :: rest) st
  = match
      (if negb (JsSet.has (DBTable.id (Layout.objects st !!! table))
                  (Layout.positionedTables st))
       then positionTable fuel table (Layout.seedX index)
              (Layout.seedY index) st
       else Some st)
    with
    | Some st' => seedTables fuel (S index) rest st'
    | None => None
    end.
Proof. reflexivity. Qed.

Lemma seedTables_app fuel sorted1 sorted2 :
  forall index st,
    seedTables fuel index (sorted1 ++ sorted2) st
    = match seedTables fuel index sorted1 st with
      | Some st1 => seedTables fuel (index + length sorted1) sorted2 st1
      | None => None
      end.
Proof.
  induction sorted1 as [|t sorted1 IH]; intros index st.
  - cbn [app length Layout.seedTables]. now rewrite Nat.add_0_r.
  - rewrite <- app_comm_cons, !seedTables_cons.
    destruct (if negb _ then _ else _) as [st'|]; [|reflexivity].
    rewrite IH. cbn [length]. now rewrite Nat.add_succ_r.
Qed.

Lemma seedTables_extends fuel sorted :
  forall index st st',
    (forall t, In t sorted -> In t tables) ->
    seedTables fuel index sorted st = Some st' ->
    extends st st'
    /\ forall t, In t sorted ->
                 In (DBTable.id (Layout.objects st !!! t))
                    (Layout.positionedTables st').
Proof.
  induction sorted as [|table rest IH]; intros index st st' Hsub H.
  - injection H as <-. split; [apply extends_refl|]. intros t [].
  - rewrite seedTables_cons in H.
    destruct (if negb _ then _ else _) as [st1|] eqn:E; [|discriminate].
    assert (Hstep :
              extends st st1
              /\ In (DBTable.id (Layout.objects st !!! table))
                   (Layout.positionedTables st1)).
    { destruct (JsSet.has _ (Layout.positionedTables st)) eqn:Hhas;
        cbn [negb] in E.
      - injection E as <-. split; [apply extends_refl|now apply has_In].
      - eapply positionTable_extends; [|exact E].
        apply Hsub. now left. }
    destruct Hstep as (Hext & Hplaced).
    destruct (IH (S index) st1 st' (fun t Ht => Hsub t (or_intror Ht)) H)
      as (Hext' & Hall).
    split; [now apply extends_trans with st1|].
    intros t [<-|Ht].
    + destruct Hext' as (_ & _ & _ & Hmono & _). now apply Hmono.
    + destruct Hext as (He & _).
      rewrite <- (erase_id _ _ t He). now apply Hall.
Qed.

Lemma unplaced_bound st : unplaced tables st <= length tables.
Proof. unfold Notions.unplaced. apply List.filter_length_le. Qed.

Lemma seedTables_total fuel sorted :
  forall index st,
    (forall t, In t sorted -> In t tables) ->
    length tables < fuel ->
    exists st', seedTables fuel index sorted st = Some st'.
Proof.
  induction sorted as [|table rest IH]; intros index st Hsub Hfuel.
  - eexists. reflexivity.
  - rewrite seedTables_cons.
    destruct (negb _).
    + destruct (positionTable_total cos sin tables tableConnections fuel
                  table (Layout.seedX index) (Layout.seedY index) st)
        as [st' ->].
      * apply Hsub. now left.
      * pose proof (unplaced_bound st). lia.
      * apply IH; auto. intros t Ht. apply Hsub. now right.
    + apply IH; auto. intros t Ht. apply Hsub. now right.
Qed.

End SeedFacts.

(** ** The final positions *)

Lemma withPosition_idem tablePositions tb :
  withPosition tablePositions (withPosition tablePositions tb)
  = withPosition tablePositions tb.
Proof.
  unfold Notions.withPosition.
  destruct (JsMap.get (DBTable.id tb) tablePositions) as [pos|] eqn:E.
  - cbn [DBTable.setPosition DBTable.id]. now rewrite E.
  - now rewrite E.
Qed.

Lemma eraseXY_withPosition tablePositions tb :
  eraseXY (withPosition tablePositions tb) = eraseXY tb.
Proof. unfold Notions.withPosition. now destruct (JsMap.get _ _). Qed.

Lemma erase_update (f : DBTable.t -> DBTable.t) (objs : list DBTable.t)
    (a : Layout.ref) :
  (forall tb, eraseXY (f tb) = eraseXY tb) ->
  map eraseXY (<[a := f (objs !!! a)]> objs) = map eraseXY objs.
Proof.
  intros Hf. revert a.
  induction objs as [|tb objs IH]; intros [|a]; simpl; try reflexivity.
  - f_equal. apply Hf.
  - f_equal. apply IH.
Qed.

Lemma applyPositions_cons tablePositions table tables objs :
  Layout.applyPositions (table :: tables) tablePositions objs
  = Layout.applyPositions tables tablePositions
      (<[table := withPosition tablePositions (objs !!! table)]> objs).
Proof.
  unfold Layout.applyPositions. cbn [fold_left]. f_equal.
  unfold Notions.withPosition.
  destruct (JsMap.get _ _) as [pos|]; [reflexivity|].
  destruct (objs !! table) as [tb|] eqn:E.
  - rewrite (list_lookup_total_correct _ _ _ E).
    symmetry. now apply list_insert_id.
  - symmetry. apply list_insert_ge. now apply lookup_ge_None.
Qed.

Lemma applyPositions_spec tablePositions tables :
  forall objs,
    let out := Layout.applyPositions tables tablePositions objs in
    map eraseXY out = map eraseXY objs
    /\ (forall a, ~ In a tables -> out !! a = objs !! a)
    /\ (forall a tb, In a tables -> objs !! a = Some tb ->
                     out !! a = Some (withPosition tablePositions tb)).
Proof.
  induction tables as [|t tables IH]; intros objs.
  - cbn. repeat split; auto. intros a tb [].
  - cbv zeta. rewrite applyPositions_cons.
    set (objs1 := <[t := withPosition tablePositions (objs !!! t)]> objs).
    destruct (IH objs1) as (He & Hframe & Hset).
    assert (He1 : map eraseXY objs1 = map eraseXY objs).
    { apply (erase_update (withPosition tablePositions)).
      apply eraseXY_withPosition. }
    repeat split.
    + congruence.
    + intros a Ha. rewrite Hframe by (intros H; apply Ha; now right).
      apply list_lookup_insert_ne. intros ->. apply Ha. now left.
    + intros a tb Ha Hobj.
      destruct (in_dec Nat.eq_dec a tables) as [Hin|Hnin].
      * destruct (Nat.eq_dec t a) as [->|Hne].
        -- rewrite (Hset a (withPosition tablePositions tb) Hin).
           ++ now rewrite withPosition_idem.
           ++ unfold objs1. rewrite (list_lookup_total_correct _ _ _ Hobj).
              apply list_lookup_insert_eq. now apply lookup_lt_Some in Hobj.
        -- apply Hset; [exact Hin|]. unfold objs1.
           now rewrite list_lookup_insert_ne.
      * destruct Ha as [->|Ha]; [|contradiction].
        rewrite Hframe by exact Hnin. unfold objs1.
        rewrite (list_lookup_total_correct _ _ _ Hobj).
        apply list_lookup_insert_eq. now apply lookup_lt_Some in Hobj.
Qed.

(** ** The whole of [adjustTablePositions] *)

Section AdjustFacts.
Variables cos sin : float -> float.
Variables inputTables inputRelationships : list Layout.ref.
Variable s : Layout.store.

Local Abbreviation p := (Layout.prepare inputTables inputRelationships s).

Lemma prepare_tables :
  Layout.tables p
  = seq (length (Layout.tableObjects s)) (length inputTables).
Proof. reflexivity. Qed.

Lemma prepare_objects :
  Layout.tableObjects (Layout.workStore p)
  = Layout.tableObjects s
    ++ map (fun a => Layout.tableObjects s !!! a) inputTables.
Proof. reflexivity. Qed.

Lemma prepare_relationships :
  Layout.relationshipObjects (Layout.workStore p)
  = Layout.relationshipObjects s
    ++ map (fun r => Layout.relationshipObjects s !!! r) inputRelationships.
Proof. reflexivity. Qed.

Lemma prepare_order : Permutation (Layout.sortedTables p) (Layout.tables p).
Proof. apply sortBy_perm. Qed.

Lemma order_tables t : In t (Layout.sortedTables p) -> In t (Layout.tables p).
Proof. apply Permutation_in, prepare_order. Qed.

Lemma initial_logged : logged cos sin (Layout.initialState p).
Proof.
  split; [reflexivity|]. split; [reflexivity|]. split; [constructor|].
  intros pre q post E. now destruct pre.
Qed.

(** The loop over the sorted tables ends, whatever the input. *)
Lemma place_total :
  exists st, Layout.place cos sin inputTables inputRelationships s = Some st.
Proof.
  unfold Layout.place. apply seedTables_total.
  - apply order_tables.
  - lia.
Qed.

(** After the loop, every table of the deep copy is placed, and the log
    accounts for the position map. *)
Lemma place_final st :
  Layout.place cos sin inputTables inputRelationships s = Some st ->
  extends cos sin (Layout.tables p) (Layout.initialState p) st
  /\ logged cos sin st
  /\ forall t,
       In t (Layout.tables p) ->
       In (DBTable.id (Layout.objects st !!! t)) (Layout.positionedTables st).
Proof.
  intros H. unfold Layout.place in H.
  apply seedTables_extends in H as (Hext & Hall); [|apply order_tables].
  split; [exact Hext|].
  pose proof Hext as (He & _ & _ & _ & Hlog).
  split; [apply Hlog, initial_logged|].
  intros t Ht. rewrite (erase_id _ _ t He). apply Hall.
  apply Permutation_in with (1 := Permutation_sym prepare_order). exact Ht.
Qed.

Lemma work_tables_valid t :
  In t (Layout.tables p) ->
  length (Layout.tableObjects s) <= t
  /\ t < length (Layout.tableObjects (Layout.workStore p)).
Proof.
  rewrite prepare_tables, prepare_objects, in_seq, length_app, length_map.
  lia.
Qed.

(** The table objects that [adjustTablePositions] returns. *)
Lemma adjust_objects st out s' :
  Layout.place cos sin inputTables inputRelationships s = Some st ->
  Layout.adjustTablePositions cos sin inputTables inputRelationships s
  = Some (out, s') ->
  out = Layout.tables p
  /\ Layout.relationshipObjects s'
     = Layout.relationshipObjects (Layout.workStore p)
  /\ map eraseXY (Layout.tableObjects s')
     = map eraseXY (Layout.tableObjects (Layout.workStore p))
  /\ (forall a, ~ In a (Layout.tables p) ->
                Layout.tableObjects s' !! a
                = Layout.tableObjects (Layout.workStore p) !! a)
  /\ (forall t, In t (Layout.tables p) ->
                exists pl,
                  In pl (Layout.placements st)
                  /\ Layout.placedTable pl
                     = DBTable.id (Layout.tableObjects s' !!! t)
                  /\ DBTable.x (Layout.tableObjects s' !!! t)
                     = Layout.px (Layout.chosen pl)
                  /\ DBTable.y (Layout.tableObjects s' !!! t)
                     = Layout.py (Layout.chosen pl)).
Proof.
  intros Hplace Hadj. unfold Layout.adjustTablePositions in Hadj.
  rewrite Hplace in Hadj. injection Hadj as <- <-.
  cbn [Layout.tableObjects Layout.relationshipObjects].
  rewrite <- prepare_tables.
  destruct (place_final st Hplace) as (Hext & Hlog & Hall).
  destruct Hext as (He & Hframe & _).
  destruct (applyPositions_spec (Layout.tablePositions st)
              (Layout.tables p) (Layout.objects st))
    as (Ha & Haf & Hset).
  cbv zeta in Ha, Haf, Hset.
  set (final := Layout.applyPositions (Layout.tables p)
                  (Layout.tablePositions st) (Layout.objects st)) in *.
  split; [reflexivity|]. split; [reflexivity|].
  split; [now rewrite Ha, He|].
  split; [intros a Hn; now rewrite Haf, Hframe|].
  intros t Ht.
  assert (Hlt : t < length (Layout.objects st)).
  { apply work_tables_valid in Ht as [_ Ht].
    apply (f_equal (@length _)) in He. rewrite !length_map in He.
    cbn [Layout.initialState Layout.objects] in He. lia. }
  destruct (lookup_lt_is_Some_2 _ _ Hlt) as [tb Htb].
  specialize (Hset t tb Ht Htb).
  rewrite (list_lookup_total_correct _ _ _ Hset).
  specialize (Hall t Ht). rewrite (list_lookup_total_correct _ _ _ Htb) in Hall.
  destruct Hlog as (Hpos & Hplaced & _).
  rewrite Hplaced in Hall. apply in_map_iff in Hall as (pl & Hid & Hin).
  exists pl.
  assert (G : JsMap.get (DBTable.id tb) (Layout.tablePositions st)
              = Some (Layout.chosen pl)).
  { destruct (place_final st Hplace) as (_ & (_ & _ & Hnd & _) & _).
    rewrite Hpos. apply In_get.
    - unfold JsMap.keys. rewrite map_map. exact Hnd.
    - apply in_map_iff. exists pl. split; [|exact Hin].
      unfold Layout.entryOf. now rewrite Hid. }
  unfold Notions.withPosition. rewrite G.
  cbn [DBTable.setPosition DBTable.id DBTable.x DBTable.y]. auto.
Qed.

End AdjustFacts.

(** ** The claims on the layout engine *)

Lemma In_before {A : Type} (x y : A) (l : list A) :
  In x l -> In y l -> x <> y ->
  (exists before after, l = before ++ y :: after /\ In x before)
  \/ (exists before after, l = before ++ x :: after /\ In y before).
Proof.
  intros Hx Hy Hne.
  apply in_split in Hx as (l1 & l2 & ->).
  apply in_app_or in Hy as [Hy|[Hy|Hy]]; [| congruence |].
  - right. now exists l1, l2.
  - left. apply in_split in Hy as (m1 & m2 & ->).
    exists (l1 ++ x :: m1), m2. split.
    + now rewrite <- app_assoc.
    + apply in_or_app. right. now left.
Qed.

Lemma free_of_entry tablePositions x y id id' pos :
  Layout.isOverlapping tablePositions x y id = false ->
  In (id', pos) tablePositions ->
  id' <> id ->
  ((abs (x - Layout.px pos) <? Layout.tableWidth + Layout.gapX)
   && (abs (y - Layout.py pos) <? Layout.tableHeight + Layout.gapY))%float
  = false.
Proof.
  intros Hfree Hin Hne. unfold Layout.isOverlapping in Hfree.
  destruct (_ && _)%float eqn:E; [|reflexivity].
  exfalso. apply not_true_iff_false in Hfree. apply Hfree.
  apply existsb_exists. exists (id', pos). split; [exact Hin|].
  apply String.eqb_neq in Hne. now rewrite Hne.
Qed.

Lemma capExhausted_false log id pl :
  Layout.capExhausted log id = false ->
  In pl log -> Layout.placedTable pl = id ->
  Layout.iterations pl < Layout.maxIterations.
Proof.
  intros H Hin Hid. unfold Layout.capExhausted in H.
  destruct (Nat.ltb_spec (Layout.iterations pl) Layout.maxIterations)
    as [Hlt|Hge]; [exact Hlt|].
  exfalso. apply not_true_iff_false in H. apply H.
  apply existsb_exists. exists pl. split; [exact Hin|].
  rewrite Hid, String.eqb_refl. now apply Nat.leb_le.
Qed.

(** A table placed without exhausting the cap is clear of every table
    placed before it. *)
Lemma later_is_clear_of_earlier cos sin log before pl after earlier :
  consistent cos sin log ->
  log = before ++ pl :: after ->
  In earlier before ->
  Layout.placedTable earlier <> Layout.placedTable pl ->
  Layout.iterations pl < Layout.maxIterations ->
  ((abs (Layout.px (Layout.chosen pl) - Layout.px (Layout.chosen earlier))
    <? Layout.tableWidth + Layout.gapX)
   && (abs (Layout.py (Layout.chosen pl) - Layout.py (Layout.chosen earlier))
       <? Layout.tableHeight + Layout.gapY))%float
  = false.
Proof.
  intros Hc Hlog Hin Hne Hlt.
  destruct (Hc before pl after Hlog) as (Hit & Hch).
  destruct (search_result cos sin (map Layout.entryOf before)
              (Layout.baseX pl) (Layout.baseY pl) (Layout.placedTable pl))
    as (_ & _ & Hfree & _).
  rewrite <- Hit, <- Hch in Hfree. specialize (Hfree Hlt).
  apply free_of_entry
    with (tablePositions := map Layout.entryOf before)
         (id := Layout.placedTable pl) (id' := Layout.placedTable earlier).
  - exact Hfree.
  - apply in_map_iff. now exists earlier.
  - exact Hne.
Qed.

(** C1: in the tables that [adjustTablePositions] returns, two tables of
    distinct identifiers do not satisfy the overlap test (both
    [|x1 - x2| < tableWidth + gapX] and [|y1 - y2| < tableHeight + gapY]),
    unless the spiral search ran into its cap of 1000 iterations when it
    placed one of the two. *)
Theorem placed_tables_do_not_overlap
    cos sin inputTables inputRelationships s st out s' :
  Layout.place cos sin inputTables inputRelationships s = Some st ->
  Layout.adjustTablePositions cos sin inputTables inputRelationships s
  = Some (out, s') ->
  forall a b,
    In a out -> In b out ->
    let ta := Layout.tableObjects s' !!! a in
    let tb := Layout.tableObjects s' !!! b in
    DBTable.id ta <> DBTable.id tb ->
    Layout.capExhausted (Layout.placements st) (DBTable.id ta) = false ->
    Layout.capExhausted (Layout.placements st) (DBTable.id tb) = false ->
    Layout.overlap ta tb = false.
Proof.
  intros Hplace Hadj a b Ha Hb ta tb Hne Hcapa Hcapb.
  destruct (adjust_objects cos sin _ _ _ st out s' Hplace Hadj)
    as (-> & _ & _ & _ & Hpos).
  destruct (Hpos a Ha) as (pa & Hina & Hida & Hxa & Hya).
  destruct (Hpos b Hb) as (pb & Hinb & Hidb & Hxb & Hyb).
  fold ta in Hida, Hxa, Hya. fold tb in Hidb, Hxb, Hyb.
  destruct (place_final cos sin _ _ _ st Hplace)
    as (_ & (_ & _ & _ & Hcons) & _).
  pose proof (capExhausted_false _ _ pa Hcapa Hina Hida) as Hita.
  pose proof (capExhausted_false _ _ pb Hcapb Hinb Hidb) as Hitb.
  assert (Hpne : pa <> pb) by (intros ->; congruence).
  unfold Layout.overlap. rewrite Hxa, Hya, Hxb, Hyb.
  destruct (In_before pa pb _ Hina Hinb Hpne)
    as [(before & after & Hlog & Hin)|(before & after & Hlog & Hin)].
  - rewrite (abs_sub_sym (Layout.px (Layout.chosen pa))),
            (abs_sub_sym (Layout.py (Layout.chosen pa))).
    eapply later_is_clear_of_earlier; eauto. congruence.
  - eapply later_is_clear_of_earlier; eauto. congruence.
Qed.

(** The hub [a] with the leaves [b] and [c]: the copies of [b] and [c],
    at the references 4 and 6, do not overlap. *)
Lemma placed_tables_do_not_overlap_witness :
  match
    Layout.adjustTablePositions Layout.sampleCos Layout.sampleSin
      [0; 1; 2; 3] [0; 1] Layout.sampleStore
  with
  | Some (_, s') =>
      Layout.overlap (Layout.tableObjects s' !!! 4)
        (Layout.tableObjects s' !!! 6) = false
  | None => False
  end.
Proof.
  let vp :=
    eval vm_compute in
      (Layout.place Layout.sampleCos Layout.sampleSin
         [0; 1; 2; 3] [0; 1] Layout.sampleStore) in
  let va :=
    eval vm_compute in
      (Layout.adjustTablePositions Layout.sampleCos Layout.sampleSin
         [0; 1; 2; 3] [0; 1] Layout.sampleStore) in
  lazymatch vp with
  | Some ?st =>
      lazymatch va with
      | Some (?out, ?s') =>
          assert (Ha : Layout.adjustTablePositions Layout.sampleCos
                         Layout.sampleSin [0; 1; 2; 3] [0; 1]
                         Layout.sampleStore = Some (out, s'))
            by (vm_compute; reflexivity);
          pose proof
            (placed_tables_do_not_overlap Layout.sampleCos Layout.sampleSin
               [0; 1; 2; 3] [0; 1] Layout.sampleStore st out s'
               ltac:(vm_compute; reflexivity) Ha 4 6) as H
      end
  end.
  rewrite Ha. apply H.
  - vm_compute. tauto.
  - vm_compute. tauto.
  - vm_compute. discriminate.
  - vm_compute. reflexivity.
  - vm_compute. reflexivity.
Defined.

(** C2, as stated, fails in one point: when the cap is reached, the point
    accepted is not the last point tested.  Around the origin, with a table
    at each of the 1000 points that the search tests, the search returns
    (18750, 0), the point that follows them on the spiral, and the last
    point tested is the one at the angle 7/4 pi and the radius 18600. *)
Lemma cap_returns_an_untested_point :
  ~ (forall cos sin tablePositions baseX baseY tableId,
       fst (Layout.spiral cos sin tablePositions baseX baseY tableId
              Layout.maxIterations 0 0 0)
       = Layout.maxIterations ->
       Layout.findNonOverlappingPosition cos sin tablePositions
         baseX baseY tableId
       = Layout.pointAt cos sin baseX baseY
           (Layout.spiralPolar (Layout.maxIterations - 1))).
Proof.
  intros H.
  specialize (H Layout.sampleCos Layout.sampleSin Layout.crowd
                0%float 0%float "t" ltac:(vm_compute; reflexivity)).
  apply (f_equal (fun pos => (Layout.px pos =? 18750)%float)) in H.
  vm_compute in H. discriminate H.
Qed.

(** C2, amended: [adjustTablePositions] returns on every input, and every
    table it returns has the position that the log holds for its
    identifier; no table is placed twice (the recursion descends only into
    tables not yet placed, and as much fuel as there are tables, and one
    more, suffices).  The spiral search tests at most 1000 points, all but
    the last of them taken; below the cap it returns the point it tested
    last, which is free; at the cap it returns the next point of the
    spiral, at the angle 0 and the radius 18750 around the base point,
    which it has not tested. *)
Theorem layout_terminates_and_places_every_table
    cos sin inputTables inputRelationships s :
  (exists st out s',
     Layout.place cos sin inputTables inputRelationships s = Some st
     /\ Layout.adjustTablePositions cos sin inputTables inputRelationships s
        = Some (out, s')
     /\ length out = length inputTables
     /\ NoDup (map Layout.placedTable (Layout.placements st))
     /\ forall t,
          In t out ->
          exists pl,
            In pl (Layout.placements st)
            /\ Layout.placedTable pl
               = DBTable.id (Layout.tableObjects s' !!! t)
            /\ DBTable.x (Layout.tableObjects s' !!! t)
               = Layout.px (Layout.chosen pl)
            /\ DBTable.y (Layout.tableObjects s' !!! t)
               = Layout.py (Layout.chosen pl))
  /\ forall tablePositions baseX baseY tableId,
       let res :=
         Layout.spiral cos sin tablePositions baseX baseY tableId
           Layout.maxIterations 0 0 0 in
       let point n :=
         Layout.pointAt cos sin baseX baseY (Layout.spiralPolar n) in
       Layout.findNonOverlappingPosition cos sin tablePositions
         baseX baseY tableId = snd res
       /\ fst res <= Layout.maxIterations
       /\ (forall j,
             j < fst res ->
             Layout.isOverlapping tablePositions
               (Layout.px (point j)) (Layout.py (point j)) tableId = true)
       /\ (fst res < Layout.maxIterations ->
           snd res = point (fst res)
           /\ Layout.isOverlapping tablePositions
                (Layout.px (snd res)) (Layout.py (snd res)) tableId = false)
       /\ (fst res = Layout.maxIterations ->
           snd res
           = {| Layout.px := (baseX + 18750 * cos 0)%float;
                Layout.py := (baseY + 18750 * sin 0)%float |}).
Proof.
  split.
  - destruct (place_total cos sin inputTables inputRelationships s)
      as [st Hplace].
    assert (Hadj : exists out s',
               Layout.adjustTablePositions cos sin inputTables
                 inputRelationships s = Some (out, s')).
    { unfold Layout.adjustTablePositions. rewrite Hplace. eauto. }
    destruct Hadj as (out & s' & Hadj).
    exists st, out, s'.
    destruct (adjust_objects cos sin _ _ _ st out s' Hplace Hadj)
      as (Hout & _ & _ & _ & Hpos).
    destruct (place_final cos sin _ _ _ st Hplace)
      as (_ & (_ & _ & Hnd & _) & _).
    repeat split; auto.
    + rewrite Hout, prepare_tables. apply length_seq.
    + intros t Ht. apply Hpos. now rewrite <- Hout.
  - intros tablePositions baseX baseY tableId res point.
    destruct (search_result cos sin tablePositions baseX baseY tableId)
      as (Hle & Hpt & Hfree & Hall).
    fold res in Hle, Hpt, Hfree, Hall.
    split; [reflexivity|]. split; [exact Hle|].
    split; [exact Hall|]. split.
    + intros Hlt. split; [exact Hpt|]. now apply Hfree.
    + intros Hcap. rewrite Hpt, Hcap, spiralPolar_at_cap. reflexivity.
Qed.

Lemma map_lookup {A B : Type} (f : A -> B) (l : list A) (i : nat) :
  map f l !! i = option_map f (l !! i).
Proof.
  revert i. induction l as [|a l IH]; intros [|i]; simpl; auto.
Qed.

(** C3: [adjustTablePositions] leaves every object that the caller holds as
    it was, be it a table or a relationship, and the i-th table it returns
    is a new object that agrees with the i-th input table on every member
    but [x] and [y]. *)
Theorem adjustTablePositions_changes_positions_only
    cos sin inputTables inputRelationships s out s' :
  Layout.adjustTablePositions cos sin inputTables inputRelationships s
  = Some (out, s') ->
  (forall a,
     a < length (Layout.tableObjects s) ->
     Layout.tableObjects s' !! a = Layout.tableObjects s !! a)
  /\ (forall r,
        r < length (Layout.relationshipObjects s) ->
        Layout.relationshipObjects s' !! r
        = Layout.relationshipObjects s !! r)
  /\ length out = length inputTables
  /\ forall i a b,
       inputTables !! i = Some a ->
       out !! i = Some b ->
       let ta := Layout.tableObjects s !!! a in
       let tb := Layout.tableObjects s' !!! b in
       length (Layout.tableObjects s) <= b
       /\ DBTable.id tb = DBTable.id ta
       /\ DBTable.name tb = DBTable.name ta
       /\ DBTable.schema tb = DBTable.schema ta
       /\ DBTable.fields tb = DBTable.fields ta
       /\ DBTable.indexes tb = DBTable.indexes ta
       /\ DBTable.color tb = DBTable.color ta
       /\ DBTable.isView tb = DBTable.isView ta
       /\ DBTable.createdAt tb = DBTable.createdAt ta
       /\ DBTable.width tb = DBTable.width ta
       /\ DBTable.comments tb = DBTable.comments ta
       /\ DBTable.hidden tb = DBTable.hidden ta
       /\ DBTable.auditable tb = DBTable.auditable ta
       /\ DBTable.revisionEnabled tb = DBTable.revisionEnabled ta.
Proof.
  intros Hadj.
  destruct (place_total cos sin inputTables inputRelationships s)
    as [st Hplace].
  destruct (adjust_objects cos sin _ _ _ st out s' Hplace Hadj)
    as (Hout & Hrel & He & Hframe & _).
  rewrite prepare_objects in He, Hframe. rewrite prepare_relationships in Hrel.
  rewrite prepare_tables in Hout, Hframe.
  split; [|split; [|split]].
  - intros a Ha. rewrite Hframe.
    + now apply lookup_app_l.
    + rewrite in_seq. lia.
  - intros r Hr. rewrite Hrel. now apply lookup_app_l.
  - rewrite Hout. apply length_seq.
  - intros i a b Hi Hb ta tb.
    rewrite Hout in Hb. apply lookup_seq in Hb as [-> Hlt].
    assert (Hcopy :
              (Layout.tableObjects s
               ++ map (fun a => Layout.tableObjects s !!! a) inputTables)
              !!! (length (Layout.tableObjects s) + i) = ta).
    { apply list_lookup_total_correct.
      rewrite lookup_app_r by lia.
      replace (length (Layout.tableObjects s) + i
               - length (Layout.tableObjects s)) with i by lia.
      now rewrite map_lookup, Hi. }
    pose proof (erase_lookup _ _ (length (Layout.tableObjects s) + i) He)
      as E.
    rewrite Hcopy in E. fold tb in E.
    split; [lia|].
    repeat split;
      [ exact (f_equal DBTable.id E)
      | exact (f_equal DBTable.name E)
      | exact (f_equal DBTable.schema E)
      | exact (f_equal DBTable.fields E)
      | exact (f_equal DBTable.indexes E)
      | exact (f_equal DBTable.color E)
      | exact (f_equal DBTable.isView E)
      | exact (f_equal DBTable.createdAt E)
      | exact (f_equal DBTable.width E)
      | exact (f_equal DBTable.comments E)
      | exact (f_equal DBTable.hidden E)
      | exact (f_equal DBTable.auditable E)
      | exact (f_equal DBTable.revisionEnabled E) ].
Qed.

(** The hub and its leaves: the four objects of the caller are as they
    were, and the copy of [a] differs from [a] in its position alone. *)
Lemma adjustTablePositions_changes_positions_only_witness :
  match
    Layout.adjustTablePositions Layout.sampleCos Layout.sampleSin
      [0; 1; 2; 3] [0; 1] Layout.sampleStore
  with
  | Some (out, s') =>
      take 4 (Layout.tableObjects s') = Layout.tableObjects Layout.sampleStore
      /\ out !! 1 = Some 5
      /\ DBTable.name (Layout.tableObjects s' !!! 5) = "a"
  | None => False
  end.
Proof.
  let va :=
    eval vm_compute in
      (Layout.adjustTablePositions Layout.sampleCos Layout.sampleSin
         [0; 1; 2; 3] [0; 1] Layout.sampleStore) in
  lazymatch va with
  | Some (?out, ?s') =>
      assert (Ha : Layout.adjustTablePositions Layout.sampleCos
                     Layout.sampleSin [0; 1; 2; 3] [0; 1]
                     Layout.sampleStore = Some (out, s'))
        by (vm_compute; reflexivity);
      pose proof
        (adjustTablePositions_changes_positions_only
           Layout.sampleCos Layout.sampleSin
           [0; 1; 2; 3] [0; 1] Layout.sampleStore out s' Ha)
        as (_ & _ & _ & H)
  end.
  rewrite Ha. split; [vm_compute; reflexivity|].
  split; [reflexivity|].
  destruct (H 1 1 5 eq_refl eq_refl) as (_ & _ & Hname & _).
  exact Hname.
Defined.

(** C6, as stated, fails: the cells of the grid are not spaced by
    [tableWidth + gapX] and [tableHeight + gapY].  Of two tables without a
    relationship, the second is seeded at x = 500, not at x = 400. *)
Lemma seeds_are_not_spaced_by_one_gap :
  ~ (forall cos sin inputTables inputRelationships s i t,
       let p := Layout.prepare inputTables inputRelationships s in
       let run sortedTables :=
         Layout.seedTables cos sin (Layout.tables p) (Layout.tableConnections p)
           (S (length (Layout.tables p))) 0 sortedTables
           (Layout.initialState p) in
       Layout.sortedTables p !! i = Some t ->
       exists st st',
         run (take i (Layout.sortedTables p)) = Some st
         /\ run (take (S i) (Layout.sortedTables p)) = Some st'
         /\ i mod 6 < 6
         /\ (JsSet.has (DBTable.id (Layout.objects st !!! t))
               (Layout.positionedTables st) = false ->
             exists pl rest,
               Layout.placements st' = Layout.placements st ++ pl :: rest
               /\ Layout.placedTable pl
                  = DBTable.id (Layout.objects st !!! t)
               /\ Layout.baseX pl
                  = (Layout.startX
                     + Layout.numberOfNat (i mod 6)
                       * (Layout.tableWidth + Layout.gapX))%float
               /\ Layout.baseY pl
                  = (Layout.startY
                     + Layout.numberOfNat (i / 6)
                       * (Layout.tableHeight + Layout.gapY))%float)).
Proof.
  intros H.
  destruct (H Layout.sampleCos Layout.sampleSin [0; 1] []
              Layout.isolatedStore 1 3 eq_refl)
    as (st & st' & E & E' & _ & Hseed).
  vm_compute in E. injection E as <-.
  vm_compute in E'. injection E' as <-.
  destruct (Hseed ltac:(vm_compute; reflexivity))
    as (pl & rest & Hlog & _ & Hx & _).
  vm_compute in Hlog. injection Hlog as <- _.
  apply (f_equal (fun v => (v =? 500)%float)) in Hx.
  vm_compute in Hx. discriminate Hx.
Qed.

(** C6, amended: when the loop over the sorted tables reaches the table at
    the index [i] and the table is not placed yet, [positionTable] is called
    for it with the base point of the grid cell of column [i mod 6] (one of
    six) and row [i / 6], the cells being spaced by [tableWidth + 2 gapX]
    (400) and [tableHeight + 2 gapY] (500) from (startX, startY); a table
    that is placed already is passed over. *)
Theorem seeds_lie_on_the_grid
    cos sin inputTables inputRelationships s i t :
  let p := Layout.prepare inputTables inputRelationships s in
  let run sortedTables :=
    Layout.seedTables cos sin (Layout.tables p) (Layout.tableConnections p)
      (S (length (Layout.tables p))) 0 sortedTables
      (Layout.initialState p) in
  Layout.sortedTables p !! i = Some t ->
  exists st st',
    run (take i (Layout.sortedTables p)) = Some st
    /\ run (take (S i) (Layout.sortedTables p)) = Some st'
    /\ i mod 6 < 6
    /\ (JsSet.has (DBTable.id (Layout.objects st !!! t))
          (Layout.positionedTables st) = true ->
        st' = st)
    /\ (JsSet.has (DBTable.id (Layout.objects st !!! t))
          (Layout.positionedTables st) = false ->
        exists pl rest,
          Layout.placements st' = Layout.placements st ++ pl :: rest
          /\ Layout.placedTable pl = DBTable.id (Layout.objects st !!! t)
          /\ Layout.baseX pl
             = (Layout.startX
                + Layout.numberOfNat (i mod 6)
                  * (Layout.tableWidth + Layout.gapX * 2))%float
          /\ Layout.baseY pl
             = (Layout.startY
                + Layout.numberOfNat (i / 6)
                  * (Layout.tableHeight + Layout.gapY * 2))%float).
Proof.
  intros p run Hi.
  assert (Hsub : forall l u, In u (take l (Layout.sortedTables p)) ->
                             In u (Layout.tables p)).
  { intros l u Hu. apply order_tables. change (In u (Layout.sortedTables p)).
    rewrite <- (take_drop l (Layout.sortedTables p)). apply in_or_app. now left. }
  destruct (seedTables_total cos sin (Layout.tables p) (Layout.tableConnections p)
              (S (length (Layout.tables p))) (take i (Layout.sortedTables p))
              0 (Layout.initialState p) (Hsub i) ltac:(lia))
    as [st Hst].
  destruct (seedTables_total cos sin (Layout.tables p) (Layout.tableConnections p)
              (S (length (Layout.tables p)))
              (take (S i) (Layout.sortedTables p))
              0 (Layout.initialState p) (Hsub (S i)) ltac:(lia))
    as [st' Hst'].
  exists st, st'. split; [exact Hst|]. split; [exact Hst'|].
  split; [apply Nat.mod_upper_bound; lia|].
  rewrite (take_S_r _ _ _ Hi), seedTables_app, Hst in Hst'.
  assert (Hlen : length (take i (Layout.sortedTables p)) = i).
  { apply length_take_le. apply lookup_lt_Some in Hi. lia. }
  rewrite Hlen, seedTables_cons in Hst'. cbn [Nat.add] in Hst'.
  assert (Ht : In t (Layout.tables p)).
  { apply order_tables. change (In t (Layout.sortedTables p)).
    apply list_elem_of_In. now apply list_elem_of_lookup_2 with i. }
  split.
  - intros Hhas. rewrite Hhas in Hst'. cbn in Hst'. congruence.
  - intros Hnew. rewrite Hnew in Hst'. cbn [negb] in Hst'.
    destruct (Layout.positionTable _ _ _ _ _ _ _ _ st) as [st1|] eqn:Hp;
      [|discriminate].
    cbn [Layout.seedTables] in Hst'. injection Hst' as <-.
    destruct (positionTable_logs cos sin _ _ _ _ _ _ st st1 Ht Hnew Hp)
      as (pl & rest & Hlog & Hid & Hx & Hy).
    exists pl, rest. repeat split; auto.
Qed.

(** Two tables without a relationship: the second is seeded in the column
    1 of the row 0, at (500, 100). *)
Lemma seeds_lie_on_the_grid_witness :
  exists st st',
    Layout.placements st' = Layout.placements st
                            ++ [{| Layout.placedTable := "b";
                                   Layout.baseX := 500;
                                   Layout.baseY := 100;
                                   Layout.iterations := 0;
                                   Layout.chosen :=
                                     {| Layout.px := 500;
                                        Layout.py := 100 |} |}].
Proof.
  destruct (seeds_lie_on_the_grid Layout.sampleCos Layout.sampleSin
              [0; 1] [] Layout.isolatedStore 1 3 eq_refl)
    as (st & st' & E & E' & _ & _ & _).
  exists st, st'.
  vm_compute in E. injection E as <-.
  vm_compute in E'. injection E' as <-.
  vm_compute. reflexivity.
Defined.

(** * Further properties *)

(** ** Strings: white space and substrings *)

Lemma trimStart_blank_aux (n : nat) :
  forall s,
    String.length s <= n ->
    Js.blank (Js.trimStart s) = Js.blank s
    /\ Js.truthy (Js.trimStart s) = negb (Js.blank s).
Proof.
  induction n as [|n IH]; intros s Hlen.
  - destruct s; [split; reflexivity | simpl in Hlen; lia].
  - destruct s as [|c1 s1]; [split; reflexivity|].
    cbn [String.length] in Hlen.
    cbn [Js.trimStart Js.blank].
    destruct (Js.isWhiteSpace c1) eqn:E1; [apply IH; lia|].
    destruct s1 as [|c2 s2].
    { cbn [Js.blank]. rewrite E1. split; reflexivity. }
    cbn [String.length] in Hlen.
    destruct (Js.isWhiteSpace2 c1 c2) eqn:E2; [apply IH; lia|].
    destruct s2 as [|c3 s3].
    { cbn [Js.blank]. rewrite E1, E2. split; reflexivity. }
    cbn [String.length] in Hlen.
    destruct (Js.isWhiteSpace3 c1 c2 c3) eqn:E3; [apply IH; lia|].
    cbn [Js.blank]. rewrite E1, E2, E3. split; reflexivity.
Qed.

Lemma blank_trimStart (s : string) :
  Js.blank (Js.trimStart s) = Js.blank s.
Proof. apply (trimStart_blank_aux (String.length s)). lia. Qed.

Lemma truthy_trimEnd (s : string) :
  Js.truthy (Js.trimEnd s) = negb (Js.blank s).
Proof.
  destruct s as [|c s]; [reflexivity|].
  cbn [Js.trimEnd]. destruct (Js.blank (String c s)); reflexivity.
Qed.

(** A string trims to the empty string exactly when it is blank. *)
Lemma truthy_trim (s : string) :
  Js.truthy (Js.trim s) = negb (JsText.blank s).
Proof.
  unfold Js.trim, JsText.blank. rewrite truthy_trimEnd, blank_trimStart.
  reflexivity.
Qed.

Lemma trim_length_zero (s : string) :
  (String.length (Js.trim s) =? 0)%nat = JsText.blank s.
Proof.
  pose proof (truthy_trim s) as H.
  destruct (Js.trim s); simpl in *; destruct (JsText.blank s);
    simpl in H; congruence.
Qed.

Lemma ascii_of_code (c : ascii) (n : N) :
  N_of_ascii c = n -> c = ascii_of_N n.
Proof. intros <-. symmetry. apply ascii_N_embedding. Qed.

Lemma isWhiteSpace_In (c : ascii) :
  Js.isWhiteSpace c = true -> In (String c "") JsText.whiteSpace.
Proof.
  intros H. apply existsb_eqb_In. revert H.
  destruct c as [[] [] [] [] [] [] [] []]; vm_compute; congruence.
Qed.

Lemma isWhiteSpace2_In (c1 c2 : ascii) :
  Js.isWhiteSpace2 c1 c2 = true ->
  In (String c1 (String c2 "")) JsText.whiteSpace.
Proof.
  unfold Js.isWhiteSpace2. intros H.
  apply andb_true_iff in H as [H1 H2].
  apply N.eqb_eq, ascii_of_code in H1. apply N.eqb_eq, ascii_of_code in H2.
  subst. apply existsb_eqb_In. vm_compute. reflexivity.
Qed.

Lemma isWhiteSpace3_In (c1 c2 c3 : ascii) :
  Js.isWhiteSpace3 c1 c2 c3 = true ->
  In (String c1 (String c2 (String c3 ""))) JsText.whiteSpace.
Proof.
  unfold Js.isWhiteSpace3. cbv zeta. intros H.
  assert (Hcases :
            ((N_of_ascii c1 = 225 /\ N_of_ascii c2 = 154
              /\ N_of_ascii c3 = 128)
             \/ (N_of_ascii c1 = 226 /\ N_of_ascii c2 = 128
                 /\ (128 <= N_of_ascii c3 <= 138 \/ N_of_ascii c3 = 168
                     \/ N_of_ascii c3 = 169 \/ N_of_ascii c3 = 175))
             \/ (N_of_ascii c1 = 226 /\ N_of_ascii c2 = 129
                 /\ N_of_ascii c3 = 159)
             \/ (N_of_ascii c1 = 227 /\ N_of_ascii c2 = 128
                 /\ N_of_ascii c3 = 128)
             \/ (N_of_ascii c1 = 239 /\ N_of_ascii c2 = 187
                 /\ N_of_ascii c3 = 191))%N).
  { repeat rewrite ?orb_true_iff, ?andb_true_iff, ?N.eqb_eq, ?N.leb_le in H.
    lia. }
  assert (Hdone : forall n1 n2 n3 : N,
             N_of_ascii c1 = n1 -> N_of_ascii c2 = n2 -> N_of_ascii c3 = n3 ->
             existsb
               (String.eqb
                  (String (ascii_of_N n1)
                     (String (ascii_of_N n2) (String (ascii_of_N n3) ""))))
               JsText.whiteSpace = true ->
             In (String c1 (String c2 (String c3 ""))) JsText.whiteSpace).
  { intros n1 n2 n3 H1 H2 H3 Hin.
    apply ascii_of_code in H1, H2, H3. subst. apply existsb_eqb_In. exact Hin. }
  destruct Hcases as [(H1 & H2 & H3) | [(H1 & H2 & H3) | [(H1 & H2 & H3)
                     | [(H1 & H2 & H3) | (H1 & H2 & H3)]]]].
  - apply (Hdone _ _ _ H1 H2 H3). vm_compute. reflexivity.
  - assert (Hn : (N_of_ascii c3 = 128 \/ N_of_ascii c3 = 129
                  \/ N_of_ascii c3 = 130 \/ N_of_ascii c3 = 131
                  \/ N_of_ascii c3 = 132 \/ N_of_ascii c3 = 133
                  \/ N_of_ascii c3 = 134 \/ N_of_ascii c3 = 135
                  \/ N_of_ascii c3 = 136 \/ N_of_ascii c3 = 137
                  \/ N_of_ascii c3 = 138 \/ N_of_ascii c3 = 168
                  \/ N_of_ascii c3 = 169 \/ N_of_ascii c3 = 175)%N) by lia.
    repeat (destruct Hn as [Hn | Hn];
            [apply (Hdone _ _ _ H1 H2 Hn); vm_compute; reflexivity|]).
    apply (Hdone _ _ _ H1 H2 Hn). vm_compute. reflexivity.
  - apply (Hdone _ _ _ H1 H2 H3). vm_compute. reflexivity.
  - apply (Hdone _ _ _ H1 H2 H3). vm_compute. reflexivity.
  - apply (Hdone _ _ _ H1 H2 H3). vm_compute. reflexivity.
Qed.

Lemma blank_parts_aux (n : nat) :
  forall s,
    String.length s <= n ->
    Js.blank s = true ->
    exists parts,
      Forall (fun part => In part JsText.whiteSpace) parts
      /\ s = JsText.joined parts.
Proof.
  induction n as [|n IH]; intros s Hlen Hb.
  - destruct s; [|simpl in Hlen; lia]. exists []. split; [constructor|].
    reflexivity.
  - destruct s as [|c1 s1].
    { exists []. split; [constructor | reflexivity]. }
    cbn [String.length] in Hlen. cbn [Js.blank] in Hb.
    destruct (Js.isWhiteSpace c1) eqn:E1.
    { destruct (IH s1 ltac:(lia) Hb) as (parts & Hall & ->).
      exists (String c1 "" :: parts). split; [|reflexivity].
      constructor; [apply isWhiteSpace_In; exact E1 | exact Hall]. }
    destruct s1 as [|c2 s2]; [discriminate|].
    cbn [String.length] in Hlen.
    destruct (Js.isWhiteSpace2 c1 c2) eqn:E2.
    { destruct (IH s2 ltac:(lia) Hb) as (parts & Hall & ->).
      exists (String c1 (String c2 "") :: parts). split; [|reflexivity].
      constructor; [apply isWhiteSpace2_In; exact E2 | exact Hall]. }
    destruct s2 as [|c3 s3]; [discriminate|].
    cbn [String.length] in Hlen.
    destruct (Js.isWhiteSpace3 c1 c2 c3) eqn:E3; [|discriminate].
    destruct (IH s3 ltac:(lia) Hb) as (parts & Hall & ->).
    exists (String c1 (String c2 (String c3 "")) :: parts).
    split; [|reflexivity].
    constructor; [apply isWhiteSpace3_In; exact E3 | exact Hall].
Qed.

Lemma blank_whiteSpace_app (part s : string) :
  In part JsText.whiteSpace ->
  Js.blank (part ++ s)%string = Js.blank s.
Proof.
  intros Hin. unfold JsText.whiteSpace, JsText.whiteSpaceCodePoints in Hin.
  cbn [map] in Hin.
  repeat (destruct Hin as [<- | Hin]; [reflexivity|]).
  destruct Hin.
Qed.

(** A string is blank exactly when it is made of white space and line
    terminators of ECMAScript. *)
Lemma blank_spec (s : string) :
  JsText.blank s = true <->
  exists parts,
    Forall (fun part => In part JsText.whiteSpace) parts
    /\ s = JsText.joined parts.
Proof.
  unfold JsText.blank. split.
  - apply (blank_parts_aux (String.length s)). lia.
  - intros (parts & Hall & ->).
    induction Hall as [|part parts Hin _ IH]; [reflexivity|].
    cbn [JsText.joined fold_right].
    rewrite blank_whiteSpace_app by exact Hin. exact IH.
Qed.

Lemma startsWith_spec (units search : list N) :
  JsText.startsWith units search = true <->
  exists rest, units = search ++ rest.
Proof.
  revert units; induction search as [|a search IH]; intros units.
  - split; [intros _; exists units; reflexivity | intros _; destruct units; reflexivity].
  - destruct units as [|b units]; cbn [JsText.startsWith].
    + split; [discriminate | intros [rest H]; discriminate].
    + rewrite andb_true_iff, IH, N.eqb_eq. split.
      * intros [-> [rest ->]]. exists rest. reflexivity.
      * intros [rest H]. injection H as -> ->. split; [reflexivity|].
        exists rest. reflexivity.
Qed.

(** [includes] holds exactly when the code units of the one string occur,
    in a row, among those of the other. *)
Lemma includes_spec (s search : string) :
  JsText.includes s search = true <->
  exists before after,
    JsText.codeUnits s = before ++ JsText.codeUnits search ++ after.
Proof.
  unfold JsText.includes.
  generalize (JsText.codeUnits s) as units.
  generalize (JsText.codeUnits search) as wanted.
  intros wanted units. induction units as [|c units IH].
  - cbn [JsText.occursIn]. rewrite orb_false_r, startsWith_spec. split.
    + intros [rest H]. exists [], rest. exact H.
    + intros (before & after & H). destruct before; cbn [app] in H.
      * exists after. exact H.
      * discriminate.
  - cbn [JsText.occursIn]. rewrite orb_true_iff, startsWith_spec, IH. split.
    + intros [[rest H] | (before & after & H)].
      * exists [], rest. exact H.
      * exists (c :: before), after. cbn [app]. rewrite H. reflexivity.
    + intros (before & after & H). destruct before as [|c' before];
        cbn [app] in H.
      * left. exists after. exact H.
      * right. injection H as _ H. exists before, after. exact H.
Qed.

Section FilterFacts.
Variable schemaNameToSchemaId : string -> string.
Variable toLowerCase : string -> string.

Local Abbreviation filteredTables :=
  (TablesSection.filteredTables schemaNameToSchemaId toLowerCase).

(** X3: the side panel lists a table exactly when the schema filter shows
    it (no filter is set, or the table has no schema or an empty one, or
    the identifier of its schema is among the filtered schemas) and its
    name matches the filter text: the text is made of white space and line
    terminators only, or the code units of its lower case occur, in a row,
    among those of the lower case of the name. *)
Theorem filteredTables_spec
    (tables : list DBTable.t) (text : string)
    (filteredSchemas : option (list string)) (table : DBTable.t) :
  In table (filteredTables tables text filteredSchemas) <->
  In table tables
  /\ (filteredSchemas = None
      \/ DBTable.schema table = None
      \/ DBTable.schema table = Some ""
      \/ exists schemas schema,
           filteredSchemas = Some schemas
           /\ DBTable.schema table = Some schema
           /\ In (schemaNameToSchemaId schema) schemas)
  /\ ((exists parts,
         Forall (fun part => In part JsText.whiteSpace) parts
         /\ text = JsText.joined parts)
      \/ exists before after,
           JsText.codeUnits (toLowerCase (DBTable.name table))
           = before ++ JsText.codeUnits (toLowerCase text) ++ after).
Proof.
  unfold TablesSection.filteredTables.
  rewrite !filter_In.
  unfold TablesSection.filterSchema, TablesSection.filterTableName,
    TablesSection.shouldShowTablesBySchemaFilter.
  rewrite truthy_trim, negb_involutive, orb_true_iff, includes_spec,
    blank_spec.
  split.
  - intros [[Hin Hs] Hn]. split; [exact Hin|]. split; [|exact Hn].
    destruct filteredSchemas as [schemas|]; [|left; reflexivity].
    right. destruct (DBTable.schema table) as [schema|]; [|left; reflexivity].
    right. destruct schema as [|c schema]; [left; reflexivity|].
    right. simpl in Hs. apply existsb_exists in Hs as (x & Hx & E).
    apply String.eqb_eq in E. subst x.
    exists schemas, (String c schema). auto.
  - intros (Hin & Hs & Hn). split; [split; [exact Hin|]|exact Hn].
    destruct filteredSchemas as [schemas|]; [|reflexivity].
    destruct Hs as [Hs | [Hs | [Hs | (schemas' & schema & E & Hs & Hi)]]].
    + discriminate.
    + rewrite Hs. reflexivity.
    + rewrite Hs. reflexivity.
    + injection E as <-. rewrite Hs. apply orb_true_iff. right.
      apply existsb_exists. exists (schemaNameToSchemaId schema).
      split; [exact Hi|]. simpl. apply String.eqb_refl.
Qed.

End FilterFacts.

(** ** The import dialog *)

Section DialogFacts.
Variable Json : Type.
Variable parse : string -> option Json.
Variable isDatabaseMetadata : Json -> bool.

(** X4: the import button is disabled exactly when a click on it would not
    import, whatever the error message and the script result are. *)
Theorem import_button_disabled_iff_click_ignored
    (errorMessage scriptResult : string) :
  ImportDatabase.importDisabled errorMessage scriptResult
  = negb (ImportDatabase.handleImport errorMessage scriptResult).
Proof.
  unfold ImportDatabase.importDisabled, ImportDatabase.handleImport.
  destruct errorMessage; simpl;
    destruct (String.length (Js.trim scriptResult)); reflexivity.
Qed.

(** X5: once the validation effect has run on the script result, a click on
    the button imports if and only if the result is not blank and parses to
    database metadata. *)
Theorem import_iff_valid_metadata (scriptResult : string) :
  ImportDatabase.handleImport
    (ImportDatabase.validate Json parse isDatabaseMetadata scriptResult)
    scriptResult = true
  <-> JsText.blank scriptResult = false
      /\ exists parsedResult,
           parse scriptResult = Some parsedResult
           /\ isDatabaseMetadata parsedResult = true.
Proof.
  unfold ImportDatabase.handleImport, ImportDatabase.validate.
  rewrite trim_length_zero.
  destruct (JsText.blank scriptResult); simpl.
  - split; [discriminate | intros [H _]; discriminate].
  - destruct (parse scriptResult) as [j|]; simpl.
    + destruct (isDatabaseMetadata j) eqn:E; simpl.
      * split; [intros _; split; [reflexivity | exists j; auto] | reflexivity].
      * split; [discriminate|].
        intros [_ (j' & Hj & Hm)]. injection Hj as <-. congruence.
    + split; [discriminate|]. intros [_ (j' & Hj & _)]. discriminate.
Qed.

End DialogFacts.

(** X6: the toggle of the database editions and the tabs of the database
    clients show the state they set: every value but the empty string
    survives the round trip through the state, and so does every state but
    the empty string and the value that stands for no choice. *)
Theorem toggle_value_round_trip (value : string) (choice : option string) :
  value <> "" ->
  choice <> Some "" ->
  ImportDatabase.editionValue (ImportDatabase.editionOfValue value) = value
  /\ ImportDatabase.clientValue (ImportDatabase.clientOfValue value) = value
  /\ (choice <> Some "regular" ->
      ImportDatabase.editionOfValue (ImportDatabase.editionValue choice)
      = choice)
  /\ (choice <> Some "dbclient" ->
      ImportDatabase.clientOfValue (ImportDatabase.clientValue choice)
      = choice).
Proof.
  intros Hv Hc.
  unfold ImportDatabase.editionValue, ImportDatabase.editionOfValue,
    ImportDatabase.clientValue, ImportDatabase.clientOfValue.
  repeat split.
  - destruct (String.eqb value "regular") eqn:E;
      cbn [Js.truthyOpt Js.truthy negb Js.render].
    + apply String.eqb_eq in E. congruence.
    + destruct value; [congruence | reflexivity].
  - destruct (String.eqb value "dbclient") eqn:E;
      cbn [Js.truthyOpt Js.truthy negb Js.render].
    + apply String.eqb_eq in E. congruence.
    + destruct value; [congruence | reflexivity].
  - intros Hr. destruct choice as [[|c s]|];
      cbn [Js.truthyOpt Js.truthy negb Js.render];
      [congruence | | reflexivity].
    destruct (String.eqb (String c s) "regular") eqn:E; [|reflexivity].
    apply String.eqb_eq in E. congruence.
  - intros Hr. destruct choice as [[|c s]|];
      cbn [Js.truthyOpt Js.truthy negb Js.render];
      [congruence | | reflexivity].
    destruct (String.eqb (String c s) "dbclient") eqn:E; [|reflexivity].
    apply String.eqb_eq in E. congruence.
Qed.

Lemma toggle_value_round_trip_witness :
  ImportDatabase.editionValue (ImportDatabase.editionOfValue "regular")
  = "regular"
  /\ ImportDatabase.clientOfValue
       (ImportDatabase.clientValue (Some "psql")) = Some "psql".
Proof.
  pose proof (toggle_value_round_trip "regular" (Some "psql")
                ltac:(discriminate) ltac:(discriminate)) as (H1 & _ & _ & H4).
  split; [exact H1 | apply H4; discriminate].
Defined.

(** ** The export of a diagram *)




Lemma filter_length_or {A : Type} (f g : A -> bool) (l : list A) :
  (forall a, In a l -> f a = true -> g a = false) ->
  length (List.filter (fun a => f a || g a) l)
  = length (List.filter f l) + length (List.filter g l).
Proof.
  induction l as [|a l IH]; intros H; simpl; [reflexivity|].
  assert (Hl : forall b, In b l -> f b = true -> g b = false)
    by (intros b Hb; apply H; right; exact Hb).
  specialize (IH Hl).
  destruct (f a) eqn:Ef; simpl.
  - rewrite (H a (or_introl eq_refl) Ef). simpl. rewrite IH. reflexivity.
  - destruct (g a); simpl; rewrite IH; lia.
Qed.

(** The relationships whose target is a table of the diagram. *)
Lemma foreignKeys_count (d : ExportImage.diagram) (tables : list DBTable.t) :
  NoDup (map DBTable.id tables) ->
  length
    (flat_map (fun table => ExportImage.foreignKeys (ExportImage.exportTable d table))
       tables)
  = length
      (List.filter
         (fun rel =>
            existsb
              (fun table =>
                 String.eqb (DBRelationship.targetTableId rel)
                   (DBTable.id table))
              tables)
         (ExportImage.relationships d)).
Proof.
  induction tables as [|table tables IH]; intros Hnd.
  - simpl. induction (ExportImage.relationships d); simpl; auto.
  - cbn [flat_map map] in *. apply NoDup_cons_iff in Hnd as [Hnotin Hnd].
    rewrite length_app, IH by exact Hnd.
    cbn [ExportImage.exportTable ExportImage.foreignKeys].
    rewrite length_map. unfold ExportImage.incoming.
    cbn [existsb]. symmetry.
    apply (filter_length_or
             (fun rel => String.eqb (DBRelationship.targetTableId rel)
                           (DBTable.id table))).
    intros rel _ E. apply String.eqb_eq in E.
    apply not_true_is_false. intros Hex.
    apply existsb_exists in Hex as (t' & Hin & E').
    apply String.eqb_eq in E'. apply Hnotin.
    apply in_map_iff. exists t'. split; [congruence | exact Hin].
Qed.

(** X8: when the tables of a diagram have distinct identifiers, every
    relationship whose target is a table of the diagram is exported as one
    foreign key, under the entity of that table, and a relationship whose
    target is no table of the diagram is exported nowhere. *)
Theorem foreign_keys_hang_on_their_target (d : ExportImage.diagram) :
  NoDup (map DBTable.id (ExportImage.tables d)) ->
  Forall2
    (fun table entity =>
       Forall2
         (fun rel key =>
            In rel (ExportImage.relationships d)
            /\ DBRelationship.targetTableId rel = DBTable.id table
            /\ key = ExportImage.exportForeignKey d table rel)
         (ExportImage.incoming d table)
         (ExportImage.foreignKeys entity))
    (ExportImage.tables d) (ExportImage.transformDiagram d)
  /\ length (flat_map ExportImage.foreignKeys (ExportImage.transformDiagram d))
     = length
         (List.filter
            (fun rel =>
               existsb
                 (fun table =>
                    String.eqb (DBRelationship.targetTableId rel)
                      (DBTable.id table))
                 (ExportImage.tables d))
            (ExportImage.relationships d)).
Proof.
  intros Hnd. split.
  - unfold ExportImage.transformDiagram. clear Hnd.
    induction (ExportImage.tables d) as [|table tables IH]; cbn [map];
      constructor; [|exact IH].
    cbn [ExportImage.exportTable ExportImage.foreignKeys].
    assert (Hall : Forall
                     (fun rel =>
                        In rel (ExportImage.relationships d)
                        /\ DBRelationship.targetTableId rel = DBTable.id table)
                     (ExportImage.incoming d table)).
    { apply Forall_forall. intros rel Hin.
      apply filter_In in Hin as [Hin E]. apply String.eqb_eq in E. auto. }
    induction Hall as [|rel rels [H1 H2] _ IHr]; cbn [map]; constructor; auto.
  - rewrite <- foreignKeys_count by exact Hnd.
    unfold ExportImage.transformDiagram. rewrite flat_map_concat_map, map_map.
    rewrite <- flat_map_concat_map. reflexivity.
Qed.

Lemma foreign_keys_hang_on_their_target_witness :
  length
    (flat_map ExportImage.foreignKeys
       (ExportImage.transformDiagram ExportImage.sampleDiagram))
  = 1.
Proof.
  refine (eq_trans
            (proj2 (foreign_keys_hang_on_their_target
                      ExportImage.sampleDiagram _)) _).
  - repeat (constructor; [vm_compute; intuition discriminate|]). constructor.
  - reflexivity.
Defined.

Lemma Forall2_map_r {A B C : Type} (R : A -> C -> Prop) (f : B -> C)
    (l : list A) (l' : list B) :
  Forall2 (fun a b => R a (f b)) l l' -> Forall2 R l (map f l').
Proof. induction 1; cbn [map]; constructor; auto. Qed.

(** X9: the entities exported for the tables that the normalizer builds
    owe their name, their flags and their columns to the metadata alone:
    there is one entity per table descriptor, in order, with the name and
    the flags of the descriptor, and its columns come, in order, from the
    columns that match the descriptor (same normalised schema, same table
    name) and are the first of their name, in ascending and stable order
    of ordinal position; a column has the name of its descriptor, the
    mapped type of its raw type, is required exactly when it is not
    nullable, and is a primary key exactly when its name is the trimmed
    column of a primary-key descriptor of the table.  The identifiers, the
    clock and the random source leave no trace in them.  (The foreign keys
    of an entity go by the generated identifiers and are not part of the
    statement; no entity is exported when the normalizer throws, which it
    does only on an index row with an inherited key.) *)
Theorem export_of_import
    (amb : Ambient.t) (normalise : option string -> option string)
    (md : Normalizer.metadata) (w : Ambient.World amb)
    (relationships : list DBRelationship.t) :
  match Normalizer.createTablesFromMetadata amb normalise md w with
  | Js.Normal (built, _) =>
      Forall2
        (fun ti entity =>
           let matching :=
             List.filter
               (fun col =>
                  Js.optEqb (normalise (ColumnInfo.schema col))
                    (normalise (TableInfo.schema ti))
                  && String.eqb (ColumnInfo.table col) (TableInfo.table ti))
               (Normalizer.columns md) in
           ExportImage.tableName entity = TableInfo.table ti
           /\ ExportImage.name entity = TableInfo.table ti
           /\ ExportImage.auditable entity = TableInfo.auditable ti
           /\ ExportImage.revisionEnabled entity
              = TableInfo.revisionEnabled ti
           /\ exists cols,
                (forall col,
                   In col cols <-> Normalizer.firstOfItsName col matching)
                /\ StronglySorted
                     (fun a b =>
                        (ColumnInfo.ordinal_position a
                         <= ColumnInfo.ordinal_position b)%Z)
                     cols
                /\ (forall k,
                      List.filter
                        (fun c => (ColumnInfo.ordinal_position c =? k)%Z)
                        cols
                      = List.filter
                          (fun c => (ColumnInfo.ordinal_position c =? k)%Z)
                          (Normalizer.dedupByName [] matching))
                /\ Forall2
                     (fun col column =>
                        ExportImage.columnName column = ColumnInfo.name col
                        /\ ExportImage.type column
                           = ExportImage.mappedType (ColumnInfo.type col)
                        /\ ExportImage.required column
                           = negb (ColumnInfo.nullable col)
                        /\ (ExportImage.primaryKey column = true <->
                            exists pk,
                              In pk (Normalizer.primaryKeys md)
                              /\ PrimaryKeyInfo.table pk
                                 = TableInfo.table ti
                              /\ normalise (PrimaryKeyInfo.schema pk)
                                 = normalise (TableInfo.schema ti)
                              /\ Js.trim (PrimaryKeyInfo.column pk)
                                 = ColumnInfo.name col))
                     cols (ExportImage.columns entity))
        (Normalizer.tableInfos md)
        (ExportImage.transformDiagram
           {| ExportImage.tables := built;
              ExportImage.relationships := relationships |})
  | Js.Abrupt _ => Normalizer.hasInheritedKey normalise md
  end.
Proof.
  pose proof (tables_built amb normalise md w) as H.
  destruct (Normalizer.createTablesFromMetadata amb normalise md w)
    as [[built w']|e]; [|exact H].
  destruct H as [H _].
  unfold ExportImage.transformDiagram. cbn [ExportImage.tables].
  apply Forall2_map_r.
  eapply Forall2_impl; [|exact H].
  intros ti tb (Hname & _ & _ & Haud & Hrev & Hfields & _). cbv zeta.
  cbn [ExportImage.exportTable ExportImage.tableName ExportImage.name
         ExportImage.auditable ExportImage.revisionEnabled
         ExportImage.columns].
  repeat (split; [assumption|]).
  exists (Normalizer.sortedColumns normalise md ti).
  change (List.filter _ (Normalizer.columns md))
    with (Normalizer.matchingColumns normalise md ti).
  unfold Normalizer.sortedColumns, Normalizer.uniqueColumns in *.
  rewrite collectUnique_dedup in *.
  split; [|split; [|split]].
  - intros col. rewrite sortBy_In. apply dedupByName_first.
  - apply sortBy_sorted.
  - intros k. apply sortBy_stable.
  - apply Forall2_map_r. eapply Forall2_impl; [|exact Hfields].
    intros col f [w'' ->].
    destruct (buildField_members amb normalise md ti
                (accumulated (Normalizer.tableIndexes normalise md ti))
                col w'')
      as ((Hn & Ht & Hnull) & Hpk & _).
    unfold ExportImage.exportColumn.
    cbn [ExportImage.columnName ExportImage.type ExportImage.required
           ExportImage.primaryKey].
    rewrite Hn, Ht, Hnull, Hpk, existsb_eqb_In.
    repeat (split; [reflexivity|]).
    apply tablePrimaryKeys_In.
Qed.

Section UploadFacts.
Variable Json : Type.
Variable stringify : list ExportImage.entity -> string.
Variable fetch :
  ExportImage.request -> TokenManager.outcome (ExportImage.response Json).

Local Abbreviation exportJsonApi :=
  (ExportImage.exportJsonApi Json stringify fetch).

(** X10: the upload needs a token.  Without one (never set, cleared, or set
    to the empty string) nothing is sent, and the failure is logged; with
    one, exactly one request is sent: a POST to the bulk endpoint with
    the content type of JSON, the header [Authorization: Bearer] followed
    by the token, and the transformed diagram, stringified, as its body;
    its outcome is logged, as a success only when the response is ok and
    its body is read. *)
Theorem upload_needs_a_token
    (token : string) (tm : TokenManager.t) (d : ExportImage.diagram) :
  token <> "" ->
  let unset := [ExportImage.ConsoleError Json "Error:" "No token set"] in
  let req :=
    {| ExportImage.url := "http://124.109.36.79:8080/api/v1/entity/bulk";
       ExportImage.method := "POST";
       ExportImage.headers :=
         [ ("Content-Type", "application/json");
           ("Authorization", ("Bearer " ++ token)%string) ];
       ExportImage.body := stringify (ExportImage.transformDiagram d) |} in
  exportJsonApi TokenManager.create d = unset
  /\ exportJsonApi (TokenManager.clearToken tm) d = unset
  /\ exportJsonApi (ExportImage.setAuthToken "" tm) d = unset
  /\ exists logged,
       exportJsonApi (ExportImage.setAuthToken token tm) d
       = [ExportImage.Fetch Json req; logged]
       /\ ExportImage.requests Json [logged] = []
       /\ forall label data,
            logged = ExportImage.ConsoleLog Json label data <->
            label = "Success:"
            /\ exists resp,
                 fetch req = TokenManager.Return resp
                 /\ ExportImage.ok Json resp = true
                 /\ ExportImage.json Json resp = TokenManager.Return data.
Proof.
  intros Ht unset req. repeat split; try reflexivity.
  unfold ExportImage.exportJsonApi, ExportImage.setAuthToken.
  rewrite getToken_after_set.
  destruct token as [|c token]; [congruence|]. cbn [Js.truthy].
  change (ExportImage.bulkRequest (String c token)
            (stringify (ExportImage.transformDiagram d))) with req.
  destruct (fetch req) as [resp|e] eqn:Ef.
  - destruct (ExportImage.ok Json resp) eqn:Eok; cbn [negb].
    + destruct (ExportImage.json Json resp) as [data|e] eqn:Ej.
      * eexists; split; [reflexivity|]. split; [reflexivity|].
        intros label data'. split.
        -- intros H. injection H as <- <-. split; [reflexivity|].
           exists resp. auto.
        -- intros [-> (resp' & Hr & _ & Hj)].
           injection Hr as <-. rewrite Ej in Hj. injection Hj as <-.
           reflexivity.
      * eexists; split; [reflexivity|]. split; [reflexivity|].
        intros label data'. split; [discriminate|].
        intros [_ (resp' & Hr & _ & Hj)]. injection Hr as <-. congruence.
    + eexists; split; [reflexivity|]. split; [reflexivity|].
      intros label data'. split; [discriminate|].
      intros [_ (resp' & Hr & Hok & _)]. injection Hr as <-. congruence.
  - eexists; split; [reflexivity|]. split; [reflexivity|].
    intros label data'. split; [discriminate|].
    intros [_ (resp' & Hr & _)]. discriminate.
Qed.

End UploadFacts.

Lemma upload_needs_a_token_witness :
  exists logged,
    ExportImage.exportJsonApi unit (fun _ => "[]")
      (fun _ =>
         TokenManager.Return
           {| ExportImage.ok := true;
              ExportImage.json := TokenManager.Return tt |})
      (ExportImage.setAuthToken "secret" TokenManager.create)
      ExportImage.sampleDiagram
    = [ExportImage.Fetch unit
         {| ExportImage.url := "http://124.109.36.79:8080/api/v1/entity/bulk";
            ExportImage.method := "POST";
            ExportImage.headers :=
              [ ("Content-Type", "application/json");
                ("Authorization", "Bearer secret") ];
            ExportImage.body := "[]" |};
       logged].
Proof.
  destruct (upload_needs_a_token unit (fun _ => "[]")
              (fun _ =>
                 TokenManager.Return
                   {| ExportImage.ok := true;
                      ExportImage.json := TokenManager.Return tt |})
              "secret" TokenManager.create ExportImage.sampleDiagram
              ltac:(discriminate))
    as (_ & _ & _ & logged & H & _).
  exists logged. exact H.
Defined.

(** ** More on the tables that the normalizer builds *)

Section BuiltFacts.
Variable amb : Ambient.t.
Variable normalise : option string -> option string.
Variable md : Normalizer.metadata.

Lemma tableFrom_view ti aggregated w :
  let tb := fst (Normalizer.tableFrom amb normalise md ti aggregated w) in
  DBTable.isView tb = Normalizer.tableIsView normalise md ti
  /\ (DBTable.isView tb = true -> DBTable.color tb = Ambient.greyColor amb)
  /\ (DBTable.isView tb = false ->
      exists w', DBTable.color tb = fst (Ambient.randomColor amb w')).
Proof.
  unfold Normalizer.tableFrom, Normalizer.bind, Normalizer.ret.
  destruct (Normalizer.mapM amb _ _ w) as [fields w1].
  destruct (Normalizer.mapM amb _ _ w1) as [dbIndexes w2].
  destruct (Ambient.generateId amb w2) as [id w3].
  destruct (Ambient.mathRandom amb w3) as [rx w4].
  destruct (Ambient.mathRandom amb w4) as [ry w5].
  destruct (Normalizer.tableIsView normalise md ti).
  - destruct (Ambient.dateNow amb w5) as [now w6]. simpl.
    split; [reflexivity|]. split; [intros _; reflexivity | discriminate].
  - destruct (Ambient.randomColor amb w5) as [color w6] eqn:Ec.
    destruct (Ambient.dateNow amb w6) as [now w7]. simpl.
    split; [reflexivity|]. split; [discriminate|].
    intros _. exists w5. rewrite Ec. reflexivity.
Qed.

Lemma tableIsView_spec ti :
  Normalizer.tableIsView normalise md ti = true <->
  exists view,
    In view (Normalizer.views md)
    /\ normalise (ViewInfo.schema view) = normalise (TableInfo.schema ti)
    /\ ViewInfo.view_name view = TableInfo.table ti.
Proof.
  unfold Normalizer.tableIsView. rewrite existsb_exists.
  split; intros (view & Hin & H); exists view; (split; [exact Hin|]).
  - apply andb_true_iff in H as [H1 H2].
    apply optEqb_eq in H1. apply String.eqb_eq in H2. auto.
  - destruct H as [H1 H2]. apply andb_true_iff. split.
    + apply optEqb_eq. exact H1.
    + apply String.eqb_eq. exact H2.
Qed.

(** X11: a built table is a view exactly when a view descriptor has its
    name and its normalized schema; a view gets the grey colour, and every
    other table a colour of the random picker.  (No table is built when
    the normalizer throws, which it does only on an index row with an
    inherited key.) *)
Theorem views_are_detected_and_grey (w : Ambient.World amb) :
  match Normalizer.createTablesFromMetadata amb normalise md w with
  | Js.Normal (tables, _) =>
  Forall2
    (fun ti tb =>
       (DBTable.isView tb = true <->
        exists view,
          In view (Normalizer.views md)
          /\ normalise (ViewInfo.schema view)
             = normalise (TableInfo.schema ti)
          /\ ViewInfo.view_name view = TableInfo.table ti)
       /\ (DBTable.isView tb = true ->
           DBTable.color tb = Ambient.greyColor amb)
       /\ (DBTable.isView tb = false ->
           exists w', DBTable.color tb = fst (Ambient.randomColor amb w')))
    (Normalizer.tableInfos md) tables
  | Js.Abrupt _ => Normalizer.hasInheritedKey normalise md
  end.
Proof.
  pose proof (tables_built amb normalise md w) as H.
  destruct (Normalizer.createTablesFromMetadata amb normalise md w)
    as [[tables w0]|e]; [|exact H].
  destruct H as [H _]. eapply Forall2_impl; [|exact H].
  intros ti tb (_ & _ & _ & _ & _ & _ & _ & w' & ->).
  destruct (tableFrom_view ti
              (accumulated (Normalizer.tableIndexes normalise md ti)) w')
    as (Hv & Hg & Hr).
  split; [|split; assumption].
  rewrite Hv. apply tableIsView_spec.
Qed.

Lemma resolveFieldIds_In (fields : list DBField.t) (cols : list (string * Z))
    (id : string) :
  In id (Normalizer.resolveFieldIds fields cols) ->
  exists f c,
    In f fields /\ In c cols /\ DBField.id f = id /\ DBField.name f = fst c.
Proof.
  unfold Normalizer.resolveFieldIds. rewrite in_flat_map.
  intros (c & Hc & Hid).
  destruct (find _ fields) as [f|] eqn:E; [|destruct Hid].
  destruct Hid as [<-|[]]. apply find_some in E as [Hf Hn].
  apply String.eqb_eq in Hn. exists f, c. auto.
Qed.

Lemma resolveFieldIds_length (fields : list DBField.t)
    (cols : list (string * Z)) :
  length (Normalizer.resolveFieldIds fields cols) <= length cols.
Proof.
  unfold Normalizer.resolveFieldIds.
  induction cols as [|c cols IH]; cbn [flat_map]; [reflexivity|].
  rewrite length_app. destruct (find _ fields); simpl; lia.
Qed.

Lemma groupEntry_columns rows e c :
  Normalizer.groupEntry rows = Some e ->
  In c (Normalizer.indexColumns e) ->
  exists r, In r rows /\ Normalizer.columnOf r = c.
Proof.
  destruct rows as [|r rest]; [discriminate|].
  intros H. injection H as <-. cbn [Normalizer.indexColumns].
  intros Hc. change (In c (map Normalizer.columnOf (r :: rest))) in Hc.
  apply in_map_iff in Hc as (r' & E & Hr'). exists r'. auto.
Qed.

(** X12: the field identifiers of a built index never dangle: each is the
    identifier of a field of the same table, named as the column of an
    index row of that table (a row of the metadata with the name of the
    table and its normalized schema); and an index has no more fields than
    the table has index rows.  (No table is built when the normalizer
    throws, which it does only on an index row with an inherited key.) *)
Theorem index_fields_belong_to_the_table (w : Ambient.World amb) :
  match Normalizer.createTablesFromMetadata amb normalise md w with
  | Js.Normal (tables, _) =>
      Forall2
        (fun ti tb =>
           Forall
             (fun ix =>
                (forall id,
                   In id (DBIndex.fieldIds ix) ->
                   exists f r,
                     In f (DBTable.fields tb)
                     /\ DBField.id f = id
                     /\ In r (Normalizer.indexes md)
                     /\ IndexInfo.table r = TableInfo.table ti
                     /\ normalise (IndexInfo.schema r)
                        = normalise (TableInfo.schema ti)
                     /\ IndexInfo.column r = DBField.name f)
                /\ length (DBIndex.fieldIds ix)
                   <= length
                        (List.filter
                           (fun r =>
                              String.eqb (IndexInfo.table r)
                                (TableInfo.table ti)
                              && Js.optEqb (normalise (IndexInfo.schema r))
                                   (normalise (TableInfo.schema ti)))
                           (Normalizer.indexes md)))
             (DBTable.indexes tb))
        (Normalizer.tableInfos md) tables
  | Js.Abrupt _ => Normalizer.hasInheritedKey normalise md
  end.
Proof.
  pose proof (tables_built amb normalise md w) as H.
  destruct (Normalizer.createTablesFromMetadata amb normalise md w)
    as [[tables w0]|e]; [|exact H].
  destruct H as [H _]. eapply Forall2_impl; [|exact H].
  intros ti tb (_ & _ & _ & _ & _ & _ & Hix & _).
  change (List.filter _ (Normalizer.indexes md))
    with (Normalizer.tableIndexes normalise md ti).
  apply Forall_forall. intros ix Hin.
  destruct (Forall2_in_r _ _ _ _ Hix Hin) as (e & He & w' & ->).
  destruct (buildIndex_members amb (DBTable.fields tb) e w') as (_ & _ & ->).
  apply accumulated_entries in He as (r0 & Hr0 & Hg).
  split.
  - intros id Hid.
    apply resolveFieldIds_In in Hid as (f & c & Hf & Hc & Hfid & Hfn).
    apply sortBy_In in Hc.
    destruct (groupEntry_columns _ _ _ Hg Hc) as (r & Hr & <-).
    unfold Normalizer.keyGroup in Hr. apply filter_In in Hr as [Hr _].
    apply tableIndexes_In in Hr as (Hr1 & Hr2 & Hr3).
    exists f, r. repeat split; auto.
  - etransitivity; [apply resolveFieldIds_length|].
    rewrite sortBy_length.
    unfold Normalizer.keyGroup in Hg.
    destruct (List.filter _ _) as [|r rest] eqn:E; [discriminate|].
    injection Hg as <-. cbn [Normalizer.indexColumns].
    change (length (map Normalizer.columnOf (r :: rest))
            <= length (Normalizer.tableIndexes normalise md ti)).
    rewrite length_map, <- E. apply List.filter_length_le.
Qed.

Lemma buildField_optional ti aggregated col w :
  let f := fst (Normalizer.buildField amb normalise md ti aggregated col w) in
  DBField.character_maximum_length f <> Some ""
  /\ DBField.character_maximum_length f <> Some "null"
  /\ DBField.precision f <> Some 0%Z
  /\ DBField.scale f <> Some 0%Z
  /\ DBField.default f <> Some ""
  /\ DBField.collation f <> Some ""
  /\ DBField.comments f <> Some "".
Proof.
  unfold Normalizer.buildField, Normalizer.bind, Normalizer.ret.
  destruct (Ambient.generateId amb w) as [id w1].
  destruct (Ambient.dateNow amb w1) as [now w2].
  cbn [fst DBField.character_maximum_length DBField.precision DBField.scale
         DBField.default DBField.collation DBField.comments].
  assert (Hor : forall o, Js.orUndefined o <> Some "").
  { intros [[|c s]|]; unfold Js.orUndefined; simpl; congruence. }
  assert (Hnum : forall o : option Z,
             (if Js.truthyNum o then o else None) <> Some 0%Z).
  { intros [z|]; simpl; [|congruence].
    destruct (Z.eqb_spec z 0); simpl; congruence. }
  repeat split; try apply Hor.
  - destruct (ColumnInfo.character_maximum_length col) as [len|];
      [|congruence].
    destruct (Js.truthy len && negb (String.eqb len "null")) eqn:E;
      [|congruence].
    intros H. injection H as ->. discriminate E.
  - destruct (ColumnInfo.character_maximum_length col) as [len|];
      [|congruence].
    destruct (Js.truthy len && negb (String.eqb len "null")) eqn:E;
      [|congruence].
    intros H. injection H as ->. discriminate E.
  - destruct (ColumnInfo.precision col); [apply Hnum | congruence].
  - destruct (ColumnInfo.precision col); [apply Hnum | congruence].
Qed.

(** X13: an optional member of a built field never holds an empty value:
    reading the maximum length gives neither the empty string nor
    ['null'], reading the precision or the scale never gives zero, and
    reading the default, the collation or the comments never gives the
    empty string.  (The key [comments] is always written; for a column
    without a comment, or with an empty one, it holds [undefined].  No
    table is built when the normalizer throws, which it does only on an
    index row with an inherited key.) *)
Theorem optional_members_hold_no_empty_value (w : Ambient.World amb) :
  match Normalizer.createTablesFromMetadata amb normalise md w with
  | Js.Normal (tables, _) =>
      Forall
        (fun tb =>
           Forall
             (fun f =>
                DBField.character_maximum_length f <> Some ""
                /\ DBField.character_maximum_length f <> Some "null"
                /\ DBField.precision f <> Some 0%Z
                /\ DBField.scale f <> Some 0%Z
                /\ DBField.default f <> Some ""
                /\ DBField.collation f <> Some ""
                /\ DBField.comments f <> Some "")
             (DBTable.fields tb))
        tables
  | Js.Abrupt _ => Normalizer.hasInheritedKey normalise md
  end.
Proof.
  pose proof (tables_built amb normalise md w) as H.
  destruct (Normalizer.createTablesFromMetadata amb normalise md w)
    as [[tables w0]|e]; [|exact H].
  destruct H as [H _].
  apply Forall_forall. intros tb Hin.
  destruct (Forall2_in_r _ _ _ _ H Hin)
    as (ti & _ & _ & _ & _ & _ & _ & Hf & _).
  apply Forall_forall. intros f Hfin.
  destruct (Forall2_in_r _ _ _ _ Hf Hfin) as (col & _ & w' & ->).
  apply buildField_optional.
Qed.

End BuiltFacts.

(** ** The map of table connections *)

Lemma add_In (k b : string) (s : JsSet.t) :
  In b (JsSet.add k s) <-> In b s \/ b = k.
Proof.
  unfold JsSet.add. destruct (JsSet.has k s) eqn:E.
  - apply has_In in E. split; [auto|]. intros [H | ->]; assumption.
  - rewrite in_app_iff. simpl. intuition.
Qed.

Lemma add_NoDup (k : string) (s : JsSet.t) : NoDup s -> NoDup (JsSet.add k s).
Proof.
  intros H. unfold JsSet.add. destruct (JsSet.has k s) eqn:E; [exact H|].
  apply has_notIn in E.
  apply NoDup_app; [exact H | repeat constructor; auto |].
  intros x Hx [<-|[]]. contradiction.
Qed.

Import Graph.

Lemma neighbours_set k v m a :
  neighbours (JsMap.set k v m) a
  = if String.eqb k a then v else neighbours m a.
Proof.
  unfold neighbours. rewrite get_set. destruct (String.eqb k a); reflexivity.
Qed.

Lemma neighbours_ensure k (m : JsMap.t JsSet.t) a :
  neighbours (if negb (JsMap.has k m) then JsMap.set k [] m else m) a
  = neighbours m a.
Proof.
  unfold JsMap.has. destruct (JsMap.get k m) eqn:E; simpl; [reflexivity|].
  rewrite neighbours_set. destruct (String.eqb_spec k a) as [->|]; [|reflexivity].
  unfold neighbours. rewrite E. reflexivity.
Qed.

Lemma neighbours_connect m rel a :
  neighbours (Layout.connect m rel) a
  = let source := DBRelationship.sourceTableId rel in
    let target := DBRelationship.targetTableId rel in
    let afterSource id :=
      if String.eqb source id then JsSet.add target (neighbours m source)
      else neighbours m id in
    if String.eqb target a then JsSet.add source (afterSource target)
    else afterSource a.
Proof.
  unfold Layout.connect. cbv zeta.
  repeat change (default [] (JsMap.get ?k ?m')) with (neighbours m' k).
  rewrite !neighbours_set, !neighbours_ensure. reflexivity.
Qed.

Lemma connections_snoc rels rel :
  Layout.connections (rels ++ [rel])
  = Layout.connect (Layout.connections rels) rel.
Proof. unfold Layout.connections. rewrite fold_left_app. reflexivity. Qed.

Lemma neighbours_connections rels a b :
  In b (neighbours (Layout.connections rels) a) <->
  exists rel, In rel rels /\ joins rel a b.
Proof.
  induction rels as [|rel rels IH] using rev_ind.
  - simpl. split; [intros [] | intros (rel & [] & _)].
  - rewrite connections_snoc, neighbours_connect. cbv zeta.
    assert (Hsplit : (exists rel', In rel' (rels ++ [rel]) /\ joins rel' a b)
                     <-> (exists rel', In rel' rels /\ joins rel' a b)
                         \/ joins rel a b).
    { split.
      - intros (rel' & Hin & Hj). apply in_app_iff in Hin as [Hin | [<- | []]].
        + left. exists rel'. auto.
        + right. exact Hj.
      - intros [(rel' & Hin & Hj) | Hj].
        + exists rel'. split; [apply in_app_iff; left; exact Hin | exact Hj].
        + exists rel. split; [apply in_app_iff; right; left; reflexivity | exact Hj]. }
    rewrite Hsplit, <- IH. clear Hsplit IH. unfold joins.
    destruct (String.eqb_spec (DBRelationship.targetTableId rel) a) as [Et|Et];
      destruct (String.eqb_spec (DBRelationship.sourceTableId rel) a) as [Es|Es];
      try destruct (String.eqb_spec (DBRelationship.sourceTableId rel)
                      (DBRelationship.targetTableId rel)) as [Est|Est];
      rewrite ?add_In; subst; try rewrite Es in *; intuition congruence.
Qed.

Lemma neighbours_NoDup rels :
  forall a, NoDup (neighbours (Layout.connections rels) a).
Proof.
  induction rels as [|rel rels IH] using rev_ind; intros a.
  - constructor.
  - rewrite connections_snoc, neighbours_connect. cbv zeta.
    repeat match goal with
           | |- context [String.eqb ?x ?y] => destruct (String.eqb x y)
           end;
      repeat apply add_NoDup; apply IH.
Qed.

Lemma copied_objects {A : Type} `{Inhabited A} (objs : list A)
    (arr : list Layout.ref) :
  map (fun r => (objs ++ map (fun a => objs !!! a) arr) !!! r)
    (seq (length objs) (length arr))
  = map (fun a => objs !!! a) arr.
Proof.
  apply list_eq. intros i. rewrite !map_lookup.
  destruct (arr !! i) as [a|] eqn:Ea.
  - assert (Hi : i < length arr) by (eapply lookup_lt_Some; exact Ea).
    assert (Hs : seq (length objs) (length arr) !! i = Some (length objs + i))
      by (apply lookup_seq; auto).
    rewrite Hs. cbn [option_map]. f_equal.
    rewrite lookup_total_app_r by lia.
    replace (length objs + i - length objs) with i by lia.
    apply list_lookup_total_correct. rewrite map_lookup, Ea. reflexivity.
  - assert (Hi : length arr <= i) by (apply lookup_ge_None; exact Ea).
    destruct (seq (length objs) (length arr) !! i) as [j|] eqn:Es;
      [|reflexivity].
    apply lookup_seq in Es. lia.
Qed.

Lemma filterRelationships_In objs tables rels rel :
  In rel (Layout.filterRelationships objs tables rels) <->
  In rel rels
  /\ In (DBRelationship.sourceTableId rel) (idsOf objs tables)
  /\ In (DBRelationship.targetTableId rel) (idsOf objs tables).
Proof.
  unfold Layout.filterRelationships, idsOf.
  rewrite filter_In, andb_true_iff, !existsb_exists.
  setoid_rewrite in_map_iff. setoid_rewrite String.eqb_eq.
  split.
  - intros (Hin & (t1 & H1 & E1) & (t2 & H2 & E2)). eauto 10.
  - intros (Hin & (t1 & E1 & H1) & (t2 & E2 & H2)). eauto 10.
Qed.

Section PrepareFacts.
Variables inputTables inputRelationships : list Layout.ref.
Variable s : Layout.store.

Local Abbreviation p := (Layout.prepare inputTables inputRelationships s).

Lemma prepare_ids :
  idsOf (Layout.tableObjects (Layout.workStore p)) (Layout.tables p)
  = idsOf (Layout.tableObjects s) inputTables.
Proof.
  unfold idsOf.
  change (Layout.tables p)
    with (seq (length (Layout.tableObjects s)) (length inputTables)).
  change (Layout.tableObjects (Layout.workStore p))
    with (Layout.tableObjects s
          ++ map (fun a => Layout.tableObjects s !!! a) inputTables).
  rewrite <- (map_map (fun t => _ !!! t) DBTable.id), copied_objects, map_map.
  reflexivity.
Qed.

Lemma prepare_connections :
  Layout.tableConnections p
  = Layout.connections
      (Layout.filterRelationships
         (Layout.tableObjects (Layout.workStore p)) (Layout.tables p)
         (map (fun r => Layout.relationshipObjects s !!! r)
            inputRelationships)).
Proof.
  rewrite <- (copied_objects (Layout.relationshipObjects s) inputRelationships).
  reflexivity.
Qed.

(** X14: the connections of a table are the input tables that an input
    relationship joins it with, in either direction, each once however
    many relationships join the two; a relationship with an end that is no
    input table connects nothing. *)
Theorem connections_are_the_joined_tables (a b : string) :
  let ids := idsOf (Layout.tableObjects s) inputTables in
  (In b (neighbours (Layout.tableConnections p) a) <->
   In a ids /\ In b ids
   /\ exists r,
        In r inputRelationships
        /\ joins (Layout.relationshipObjects s !!! r) a b)
  /\ NoDup (neighbours (Layout.tableConnections p) a)
  /\ Layout.connectionCount (Layout.tableConnections p) a
     = length (neighbours (Layout.tableConnections p) a).
Proof.
  intros ids. split; [|split].
  - rewrite prepare_connections, neighbours_connections.
    setoid_rewrite filterRelationships_In. rewrite prepare_ids. fold ids.
    setoid_rewrite in_map_iff. split.
    + intros (rel & ((r & <- & Hr) & Hs & Ht) & Hj).
      assert (In a ids /\ In b ids) as [Ha Hb]
        by (destruct Hj as [[<- <-] | [<- <-]]; auto).
      eauto 10.
    + intros (Ha & Hb & r & Hr & Hj).
      exists (Layout.relationshipObjects s !!! r).
      split; [|exact Hj]. split; [eauto|].
      destruct Hj as [[-> ->] | [-> ->]]; auto.
  - rewrite prepare_connections. apply neighbours_NoDup.
  - unfold Layout.connectionCount, neighbours.
    destruct (JsMap.get a (Layout.tableConnections p)); reflexivity.
Qed.

Lemma StronglySorted_weaken {A : Type} (R R' : A -> A -> Prop) (l : list A) :
  (forall a b, R a b -> R' a b) -> StronglySorted R l -> StronglySorted R' l.
Proof.
  intros H. induction 1 as [|a l Hs IH Hf]; constructor; [exact IH|].
  eapply Forall_impl; [|exact Hf]. intros b. apply H.
Qed.

Lemma sortBy_sorted_id {A : Type} (key : A -> Z) (l : list A) :
  StronglySorted (keyLe key) l -> Js.sortBy key l = l.
Proof.
  induction 1 as [|a l Hs IH Hf]; [reflexivity|].
  cbn [Js.sortBy fold_right]. fold (Js.sortBy key l). rewrite IH.
  destruct l as [|b l]; [reflexivity|]. cbn [Js.insertSorted].
  apply Forall_inv in Hf. unfold keyLe in Hf.
  destruct (Z.leb_spec (key a) (key b)); [reflexivity | lia].
Qed.

Lemma prepare_sorted :
  Layout.sortedTables p
  = Js.sortBy (fun t => (- Z.of_nat (degree p t))%Z) (Layout.tables p).
Proof. reflexivity. Qed.

(** X15: the tables are laid out in the order of their number of
    connections, most first; tables with equally many connections keep
    the order of the input, so that an input already in that order (as one
    without relationships is) is laid out as it stands. *)
Theorem tables_are_sorted_by_connections :
  Permutation (Layout.sortedTables p) (Layout.tables p)
  /\ StronglySorted (fun a b => degree p b <= degree p a)
       (Layout.sortedTables p)
  /\ (forall k,
        List.filter (fun t => (degree p t =? k)%nat) (Layout.sortedTables p)
        = List.filter (fun t => (degree p t =? k)%nat) (Layout.tables p))
  /\ (StronglySorted (fun a b => degree p b <= degree p a) (Layout.tables p) ->
      Layout.sortedTables p = Layout.tables p)
  /\ (inputRelationships = [] -> Layout.sortedTables p = Layout.tables p).
Proof.
  rewrite prepare_sorted.
  set (key := fun t => (- Z.of_nat (degree p t))%Z).
  assert (Hid : StronglySorted (fun a b => degree p b <= degree p a)
                  (Layout.tables p) ->
                Js.sortBy key (Layout.tables p) = Layout.tables p).
  { intros Hs. apply sortBy_sorted_id.
    eapply StronglySorted_weaken; [|exact Hs].
    intros a b Hab. unfold keyLe, key. cbv beta in *. lia. }
  split; [apply sortBy_perm|]. split; [|split; [|split; [exact Hid|]]].
  - eapply StronglySorted_weaken; [|apply (sortBy_sorted key)].
    intros a b Hab. unfold keyLe, key in Hab. cbv beta in *. lia.
  - intros k.
    pose proof (sortBy_stable key (- Z.of_nat k)%Z (Layout.tables p)) as Hst.
    assert (Hext : forall l,
               List.filter (fun t => (key t =? - Z.of_nat k)%Z) l
               = List.filter (fun t => (degree p t =? k)%nat) l).
    { intros l. apply filter_ext. intros t. unfold key.
      destruct (Nat.eqb_spec (degree p t) k) as [->|Hne].
      - apply Z.eqb_refl.
      - apply Z.eqb_neq. lia. }
    rewrite <- !Hext. exact Hst.
  - intros Hnil. apply Hid.
    assert (Hz : forall t, degree p t = 0).
    { intros t. unfold degree. rewrite prepare_connections, Hnil. reflexivity. }
    clear Hid.
    induction (Layout.tables p) as [|t l IH]; [constructor|].
    constructor; [exact IH|].
    apply Forall_forall. intros u _. rewrite !Hz. lia.
Qed.

End PrepareFacts.

(** ** The table that is placed first *)

Lemma NoDup_map_eq {A B : Type} (f : A -> B) (l : list A) (x y : A) :
  NoDup (map f l) -> In x l -> In y l -> f x = f y -> x = y.
Proof.
  induction l as [|a l IH]; intros Hnd Hx Hy E; [destruct Hx|].
  cbn [map] in Hnd. apply NoDup_cons_iff in Hnd as [Hn Hnd].
  destruct Hx as [<-|Hx], Hy as [<-|Hy]; auto.
  - exfalso. apply Hn. rewrite E. apply in_map. exact Hy.
  - exfalso. apply Hn. rewrite <- E. apply in_map. exact Hx.
Qed.

Section StartFacts.
Variables cos sin : float -> float.
Variables inputTables inputRelationships : list Layout.ref.
Variable s : Layout.store.

Local Abbreviation p := (Layout.prepare inputTables inputRelationships s).

Lemma search_in_the_void baseX baseY tableId :
  Layout.spiral cos sin [] baseX baseY tableId Layout.maxIterations 0 0 0
  = (0, {| Layout.px := (baseX + 0 * cos 0)%float;
           Layout.py := (baseY + 0 * sin 0)%float |}).
Proof.
  unfold Layout.maxIterations. rewrite spiral_S. reflexivity.
Qed.

(** X16: when [Math.cos(0)] is 1 and [Math.sin(0)] is 0, as ECMAScript has
    them, the first of the sorted tables, the one with the most
    connections, is placed at the starting offset (100, 100). *)
Theorem first_table_is_placed_at_the_start (out : list Layout.ref)
    (s' : Layout.store) (t : Layout.ref) :
  cos 0%float = 1%float ->
  sin 0%float = 0%float ->
  Layout.adjustTablePositions cos sin inputTables inputRelationships s
  = Some (out, s') ->
  head (Layout.sortedTables p) = Some t ->
  DBTable.x (Layout.tableObjects s' !!! t) = Layout.startX
  /\ DBTable.y (Layout.tableObjects s' !!! t) = Layout.startY.
Proof.
  intros Hcos Hsin Hadj Hhead.
  destruct (place_total cos sin inputTables inputRelationships s)
    as [st Hplace].
  destruct (Layout.sortedTables p) as [|t' rest] eqn:Hsorted; [discriminate|].
  injection Hhead as ->.
  assert (Ht : In t (Layout.tables p)).
  { apply order_tables. rewrite Hsorted. left. reflexivity. }
  assert (Hrest : forall u, In u rest -> In u (Layout.tables p)).
  { intros u Hu. apply order_tables. rewrite Hsorted. right. exact Hu. }
  pose proof Hplace as Hrun. unfold Layout.place in Hrun.
  rewrite Hsorted, seedTables_cons in Hrun.
  cbn [Layout.initialState Layout.positionedTables JsSet.has existsb negb]
    in Hrun.
  destruct (Layout.positionTable cos sin (Layout.tables p)
              (Layout.tableConnections p) (S (length (Layout.tables p))) t
              (Layout.seedX 0) (Layout.seedY 0) (Layout.initialState p))
    as [st1|] eqn:Hfirst; [|discriminate].
  apply positionTable_logs in Hfirst as (pl & more & Hlog & Hid & Hbx & Hby);
    [|exact Ht|reflexivity].
  cbn [Layout.initialState Layout.placements Layout.objects app] in Hlog, Hid.
  apply seedTables_extends in Hrun as [(_ & _ & (more' & Hlog') & _) _];
    [|exact Hrest].
  rewrite Hlog in Hlog'. cbn [app] in Hlog'.
  destruct (place_final cos sin inputTables inputRelationships s st Hplace)
    as (_ & (_ & _ & Hnd & Hcons) & _).
  destruct (Hcons [] pl (more ++ more') Hlog') as [_ Hchosen].
  cbn [map] in Hchosen. rewrite Hbx, Hby, search_in_the_void in Hchosen.
  cbn [snd] in Hchosen. rewrite Hcos, Hsin in Hchosen.
  destruct (adjust_objects cos sin inputTables inputRelationships s st out s'
              Hplace Hadj) as (_ & _ & Herase & _ & Hpos).
  destruct (Hpos t Ht) as (pl' & Hin & Hid' & Hx & Hy).
  assert (pl' = pl) as ->.
  { apply (NoDup_map_eq Layout.placedTable (Layout.placements st));
      [exact Hnd | exact Hin | rewrite Hlog'; left; reflexivity |].
    rewrite Hid, Hid'. apply erase_id. exact Herase. }
  rewrite Hx, Hy, Hchosen. split; vm_compute; reflexivity.
Qed.

End StartFacts.

Lemma first_table_is_placed_at_the_start_witness :
  match
    Layout.adjustTablePositions Layout.sampleCos Layout.sampleSin
      [0; 1; 2; 3] [0; 1] Layout.sampleStore
  with
  | Some (_, s') =>
      DBTable.id (Layout.tableObjects s' !!! 5) = "a"
      /\ DBTable.x (Layout.tableObjects s' !!! 5) = 100%float
      /\ DBTable.y (Layout.tableObjects s' !!! 5) = 100%float
  | None => False
  end.
Proof.
  let va :=
    eval vm_compute in
      (Layout.adjustTablePositions Layout.sampleCos Layout.sampleSin
         [0; 1; 2; 3] [0; 1] Layout.sampleStore) in
  lazymatch va with
  | Some (?out, ?s') =>
      assert (Ha : Layout.adjustTablePositions Layout.sampleCos
                     Layout.sampleSin [0; 1; 2; 3] [0; 1] Layout.sampleStore
                   = Some (out, s')) by (vm_compute; reflexivity);
      pose proof (first_table_is_placed_at_the_start
                    Layout.sampleCos Layout.sampleSin [0; 1; 2; 3] [0; 1]
                    Layout.sampleStore out s' 5
                    ltac:(vm_compute; reflexivity)
                    ltac:(vm_compute; reflexivity)
                    Ha ltac:(vm_compute; reflexivity)) as [Hx Hy];
      rewrite Ha; split; [vm_compute; reflexivity | split; [exact Hx | exact Hy]]
  end.
Defined.

Import Simulation Graph.

(** ** The layout does not read the positions of its input *)

Lemma setPosition_erased x y tb1 tb2 :
  eraseXY tb1 = eraseXY tb2 ->
  DBTable.setPosition x y tb1 = DBTable.setPosition x y tb2.
Proof.
  intros H.
  change (DBTable.setPosition x y tb1)
    with (DBTable.setPosition x y (eraseXY tb1)).
  rewrite H. reflexivity.
Qed.

Lemma find_ext' {A : Type} (f g : A -> bool) (l : list A) :
  (forall a, f a = g a) -> find f l = find g l.
Proof.
  intros H. induction l as [|a l IH]; simpl; [reflexivity|].
  rewrite H, IH. reflexivity.
Qed.

Lemma existsb_pointwise {A : Type} (f g : A -> bool) (l : list A) :
  (forall a, f a = g a) -> existsb f l = existsb g l.
Proof.
  intros H. induction l as [|a l IH]; simpl; [reflexivity|].
  rewrite H, IH. reflexivity.
Qed.

Lemma sortBy_ext {A : Type} (key key' : A -> Z) (l : list A) :
  (forall a, key a = key' a) -> Js.sortBy key l = Js.sortBy key' l.
Proof.
  intros H. induction l as [|a l IH]; [reflexivity|].
  cbn [Js.sortBy fold_right]. fold (Js.sortBy key l) (Js.sortBy key' l).
  rewrite IH. generalize (Js.sortBy key' l) as sorted.
  induction sorted as [|b sorted IHs]; [reflexivity|].
  cbn [Js.insertSorted]. rewrite !H, IHs. reflexivity.
Qed.

Section SimulationFacts.
Variables cos sin : float -> float.
Variable tables : list Layout.ref.
Variable tableConnections : JsMap.t JsSet.t.

Local Abbreviation positionTable :=
  (Layout.positionTable cos sin tables tableConnections).
Local Abbreviation seedTables :=
  (Layout.seedTables cos sin tables tableConnections).

Lemma sim_id st1 st2 t :
  sim st1 st2 ->
  DBTable.id (Layout.objects st1 !!! t) = DBTable.id (Layout.objects st2 !!! t).
Proof. intros (H & _). apply erase_id. exact H. Qed.

Lemma sim_record table baseX baseY found st1 st2 :
  sim st1 st2 ->
  sim (Layout.recordPosition cos sin table baseX baseY found st1)
      (Layout.recordPosition cos sin table baseX baseY found st2).
Proof.
  intros Hsim. pose proof (sim_id st1 st2 table Hsim) as Hid.
  destruct Hsim as (He & Hp & Ht & Hl).
  unfold sim, Layout.recordPosition.
  cbn [Layout.objects Layout.positionedTables Layout.tablePositions
         Layout.placements].
  rewrite !erase_write, Hid, Hp, Ht, Hl. auto.
Qed.

Lemma sim_findTable st1 st2 id :
  sim st1 st2 ->
  Layout.findTable tables (Layout.objects st1) id
  = Layout.findTable tables (Layout.objects st2) id.
Proof.
  intros Hsim. unfold Layout.findTable. apply find_ext'.
  intros t. rewrite (sim_id st1 st2 t Hsim). reflexivity.
Qed.

Lemma sim_placeConnected
    (recur : Layout.ref -> float -> float -> Layout.state
             -> option Layout.state)
    x y angleStep :
  (forall table bx by_ st1 st2,
     sim st1 st2 -> simOpt sim (recur table bx by_ st1) (recur table bx by_ st2)) ->
  forall connected st1 st2 angle,
    sim st1 st2 ->
    simOpt (fun a1 a2 => sim (fst a1) (fst a2) /\ snd a1 = snd a2)
      (Layout.forEachM (Layout.placeConnected cos sin tables recur x y angleStep)
         connected (st1, angle))
      (Layout.forEachM (Layout.placeConnected cos sin tables recur x y angleStep)
         connected (st2, angle)).
Proof.
  intros Hrec. induction connected as [|c connected IH];
    intros st1 st2 angle Hsim.
  - simpl. auto.
  - cbn [Layout.forEachM Layout.placeConnected].
    pose proof Hsim as (_ & Hp & _). rewrite Hp.
    destruct (negb (JsSet.has c (Layout.positionedTables st2)));
      [|apply IH; exact Hsim].
    rewrite (sim_findTable st1 st2 c Hsim).
    destruct (Layout.findTable tables (Layout.objects st2) c) as [ct|];
      [|apply IH; exact Hsim].
    specialize (Hrec ct
                  (x + cos angle * (Layout.tableWidth + Layout.gapX * 2))%float
                  (y + sin angle * (Layout.tableHeight + Layout.gapY * 2))%float
                  st1 st2 Hsim).
    destruct (recur ct _ _ st1) as [st1'|], (recur ct _ _ st2) as [st2'|];
      cbn [simOpt] in Hrec; try contradiction.
    + apply IH. exact Hrec.
    + exact I.
Qed.

Lemma sim_positionTable fuel :
  forall table baseX baseY st1 st2,
    sim st1 st2 ->
    simOpt sim (positionTable fuel table baseX baseY st1)
      (positionTable fuel table baseX baseY st2).
Proof.
  induction fuel as [|fuel IH]; intros table baseX baseY st1 st2 Hsim.
  - exact I.
  - rewrite !positionTable_S. cbv zeta.
    rewrite (sim_id st1 st2 table Hsim).
    pose proof Hsim as (_ & Hp & Ht & _). rewrite Hp, Ht.
    destruct (JsSet.has _ (Layout.positionedTables st2)); [exact Hsim|].
    set (found := Layout.findNonOverlappingPosition cos sin _ _ _ _).
    set (step := (2 * Layout.PI / _)%float).
    pose proof (sim_placeConnected (positionTable fuel)
                  (Layout.px found) (Layout.py found) step IH
                  (default [] (JsMap.get
                                 (DBTable.id (Layout.objects st2 !!! table))
                                 tableConnections))
                  _ _ 0%float
                  (sim_record table baseX baseY found st1 st2 Hsim)) as H.
    destruct (Layout.forEachM _ _ (Layout.recordPosition _ _ _ _ _ _ st1, _))
      as [[a1 g1]|],
      (Layout.forEachM _ _ (Layout.recordPosition _ _ _ _ _ _ st2, _))
      as [[a2 g2]|]; cbn [simOpt fst snd option_map] in *; tauto.
Qed.

Lemma sim_seedTables fuel sorted :
  forall index st1 st2,
    sim st1 st2 ->
    simOpt sim (seedTables fuel index sorted st1)
      (seedTables fuel index sorted st2).
Proof.
  induction sorted as [|t sorted IH]; intros index st1 st2 Hsim.
  - exact Hsim.
  - rewrite !seedTables_cons. rewrite (sim_id st1 st2 t Hsim).
    pose proof Hsim as (_ & Hp & _). rewrite Hp.
    destruct (negb (JsSet.has _ (Layout.positionedTables st2)));
      [|apply IH; exact Hsim].
    pose proof (sim_positionTable fuel t (Layout.seedX index)
                  (Layout.seedY index) st1 st2 Hsim) as H.
    destruct (positionTable fuel t _ _ st1) as [st1'|],
      (positionTable fuel t _ _ st2) as [st2'|];
      cbn [simOpt] in H; try contradiction.
    + apply IH. exact H.
    + exact I.
Qed.

End SimulationFacts.

Section IndependenceFacts.
Variables cos sin : float -> float.
Variables inputTables inputRelationships : list Layout.ref.
Variables s1 s2 : Layout.store.
Hypothesis same_tables :
  map eraseXY (Layout.tableObjects s1) = map eraseXY (Layout.tableObjects s2).
Hypothesis same_relationships :
  Layout.relationshipObjects s1 = Layout.relationshipObjects s2.

Local Abbreviation p1 := (Layout.prepare inputTables inputRelationships s1).
Local Abbreviation p2 := (Layout.prepare inputTables inputRelationships s2).

Lemma similar_tables : Layout.tables p1 = Layout.tables p2.
Proof.
  rewrite !prepare_tables. f_equal.
  apply (f_equal (@length _)) in same_tables.
  rewrite !length_map in same_tables. exact same_tables.
Qed.

Lemma similar_objects :
  map eraseXY (Layout.tableObjects (Layout.workStore p1))
  = map eraseXY (Layout.tableObjects (Layout.workStore p2)).
Proof.
  rewrite !prepare_objects, !map_app, !map_map. f_equal; [exact same_tables|].
  apply map_ext. intros a. apply erase_lookup. exact same_tables.
Qed.

Lemma similar_ids t :
  DBTable.id (Layout.tableObjects (Layout.workStore p1) !!! t)
  = DBTable.id (Layout.tableObjects (Layout.workStore p2) !!! t).
Proof. apply erase_id, similar_objects. Qed.

Lemma similar_connections :
  Layout.tableConnections p1 = Layout.tableConnections p2.
Proof.
  rewrite !prepare_connections, similar_tables, same_relationships.
  f_equal. unfold Layout.filterRelationships. apply filter_ext.
  intros rel. f_equal; apply existsb_pointwise; intros t; rewrite similar_ids;
    reflexivity.
Qed.

Lemma similar_order : Layout.sortedTables p1 = Layout.sortedTables p2.
Proof.
  rewrite !prepare_sorted, similar_tables. apply sortBy_ext.
  intros t. unfold degree. rewrite similar_connections, similar_ids.
  reflexivity.
Qed.

Lemma similar_start : sim (Layout.initialState p1) (Layout.initialState p2).
Proof.
  unfold sim. cbn [Layout.initialState Layout.objects Layout.positionedTables
                     Layout.tablePositions Layout.placements].
  split; [exact similar_objects | auto].
Qed.

Lemma similar_end st1 st2 :
  Layout.place cos sin inputTables inputRelationships s1 = Some st1 ->
  Layout.place cos sin inputTables inputRelationships s2 = Some st2 ->
  sim st1 st2.
Proof.
  unfold Layout.place.
  rewrite similar_tables, similar_connections, similar_order.
  intros H1 H2.
  pose proof (sim_seedTables cos sin (Layout.tables p2)
                (Layout.tableConnections p2) (S (length (Layout.tables p2)))
                (Layout.sortedTables p2) 0 _ _ similar_start) as H.
  rewrite H1, H2 in H. exact H.
Qed.

Lemma placed_has_position (s : Layout.store) st t :
  Layout.place cos sin inputTables inputRelationships s = Some st ->
  In t (Layout.tables (Layout.prepare inputTables inputRelationships s)) ->
  exists tb pos,
    Layout.objects st !! t = Some tb
    /\ JsMap.get (DBTable.id tb) (Layout.tablePositions st) = Some pos.
Proof.
  intros Hplace Ht.
  destruct (place_final cos sin inputTables inputRelationships s st Hplace)
    as ((He & _) & (Hpos & Hplaced & _) & Hall).
  assert (Hlt : t < length (Layout.objects st)).
  { apply work_tables_valid in Ht as [_ Ht].
    apply (f_equal (@length _)) in He. rewrite !length_map in He.
    cbn [Layout.initialState Layout.objects] in He. lia. }
  destruct (lookup_lt_is_Some_2 _ _ Hlt) as [tb Htb].
  specialize (Hall t Ht). rewrite (list_lookup_total_correct _ _ _ Htb) in Hall.
  destruct (JsMap.get (DBTable.id tb) (Layout.tablePositions st)) as [pos|]
    eqn:G; [eauto|].
  exfalso. apply get_None_keys in G. apply G.
  rewrite Hpos. unfold JsMap.keys. rewrite map_map.
  rewrite Hplaced in Hall. exact Hall.
Qed.

(** X17: the layout does not read the positions that its input tables come
    with: two inputs that differ in the coordinates of the tables at most
    are laid out alike, table for table. *)
Theorem layout_ignores_the_input_positions
    (out1 out2 : list Layout.ref) (s1' s2' : Layout.store) :
  Layout.adjustTablePositions cos sin inputTables inputRelationships s1
  = Some (out1, s1') ->
  Layout.adjustTablePositions cos sin inputTables inputRelationships s2
  = Some (out2, s2') ->
  out1 = out2
  /\ forall t,
       In t out1 ->
       Layout.tableObjects s1' !!! t = Layout.tableObjects s2' !!! t.
Proof.
  intros H1 H2. unfold Layout.adjustTablePositions in H1, H2.
  destruct (Layout.place cos sin inputTables inputRelationships s1)
    as [st1|] eqn:Hp1; [|discriminate].
  destruct (Layout.place cos sin inputTables inputRelationships s2)
    as [st2|] eqn:Hp2; [|discriminate].
  assert (E1 : out1 = Layout.tables p1
               /\ Layout.tableObjects s1'
                  = Layout.applyPositions (Layout.tables p1)
                      (Layout.tablePositions st1) (Layout.objects st1))
    by (injection H1 as <- <-; split; reflexivity).
  assert (E2 : out2 = Layout.tables p2
               /\ Layout.tableObjects s2'
                  = Layout.applyPositions (Layout.tables p2)
                      (Layout.tablePositions st2) (Layout.objects st2))
    by (injection H2 as <- <-; split; reflexivity).
  clear H1 H2. destruct E1 as [-> ->], E2 as [-> ->].
  split; [exact similar_tables|].
  intros t Ht.
  pose proof (similar_end st1 st2 Hp1 Hp2) as (He & _ & Hpos & _).
  destruct (placed_has_position s1 st1 t Hp1 Ht) as (tb1 & pos & Htb1 & G1).
  rewrite similar_tables in Ht.
  destruct (placed_has_position s2 st2 t Hp2 Ht) as (tb2 & pos' & Htb2 & G2).
  destruct (applyPositions_spec (Layout.tablePositions st1)
              (Layout.tables p1) (Layout.objects st1)) as (_ & _ & Hset1).
  destruct (applyPositions_spec (Layout.tablePositions st2)
              (Layout.tables p2) (Layout.objects st2)) as (_ & _ & Hset2).
  cbv zeta in Hset1, Hset2.
  rewrite <- similar_tables in Ht.
  rewrite (list_lookup_total_correct _ _ _ (Hset1 t tb1 Ht Htb1)).
  rewrite similar_tables in Ht.
  rewrite (list_lookup_total_correct _ _ _ (Hset2 t tb2 Ht Htb2)).
  assert (Herase : eraseXY tb1 = eraseXY tb2).
  { pose proof (erase_lookup _ _ t He) as E.
    rewrite (list_lookup_total_correct _ _ _ Htb1),
      (list_lookup_total_correct _ _ _ Htb2) in E. exact E. }
  assert (Hid : DBTable.id tb1 = DBTable.id tb2).
  { rewrite <- (eraseXY_id tb1), <- (eraseXY_id tb2), Herase. reflexivity. }
  unfold withPosition. rewrite G1, G2.
  rewrite Hid, Hpos, G2 in G1. injection G1 as <-.
  apply setPosition_erased. exact Herase.
Qed.

End IndependenceFacts.

Lemma layout_ignores_the_input_positions_witness :
  match
    Layout.adjustTablePositions Layout.sampleCos Layout.sampleSin
      [0; 1; 2; 3] [0; 1] Layout.sampleStore,
    Layout.adjustTablePositions Layout.sampleCos Layout.sampleSin
      [0; 1; 2; 3] [0; 1] movedStore
  with
  | Some (_, s1'), Some (_, s2') =>
      Layout.tableObjects s1' !!! 5 = Layout.tableObjects s2' !!! 5
  | _, _ => False
  end.
Proof.
  let v1 :=
    eval vm_compute in
      (Layout.adjustTablePositions Layout.sampleCos Layout.sampleSin
         [0; 1; 2; 3] [0; 1] Layout.sampleStore) in
  let v2 :=
    eval vm_compute in
      (Layout.adjustTablePositions Layout.sampleCos Layout.sampleSin
         [0; 1; 2; 3] [0; 1] movedStore) in
  lazymatch constr:((v1, v2)) with
  | (Some (?out1, ?s1'), Some (?out2, ?s2')) =>
      assert (H1 : Layout.adjustTablePositions Layout.sampleCos
                     Layout.sampleSin [0; 1; 2; 3] [0; 1] Layout.sampleStore
                   = Some (out1, s1')) by (vm_compute; reflexivity);
      assert (H2 : Layout.adjustTablePositions Layout.sampleCos
                     Layout.sampleSin [0; 1; 2; 3] [0; 1] movedStore
                   = Some (out2, s2')) by (vm_compute; reflexivity);
      pose proof (layout_ignores_the_input_positions
                    Layout.sampleCos Layout.sampleSin [0; 1; 2; 3] [0; 1]
                    Layout.sampleStore movedStore
                    ltac:(vm_compute; reflexivity)
                    ltac:(vm_compute; reflexivity)
                    out1 out2 s1' s2' H1 H2) as [_ H];
      rewrite H1, H2; apply H; vm_compute; tauto
  end.
Defined.

Import Graph Cluster.

(** ** Where the search for a table starts *)

Section ClusterFacts.
Variables cos sin : float -> float.
Variable tables : list Layout.ref.
Variable tableConnections : JsMap.t JsSet.t.

Local Abbreviation positionTable :=
  (Layout.positionTable cos sin tables tableConnections).
Local Abbreviation seedTables :=
  (Layout.seedTables cos sin tables tableConnections).
Local Abbreviation around := (Cluster.around cos sin tableConnections).
Local Abbreviation clustered := (Cluster.clustered cos sin tableConnections).

Local Abbreviation origin := (Cluster.origin cos sin tableConnections).

Lemma origin_nil seeded first : origin seeded first [].
Proof. intros before pl after E. destruct before; discriminate. Qed.

Lemma origin_app seeded first rest more :
  origin seeded first rest ->
  origin seeded (first ++ rest) more ->
  origin seeded first (rest ++ more).
Proof.
  intros Hr Hm before pl after E.
  apply app_eq_app in E as (l & [[E1 E2] | [E1 E2]]).
  - destruct l as [|p l].
    + cbn [app] in E2. rewrite app_nil_r in E1. subst rest.
      destruct (Hm [] pl after (eq_sym E2)) as [Hs | (q & Hq & Ha)];
        [left; exact Hs|].
      right. exists q. split; [|exact Ha]. rewrite app_nil_r in Hq. exact Hq.
    + injection E2 as <- ->. exact (Hr before pl l E1).
  - destruct (Hm l pl after E2) as [Hs | (q & Hq & Ha)]; [left; exact Hs|].
    right. exists q. split; [|exact Ha]. rewrite E1, app_assoc. exact Hq.
Qed.

Lemma origin_weaken (seeded seeded' : Layout.placement -> Prop)
    first first' rest :
  (forall pl, seeded pl -> seeded' pl) ->
  (forall q, In q first -> In q first') ->
  origin seeded first rest -> origin seeded' first' rest.
Proof.
  intros Hseed Hsub H before pl after E.
  destruct (H before pl after E) as [Hs | (q & Hq & Ha)]; [left; auto|].
  right. exists q. split; [|exact Ha].
  apply in_app_iff in Hq as [Hq | Hq]; apply in_app_iff; auto.
Qed.

Lemma origin_cons seeded pl rest :
  seeded pl -> clustered [pl] rest -> origin seeded [] (pl :: rest).
Proof.
  intros Hs Hcl before q after E. destruct before as [|b before].
  - injection E as <- <-. left. exact Hs.
  - injection E as <- E. right.
    destruct (Hcl before q after E) as [[] | (q' & Hq' & Ha)].
    exists q'. auto.
Qed.

Lemma angleAfter_S step k :
  angleAfter step (S k) = (angleAfter step k + step)%float.
Proof. reflexivity. Qed.

Local Abbreviation runOf := (Cluster.runOf cos sin tableConnections).

Lemma placeConnected_cluster
    (recur : Layout.ref -> float -> float -> Layout.state
             -> option Layout.state)
    (log : list Layout.placement) (pl : Layout.placement) :
  (forall table bx by_ st st',
     recur table bx by_ st = Some st' -> runOf table bx by_ st st') ->
  forall connected done acc acc' k rest,
    neighbours tableConnections (Layout.placedTable pl) = done ++ connected ->
    k <= length done ->
    snd acc
    = angleAfter (angleStepOf tableConnections (Layout.placedTable pl)) k ->
    Layout.placements (fst acc) = log ++ pl :: rest ->
    clustered [pl] rest ->
    Layout.forEachM
      (Layout.placeConnected cos sin tables recur
         (Layout.px (Layout.chosen pl)) (Layout.py (Layout.chosen pl))
         (angleStepOf tableConnections (Layout.placedTable pl)))
      connected acc = Some acc' ->
    exists rest',
      Layout.placements (fst acc') = log ++ pl :: rest'
      /\ clustered [pl] rest'.
Proof.
  intros Hrec.
  induction connected as [|c connected IH];
    intros done [st angle] acc' k rest Hn Hk Hangle Hlog Hcl Hrun.
  - injection Hrun as <-. eauto.
  - cbn [fst snd] in Hangle, Hlog. subst angle.
    assert (Hn' : neighbours tableConnections (Layout.placedTable pl)
                  = (done ++ [c]) ++ connected)
      by (rewrite <- app_assoc; exact Hn).
    assert (Hk' : k <= length (done ++ [c]))
      by (rewrite length_app; simpl; lia).
    assert (Hk'' : S k <= length (done ++ [c]))
      by (rewrite length_app; simpl; lia).
    cbn [Layout.forEachM Layout.placeConnected] in Hrun.
    destruct (negb (JsSet.has c (Layout.positionedTables st))) eqn:Hhas;
      [|exact (IH _ (st, _) acc' k rest Hn' Hk' eq_refl Hlog Hcl Hrun)].
    destruct (Layout.findTable tables (Layout.objects st) c) as [ct|] eqn:Hfind;
      [|exact (IH _ (st, _) acc' k rest Hn' Hk' eq_refl Hlog Hcl Hrun)].
    match type of Hrun with
    | context [recur ct ?bx ?by_ st] =>
        destruct (recur ct bx by_ st) as [st''|] eqn:Hcall; [|discriminate];
        apply Hrec in Hcall
    end.
    destruct Hcall as [[-> _] | (_ & pl1 & rest1 & Hlog1 & Hid1 & Hbx & Hby & Hcl1)].
    + exact (IH _ (st, _) acc' (S k) rest Hn' Hk'' eq_refl Hlog Hcl Hrun).
    + apply (IH _ (st'', _) acc' (S k) (rest ++ pl1 :: rest1) Hn' Hk'' eq_refl);
        [| |exact Hrun].
      * cbn [fst]. rewrite Hlog1, Hlog, <- app_assoc. reflexivity.
      * apply origin_app; [exact Hcl|].
        intros before q after E. right. destruct before as [|b before].
        -- injection E as <- <-. exists pl. split; [left; reflexivity|].
           assert (Hc : DBTable.id (Layout.objects st !!! ct) = c).
           { apply find_some in Hfind as [_ Hc]. apply String.eqb_eq. exact Hc. }
           split.
           ++ rewrite Hid1, Hc, Hn. apply in_app_iff. right. left. reflexivity.
           ++ exists k. split; [|split; assumption].
              unfold JsSet.size. rewrite Hn, length_app. simpl. lia.
        -- injection E as <- E.
           destruct (Hcl1 before q after E) as [[] | (q' & Hq' & Ha)].
           exists q'. split; [|exact Ha].
           cbn [app] in Hq'. destruct Hq' as [<- | Hq'].
           ++ apply in_app_iff. right. left. reflexivity.
           ++ apply in_app_iff. right. right. exact Hq'.
Qed.

Lemma positionTable_cluster fuel :
  forall table baseX baseY st st',
    positionTable fuel table baseX baseY st = Some st' ->
    runOf table baseX baseY st st'.
Proof.
  induction fuel as [|fuel IH]; intros table baseX baseY st st' Hrun;
    [discriminate|].
  rewrite positionTable_S in Hrun. cbv zeta in Hrun.
  destruct (JsSet.has _ (Layout.positionedTables st)) eqn:Hhas.
  - injection Hrun as <-. left. auto.
  - right. split; [exact Hhas|].
    set (tableId := DBTable.id (Layout.objects st !!! table)) in *.
    set (found := Layout.findNonOverlappingPosition cos sin
                    (Layout.tablePositions st) baseX baseY tableId) in *.
    set (pl := {| Layout.placedTable := tableId;
                  Layout.baseX := baseX; Layout.baseY := baseY;
                  Layout.iterations :=
                    fst (Layout.spiral cos sin (Layout.tablePositions st)
                           baseX baseY tableId Layout.maxIterations 0 0 0);
                  Layout.chosen :=
                    {| Layout.px := Layout.px found;
                       Layout.py := Layout.py found |} |}).
    destruct (Layout.forEachM _ _ _) as [acc'|] eqn:Hloop; [|discriminate].
    injection Hrun as <-.
    destruct (placeConnected_cluster (positionTable fuel)
                (Layout.placements st) pl IH
                (neighbours tableConnections tableId) []
                (Layout.recordPosition cos sin table baseX baseY found st,
                 0%float)
                acc' 0 []
                eq_refl (Nat.le_refl 0) eq_refl eq_refl (origin_nil _ [pl])
                Hloop)
      as (rest' & Hlog & Hcl).
    exists pl, rest'. auto.
Qed.

Lemma seedTables_cluster fuel sorted :
  forall index st st',
    (forall t, In t sorted -> In t tables) ->
    seedTables fuel index sorted st = Some st' ->
    exists more,
      Layout.placements st' = Layout.placements st ++ more
      /\ origin (seededAt index sorted (Layout.objects st)) [] more.
Proof.
  induction sorted as [|t sorted IH]; intros index st st' Hin Hrun.
  - injection Hrun as <-. exists []. split; [symmetry; apply app_nil_r|].
    apply origin_nil.
  - rewrite seedTables_cons in Hrun.
    assert (Ht : In t tables) by (apply Hin; left; reflexivity).
    assert (Hrest : forall u, In u sorted -> In u tables)
      by (intros u Hu; apply Hin; right; exact Hu).
    assert (Hstep : forall st1 more1,
               map eraseXY (Layout.objects st1) = map eraseXY (Layout.objects st) ->
               origin (seededAt (S index) sorted (Layout.objects st1)) [] more1 ->
               forall first,
                 origin (seededAt index (t :: sorted) (Layout.objects st))
                   first more1).
    { intros st1 more1 He Ho first. eapply origin_weaken; [| |exact Ho].
      - intros pl (i & u & Hu & Hid & Hbx & Hby). exists (S i), u.
        rewrite Nat.add_succ_r. rewrite (erase_id _ _ u He) in Hid. auto.
      - intros q []. }
    destruct (negb (JsSet.has _ (Layout.positionedTables st))) eqn:Hhas.
    + destruct (positionTable fuel t _ _ st) as [st1|] eqn:Hcall;
        [|discriminate].
      pose proof (positionTable_extends cos sin tables tableConnections fuel
                    t _ _ st st1 Ht Hcall) as [(He & _) _].
      apply positionTable_cluster in Hcall.
      destruct (IH (S index) st1 st' Hrest Hrun) as (more1 & Hlog1 & Ho1).
      destruct Hcall as [[-> _] | (_ & pl & rest & Hlog & Hid & Hbx & Hby & Hcl)].
      * exists more1. split; [exact Hlog1|]. apply (Hstep st more1 eq_refl Ho1).
      * exists ((pl :: rest) ++ more1). split.
        -- rewrite Hlog1, Hlog, <- app_assoc. reflexivity.
        -- apply origin_app; [|apply (Hstep st1 more1 He Ho1)].
           apply origin_cons; [|exact Hcl].
           exists 0, t. rewrite Nat.add_0_r. auto.
    + destruct (IH (S index) st st' Hrest Hrun) as (more1 & Hlog1 & Ho1).
      exists more1. split; [exact Hlog1|]. apply (Hstep st more1 eq_refl Ho1).
Qed.

End ClusterFacts.

(** X18: where the search for a table starts.  Every table is searched
    either from the grid cell of its index among the sorted tables, or
    from a point of the ellipse (half axes 400 and 500) around the point
    chosen for a table placed before it with which it is connected, at the
    angle that the earlier table's loop had reached: a whole number of
    steps of 2 PI by the number of its connections, fewer than that
    number. *)
Theorem search_starts_at_a_seed_or_around_a_neighbour
    (cos sin : float -> float)
    (inputTables inputRelationships : list Layout.ref) (s : Layout.store) :
  let p := Layout.prepare inputTables inputRelationships s in
  match Layout.place cos sin inputTables inputRelationships s with
  | Some st =>
      forall before pl after,
        Layout.placements st = before ++ pl :: after ->
        (exists i t,
           Layout.sortedTables p !! i = Some t
           /\ Layout.placedTable pl
              = DBTable.id (Layout.tableObjects (Layout.workStore p) !!! t)
           /\ Layout.baseX pl = Layout.seedX i
           /\ Layout.baseY pl = Layout.seedY i)
        \/ exists q,
             In q before
             /\ Cluster.around cos sin (Layout.tableConnections p) q pl
  | None => False
  end.
Proof.
  intros p.
  destruct (place_total cos sin inputTables inputRelationships s)
    as [st Hplace].
  rewrite Hplace. unfold Layout.place in Hplace.
  apply seedTables_cluster in Hplace as (more & Hlog & Ho);
    [|apply order_tables].
  cbn [Layout.initialState Layout.placements app] in Hlog.
  intros before pl after E. rewrite Hlog in E.
  exact (Ho before pl after E).
Qed.

